(** * ArrowReg document converters: a shallow embedding

    Two converters of the repository are embedded here:

    - [data-local/abs_part7_pdf_parser.py] (class [ABSPart7Parser]): page text
      is cleaned, cut into sections by an ordered list of heading patterns and
      rendered as markdown;
    - [data-local/ecfr_xml_to_markdown.py] (class [ECFRToMarkdownConverter]):
      an XML tree is walked recursively and rendered as markdown.

    Both lean on Python's [re] module.  The regular expressions of the source
    are kept as data (type [regex]) and run by a backtracking matcher that
    follows [re]'s priorities: greedy and lazy repetition, ordered
    alternation, capture groups, [^], [$] and [\b].

    Text is a list of characters.  A character is a code point below 256
    (Latin-1); the character classes [\s], [\d], [\w], [str.isspace] and
    [str.isdigit] are the ones Python has on that range. *)

From Stdlib Require Import Ascii String List Bool Arith NArith ZArith Lia.
From Stdlib Require Import Numbers.DecimalString.
Import ListNotations.

Set Implicit Arguments.
Set Warnings "-register-all".

(** ** Text *)

Definition str : Type := list ascii.

Definition of_string (s : string) : str := list_ascii_of_string s.

Notation "'T' s" := (of_string s%string) (at level 9, s at level 0, format "'T' s").

Definition nl : ascii := "010"%char.
Definition tab : ascii := "009"%char.
Definition space : ascii := " "%char.

Definition code (c : ascii) : N := N_of_ascii c.

Definition between (lo hi : N) (c : ascii) : bool :=
  ((lo <=? code c) && (code c <=? hi))%N.

Definition is_char (a c : ascii) : bool := Ascii.eqb a c.

(** [str.isspace] and the class [\s] on code points below 256. *)
Definition is_space (c : ascii) : bool :=
  between 9 13 c || between 28 32 c || (code c =? 133)%N || (code c =? 160)%N.

(** The class [\d]. *)
Definition is_digit (c : ascii) : bool := between 48 57 c.

Definition is_upper_az (c : ascii) : bool := between 65 90 c.
Definition is_lower_az (c : ascii) : bool := between 97 122 c.

(** [str.isdigit] also accepts the superscript digits. *)
Definition py_isdigit (c : ascii) : bool :=
  is_digit c || (code c =? 178)%N || (code c =? 179)%N || (code c =? 185)%N.

(** The class [\w]: alphanumeric characters and the underscore. *)
Definition is_word (c : ascii) : bool :=
  is_digit c || is_upper_az c || is_lower_az c || (code c =? 95)%N
  || (code c =? 170)%N || (code c =? 178)%N || (code c =? 179)%N
  || (code c =? 181)%N || (code c =? 185)%N || (code c =? 186)%N
  || between 188 190 c || between 192 214 c || between 216 246 c
  || between 248 255 c.

(** Lower case of a character, as [re.IGNORECASE] folds it: the letters A-Z
    and the Latin-1 capitals. *)
Definition lower (c : ascii) : ascii :=
  if is_upper_az c || between 192 214 c || between 216 222 c
  then ascii_of_N (code c + 32) else c.

(** A literal character of a pattern compiled with [re.IGNORECASE]. *)
Definition is_char_i (a c : ascii) : bool := Ascii.eqb (lower a) (lower c).

Fixpoint lstrip (s : str) : str :=
  match s with
  | c :: s' => if is_space c then lstrip s' else s
  | [] => []
  end.

Definition rstrip (s : str) : str := rev (lstrip (rev s)).

(** [str.strip()] *)
Definition strip (s : str) : str := rstrip (lstrip s).

(** [sep.join(parts)] *)
Fixpoint join (sep : str) (parts : list str) : str :=
  match parts with
  | [] => []
  | [p] => p
  | p :: ps => p ++ sep ++ join sep ps
  end.

(** [text.split(c)] for a one-character separator: the pieces between the
    separators, at least one piece. *)
Fixpoint split_on (c : ascii) (s : str) : list str :=
  match s with
  | [] => [[]]
  | a :: s' =>
      if Ascii.eqb a c then [] :: split_on c s'
      else match split_on c s' with
           | p :: ps => (a :: p) :: ps
           | [] => [[a]]
           end
  end.

Definition str_eqb (a b : str) : bool :=
  if list_eq_dec ascii_dec a b then true else false.

Definition is_empty (s : str) : bool :=
  match s with [] => true | _ => false end.

Fixpoint starts_with (p s : str) : bool :=
  match p, s with
  | [], _ => true
  | a :: p', b :: s' => Ascii.eqb a b && starts_with p' s'
  | _ :: _, [] => false
  end.

(** Does [p] occur in [s]? *)
Fixpoint occurs (p s : str) : bool :=
  starts_with p s ||
  match s with
  | [] => false
  | _ :: s' => occurs p s'
  end.

(** How many times the character [c] occurs in [s]. *)
Definition count_char (c : ascii) (s : str) : nat :=
  length (filter (Ascii.eqb c) s).

(** ** Regular expressions, as [re] runs them *)

Inductive regex : Type :=
| Eps
| Chr (f : ascii -> bool)          (* one character of a class *)
| Seq (r1 r2 : regex)
| Alt (r1 r2 : regex)              (* r1|r2, r1 tried first *)
| Star (greedy : bool) (r : regex) (* r* and r*? *)
| Group (n : nat) (r : regex)      (* capture group number n *)
| Bol (multiline : bool)           (* ^ *)
| Eol                              (* $ without re.MULTILINE *)
| WordB.                           (* \b *)

(** A position in the subject: the character before it, if any, and what is
    left to read. *)
Record pos : Type := mkpos { before : option ascii; rest : str }.

Definition caps : Type := list (nat * str).

Fixpoint group (n : nat) (c : caps) : option str :=
  match c with
  | [] => None
  | (m, v) :: c' => if Nat.eqb n m then Some v else group n c'
  end.

Definition result : Type := option (caps * pos).
Definition cont : Type := pos -> caps -> result.

Definition orelse (a b : result) : result :=
  match a with Some _ => a | None => b end.

Definition advance (a : ascii) (s : str) : pos := mkpos (Some a) s.

(** The text read between position [p] and a later position [p']. *)
Definition consumed (p p' : pos) : str :=
  firstn (length (rest p) - length (rest p')) (rest p).

Definition at_bol (multiline : bool) (p : pos) : bool :=
  match before p with
  | None => true
  | Some a => multiline && Ascii.eqb a nl
  end.

(** [$] matches at the end and before a newline that ends the subject. *)
Definition at_eol (p : pos) : bool :=
  match rest p with
  | [] => true
  | [a] => Ascii.eqb a nl
  | _ => false
  end.

Definition word_before (p : pos) : bool :=
  match before p with Some a => is_word a | None => false end.

Definition word_after (p : pos) : bool :=
  match rest p with a :: _ => is_word a | [] => false end.

Definition at_wordb (p : pos) : bool := xorb (word_before p) (word_after p).

(** Repetition of [body]: a greedy loop tries one more round before leaving,
    a lazy one leaves first.  A round that reads nothing is refused; [n]
    bounds the rounds and is never reached when it exceeds the length of the
    subject. *)
Fixpoint star_loop (body : pos -> caps -> cont -> result) (greedy : bool)
    (k : cont) (n : nat) (p : pos) (c : caps) : result :=
  match n with
  | 0 => k p c
  | S n' =>
      let again :=
        body p c (fun p' c' =>
          if length (rest p') <? length (rest p)
          then star_loop body greedy k n' p' c' else None) in
      if greedy then orelse again (k p c) else orelse (k p c) again
  end.

Fixpoint run (r : regex) (p : pos) (c : caps) (k : cont) : result :=
  match r with
  | Eps => k p c
  | Chr f =>
      match rest p with
      | a :: s => if f a then k (advance a s) c else None
      | [] => None
      end
  | Seq r1 r2 => run r1 p c (fun p' c' => run r2 p' c' k)
  | Alt r1 r2 => orelse (run r1 p c k) (run r2 p c k)
  | Star g r1 => star_loop (run r1) g k (S (length (rest p))) p c
  | Group n r1 => run r1 p c (fun p' c' => k p' ((n, consumed p p') :: c'))
  | Bol ml => if at_bol ml p then k p c else None
  | Eol => if at_eol p then k p c else None
  | WordB => if at_wordb p then k p c else None
  end.

Definition accept : cont := fun p c => Some (c, p).

(** A match of [r] that starts at position [p]. *)
Definition match_at (r : regex) (p : pos) : result := run r p [] accept.

(** [re.match(r, s)]: a match at the start of [s]; the captures. *)
Definition re_match (r : regex) (s : str) : option caps :=
  match match_at r (mkpos None s) with
  | Some (c, _) => Some c
  | None => None
  end.

(** [re.sub(r, repl, s)]: the subject is scanned from the left; where the
    pattern matches, the replacement is written and the scan goes on after the
    match, elsewhere one character is copied.  After an empty match one
    character is copied too. *)
Fixpoint sub_from (n : nat) (r : regex) (repl : caps -> str) (p : pos) : str :=
  match n with
  | 0 => rest p
  | S n' =>
      let copy :=
        match rest p with
        | [] => []
        | a :: s => a :: sub_from n' r repl (advance a s)
        end in
      match match_at r p with
      | Some (c, p') =>
          if length (rest p') <? length (rest p)
          then repl c ++ sub_from n' r repl p'
          else repl c ++ copy
      | None => copy
      end
  end.

Definition re_sub (r : regex) (repl : caps -> str) (s : str) : str :=
  sub_from (S (length s)) r repl (mkpos None s).

(** [\1], [\2] in a replacement. *)
Definition grp (n : nat) (c : caps) : str :=
  match group n c with Some v => v | None => [] end.

(** Pattern notation. *)
Declare Scope re_scope.
Delimit Scope re_scope with re.
Bind Scope re_scope with regex.
Infix ";;" := Seq (at level 61, right associativity) : re_scope.
Infix "<|>" := Alt (at level 62, right associativity) : re_scope.

Definition plus (r : regex) : regex := Seq r (Star true r).       (* r+ *)
Definition plus_lazy (r : regex) : regex := Seq r (Star false r). (* r+? *)
Definition star (r : regex) : regex := Star true r.               (* r* *)
Definition star_lazy (r : regex) : regex := Star false r.         (* r*? *)

Fixpoint chars (eq : ascii -> ascii -> bool) (s : str) : regex :=
  match s with
  | [] => Eps
  | a :: s' => Seq (Chr (eq a)) (chars eq s')
  end.

(** A literal, and a literal under [re.IGNORECASE]. *)
Definition lit (s : string) : regex := chars is_char (of_string s).
Definition lit_i (s : string) : regex := chars is_char_i (of_string s).

Definition dot : ascii -> bool := fun c => negb (Ascii.eqb c nl).   (* . *)
Definition one_of (s : string) : ascii -> bool :=
  fun c => existsb (Ascii.eqb c) (of_string s).

Definition ws : regex := Chr is_space.         (* \s *)
Definition digit : regex := Chr is_digit.      (* \d *)
Definition wordc : regex := Chr is_word.       (* \w *)
Definition any : regex := Chr dot.             (* . *)
Definition chr (a : ascii) : regex := Chr (is_char a).

(** A set of characters under [re.IGNORECASE]: members and subject are both
    folded to lower case. *)
Definition set_i (members : list N) : ascii -> bool :=
  fun c => existsb (fun m => is_char_i (ascii_of_N m) c) members.

Definition set_of (members : list N) : ascii -> bool :=
  fun c => existsb (fun m => is_char (ascii_of_N m) c) members.

(** [[A-Z]] under [re.IGNORECASE]. *)
Definition upper_az_i : ascii -> bool := fun c => is_lower_az (lower c).

(** ** The PDF converter: [ABSPart7Parser] *)

Module ABSPart7Parser.

(** What [doc[page_num].get_text("text")] gives: the text of the page, or an
    exception. *)
Inductive page : Type :=
| PageText (text : str)
| PageError (message : str).

(** An open document: its pages and what [get_toc()] gives (bookmarks as
    level, title and page number, or an exception). *)
Record pdf : Type := mkpdf {
  pages : list page;
  bookmarks : option (list (Z * str * Z))
}.

(** [extract_text_from_page]: the exception is logged and the empty string
    returned. *)
Definition extract_text_from_page (doc : pdf) (page_num : nat) : str :=
  match nth_error (pages doc) page_num with
  | Some (PageText text) => text
  | Some (PageError _) => []
  | None => []
  end.

(** The patterns of [clean_text]. *)
Definition blank_lines : regex :=            (* \n\s*\n\s*\n *)
  (chr nl ;; star ws ;; chr nl ;; star ws ;; chr nl)%re.
Definition blanks : regex :=                 (* [ \t]+ *)
  plus (Chr (fun c => is_char space c || is_char tab c)).
Definition hyphen_break : regex :=           (* (\w+)-\s*\n\s*(\w+) *)
  (Group 1 (plus wordc) ;; chr "-" ;; star ws ;; chr nl ;; star ws ;;
   Group 2 (plus wordc))%re.
Definition page_line : regex :=              (* \n\s*Page \d+.*?\n *)
  (chr nl ;; star ws ;; lit "Page " ;; plus digit ;; star_lazy any ;; chr nl)%re.
Definition abs_line : regex :=               (* \n\s*ABS.*?\n *)
  (chr nl ;; star ws ;; lit "ABS" ;; star_lazy any ;; chr nl)%re.
Definition part7_line : regex :=             (* \n\s*PART 7.*?\n *)
  (chr nl ;; star ws ;; lit "PART 7" ;; star_lazy any ;; chr nl)%re.

Definition collapse_newlines (text : str) : str :=
  re_sub blank_lines (fun _ => [nl; nl]) text.
Definition collapse_blanks (text : str) : str :=
  re_sub blanks (fun _ => [space]) text.
Definition rejoin_hyphens (text : str) : str :=
  re_sub hyphen_break (fun c => grp 1 c ++ grp 2 c) text.
Definition drop_boilerplate (text : str) : str :=
  let text := re_sub page_line (fun _ => [nl]) text in
  let text := re_sub abs_line (fun _ => [nl]) text in
  re_sub part7_line (fun _ => [nl]) text.

Definition clean_text (text : str) : str :=
  let text := collapse_newlines text in
  let text := collapse_blanks text in
  let text := rejoin_hyphens text in
  let text := drop_boilerplate text in
  strip text.

(** A section, the dictionary [identify_sections] builds. *)
Record Section : Type := mkSection {
  type : str;
  number : str;
  title : str;
  content : str;
  full_header : str
}.

Definition heading_tail : regex :=           (* \s+(.+?)$ *)
  (plus ws ;; Group 2 (plus_lazy any) ;; Eol)%re.

(** The dash class of the table and figure patterns.  The source file has
    four characters between the brackets: '-', U+201A, U+00C4 and U+00EC;
    U+201A lies outside the range of this model. *)
Definition dash_i : ascii -> bool := set_i [45; 196; 236]%N.

Definition dotted_number : regex :=          (* \d+ then (?:\.\d+) repeated *)
  (plus digit ;; star (chr "." ;; plus digit))%re.

Definition chapter_re : regex :=             (* ^CHAPTER (\d+)\s+(.+?)$ *)
  (Bol false ;; lit_i "CHAPTER " ;; Group 1 (plus digit) ;; heading_tail)%re.
Definition section_re : regex :=             (* ^SECTION (\d+)\s+(.+?)$ *)
  (Bol false ;; lit_i "SECTION " ;; Group 1 (plus digit) ;; heading_tail)%re.
Definition main_section_re : regex :=        (* ^(\d+)\s+(.+?)$ *)
  (Bol false ;; Group 1 (plus digit) ;; heading_tail)%re.
Definition subsection_re : regex :=          (* ^(\d+\.\d+)\s+(.+?)$ *)
  (Bol false ;; Group 1 (plus digit ;; chr "." ;; plus digit) ;;
   heading_tail)%re.
Definition subsubsection_re : regex :=       (* ^(\d+\.\d+\.\d+)\s+(.+?)$ *)
  (Bol false ;;
   Group 1 (plus digit ;; chr "." ;; plus digit ;; chr "." ;; plus digit) ;;
   heading_tail)%re.
Definition item_re : regex :=                (* ^([A-Z])\.\s+(.+?)$ *)
  (Bol false ;; Group 1 (Chr upper_az_i) ;; chr "." ;; heading_tail)%re.
(** [table_re] is [^TABLE (N)\s*[D]\s*(.+?)$] and [figure_re] is
    [^FIGURE (N)\s*[D]\s*(.+?)$], with [dotted_number] for N and the class
    [dash_i] for [D]. *)
Definition table_re : regex :=
  (Bol false ;; lit_i "TABLE " ;; Group 1 dotted_number ;; star ws ;;
   Chr dash_i ;; star ws ;; Group 2 (plus_lazy any) ;; Eol)%re.
Definition figure_re : regex :=
  (Bol false ;; lit_i "FIGURE " ;; Group 1 dotted_number ;; star ws ;;
   Chr dash_i ;; star ws ;; Group 2 (plus_lazy any) ;; Eol)%re.

(** The pattern list of [identify_sections], in the order of the source. *)
Definition patterns : list (regex * str) :=
  [ (chapter_re, T"chapter");
    (section_re, T"section");
    (main_section_re, T"main_section");
    (subsection_re, T"subsection");
    (subsubsection_re, T"subsubsection");
    (item_re, T"item");
    (table_re, T"table");
    (figure_re, T"figure") ].

(** How many capture groups a pattern has: the length of [match.groups()]. *)
Fixpoint ngroups (r : regex) : nat :=
  match r with
  | Seq r1 r2 | Alt r1 r2 => ngroups r1 + ngroups r2
  | Star _ r1 => ngroups r1
  | Group _ r1 => S (ngroups r1)
  | _ => 0
  end.

(** [match.groups()] *)
Definition groups (r : regex) (c : caps) : list str :=
  map (fun n => grp n c) (seq 1 (ngroups r)).

(** The inner loop over the patterns: the first pattern that matches the
    line, with the number and the title taken from its groups.  Every pattern
    of the list has two groups; with one group the title is empty, and with
    none the source would raise. *)
Fixpoint first_match (ps : list (regex * str)) (line : str)
  : option (str * str * str) :=
  match ps with
  | [] => None
  | (pattern, section_type) :: ps' =>
      match re_match pattern line with
      | Some c =>
          match groups pattern c with
          | number :: title :: _ => Some (section_type, number, title)
          | [number] => Some (section_type, number, [])
          | [] => None
          end
      | None => first_match ps' line
      end
  end.

(** The state of the loop over the lines. *)
Record seg_state : Type := mkseg {
  sections : list Section;
  current_section : option Section;
  content_buffer : list str
}.

Definition with_content (s : Section) (c : str) : Section :=
  mkSection (type s) (number s) (title s) c (full_header s).

(** "Save previous section if exists": done when a section is open and the
    buffer is not empty. *)
Definition save_section (st : seg_state) : list Section :=
  match current_section st, content_buffer st with
  | Some cur, _ :: _ =>
      sections st ++ [with_content cur (strip (join [nl] (content_buffer st)))]
  | _, _ => sections st
  end.

(** One round of the loop over the lines. *)
Definition step (st : seg_state) (raw : str) : seg_state :=
  let line := strip raw in
  if is_empty line then st
  else
    match first_match patterns line with
    | Some (section_type, number, title) =>
        mkseg (save_section st)
              (Some (mkSection section_type number (strip title) [] line))
              []
    | None =>
        mkseg (sections st) (current_section st) (content_buffer st ++ [line])
    end.

Definition init : seg_state := mkseg [] None [].

Definition identify_sections (text : str) : list Section :=
  save_section (fold_left step (split_on nl text) init).

(** The patterns of [format_content]. *)

(** The bullet class of the first pattern.  The source file has four
    characters between the brackets: '-', U+201A, U+00C4 and U+00A2.  A text
    of this model holds code points below 256 only, so that U+201A never
    stands in a subject; the class is given by its three members of that
    range.  What is proved of [format_content] is proved of texts of that
    range. *)
Definition bullet : ascii -> bool := set_of [45; 196; 162]%N.

Definition bullet_re : regex :=              (* ^[bullet]\s+ *)
  (Bol true ;; Chr bullet ;; plus ws)%re.
Definition letter_item_re : regex :=         (* ^\s*\([a-z]\)\s+ *)
  (Bol true ;; star ws ;; chr "(" ;; Chr is_lower_az ;; chr ")" ;; plus ws)%re.
Definition number_item_re : regex :=         (* ^\s*\d+\)\s+ *)
  (Bol true ;; star ws ;; plus digit ;; chr ")" ;; plus ws)%re.
Definition xref_re : regex :=                (* \b(\d+\.\d+\.\d+)\b *)
  (WordB ;;
   Group 1 (plus digit ;; chr "." ;; plus digit ;; chr "." ;; plus digit) ;;
   WordB)%re.
Definition section_ref_re : regex :=         (* \b(Section \d+)\b *)
  (WordB ;; Group 1 (lit "Section " ;; plus digit) ;; WordB)%re.
Definition chapter_ref_re : regex :=         (* \b(Chapter \d+)\b *)
  (WordB ;; Group 1 (lit "Chapter " ;; plus digit) ;; WordB)%re.
Definition mandatory_re : regex :=  (* \b(shall|must|required|mandatory)\b *)
  (WordB ;;
   Group 1 (lit_i "shall" <|> lit_i "must" <|> lit_i "required"
            <|> lit_i "mandatory") ;;
   WordB)%re.
Definition permissive_re : regex :=          (* \b(may|optional|recommended)\b *)
  (WordB ;;
   Group 1 (lit_i "may" <|> lit_i "optional" <|> lit_i "recommended") ;;
   WordB)%re.

Definition bold (c : caps) : str := T"**" ++ grp 1 c ++ T"**".
Definition italic (c : caps) : str := T"*" ++ grp 1 c ++ T"*".

(** "Handle lists and bullet points" *)
Definition format_lists (content : str) : str :=
  let content := re_sub bullet_re (fun _ => T"- ") content in
  let content := re_sub letter_item_re (fun _ => T"  - ") content in
  re_sub number_item_re (fun _ => T"  1. ") content.

(** "Handle regulatory references" *)
Definition format_references (content : str) : str :=
  let content := re_sub xref_re bold content in
  let content := re_sub section_ref_re bold content in
  re_sub chapter_ref_re bold content.

(** "Handle emphasis for important terms" *)
Definition format_emphasis (content : str) : str :=
  let content := re_sub mandatory_re bold content in
  re_sub permissive_re italic content.

Definition format_content (content : str) : str :=
  format_emphasis (format_references (format_lists content)).

Definition heading_of (s : Section) : str :=
  let section_type := type s in
  if str_eqb section_type (T"chapter") then
    T"# Chapter " ++ number s ++ T": " ++ title s
  else if str_eqb section_type (T"section") then
    T"## Section " ++ number s ++ T": " ++ title s
  else if str_eqb section_type (T"main_section") then
    T"### " ++ number s ++ T" " ++ title s
  else if str_eqb section_type (T"subsection") then
    T"#### " ++ number s ++ T" " ++ title s
  else if str_eqb section_type (T"subsubsection") then
    T"##### " ++ number s ++ T" " ++ title s
  else if str_eqb section_type (T"table") then
    T"### Table " ++ number s ++ T" - " ++ title s
  else if str_eqb section_type (T"figure") then
    T"### Figure " ++ number s ++ T" - " ++ title s
  else if str_eqb section_type (T"item") then
    T"**" ++ number s ++ T".** " ++ title s
  else
    T"### " ++ full_header s.

(** What one section adds to [markdown_content]. *)
Definition section_blocks (s : Section) : list str :=
  ([nl] ++ heading_of s ++ [nl]) ::
  (if is_empty (content s) then []
   else [format_content (content s) ++ [nl]]).

Definition format_for_vector_storage (sections : list Section) : str :=
  let markdown_content :=
    fold_left (fun acc s => acc ++ section_blocks s) sections
      [ T"# ABS Rules for Survey After Construction - Part 7" ++ [nl];
        T"*American Bureau of Shipping Classification Rules*" ++ [nl] ] in
  join [nl] markdown_content.

(** An integer in an f-string. *)
Definition decimal (z : Z) : str :=
  of_string (NilEmpty.string_of_int (Z.to_int z)).

Definition toc_entry (b : Z * str * Z) : str :=
  let '(level, title, page) := b in
  concat (repeat (T"  ") (Z.to_nat (level - 1)))
  ++ T"- " ++ title ++ T" (Page " ++ decimal page ++ T")".

(** [extract_table_of_contents]: an exception of [get_toc()] is logged and
    nothing is written. *)
Definition extract_table_of_contents (doc : pdf) : str :=
  match bookmarks doc with
  | Some (b :: bs) =>
      join [nl] ([T"## Table of Contents" ++ [nl]]
                 ++ map toc_entry (b :: bs) ++ [[nl]])
  | Some [] => []
  | None => []
  end.

(** One round of the loop over the pages in [parse_full_document]. *)
Definition add_page (doc : pdf) (all_text : list str) (page_num : nat)
  : list str :=
  let page_text := extract_text_from_page doc page_num in
  if is_empty page_text then all_text
  else
    let cleaned_text := clean_text page_text in
    if is_empty cleaned_text then all_text
    else all_text ++ [cleaned_text].

(** The text handed to [identify_sections]. *)
Definition full_text (doc : pdf) : str :=
  join [nl; nl]
    (fold_left (add_page doc) (seq 0 (length (pages doc))) []).

(** [parse_full_document]; [None] is a document that [open_pdf] could not
    open. *)
Definition parse_full_document (doc : option pdf) : str :=
  match doc with
  | None => []
  | Some d =>
      let sections := identify_sections (full_text d) in
      let toc := extract_table_of_contents d in
      let formatted_content := format_for_vector_storage sections in
      toc ++ formatted_content
  end.

End ABSPart7Parser.

(** ** The XML converter: [ECFRToMarkdownConverter] *)

Module ECFRToMarkdownConverter.

(** An element of [xml.etree.ElementTree]: tag, attributes, the text before
    the first child, the children and the text after the closing tag. *)
Inductive Element : Type :=
  mkElement (tag : str) (attrib : list (str * str)) (text : option str)
            (children : list Element) (tail : option str).

Definition tag (e : Element) : str :=
  match e with mkElement t _ _ _ _ => t end.
Definition attrib (e : Element) : list (str * str) :=
  match e with mkElement _ a _ _ _ => a end.
Definition text (e : Element) : option str :=
  match e with mkElement _ _ t _ _ => t end.
Definition children (e : Element) : list Element :=
  match e with mkElement _ _ _ c _ => c end.
Definition tail (e : Element) : option str :=
  match e with mkElement _ _ _ _ t => t end.

(** [element.get(key, default)] *)
Fixpoint lookup (key : str) (a : list (str * str)) : option str :=
  match a with
  | [] => None
  | (k, v) :: a' => if str_eqb k key then Some v else lookup key a'
  end.

Definition get (e : Element) (key default : str) : str :=
  match lookup key (attrib e) with Some v => v | None => default end.

(** [element.findall(name)]: the direct children with that tag. *)
Definition findall (name : str) (e : Element) : list Element :=
  filter (fun c => str_eqb (tag c) name) (children e).

(** [element.find(name)]: the first of them. *)
Definition find (name : str) (e : Element) : option Element :=
  List.find (fun c => str_eqb (tag c) name) (children e).

(** A text that may be [None], where the source tests it with [if]. *)
Definition truthy (t : option str) : str :=
  match t with Some s => s | None => [] end.

(** The patterns of [clean_text]. *)
Definition spaces_re : regex := plus ws.                   (* \s+ *)
Definition punct : ascii -> bool := one_of ".,:;!?".
Definition space_punct_re : regex :=                       (* \s+([.,:;!?]) *)
  (plus ws ;; Group 1 (Chr punct))%re.
Definition stop : ascii -> bool := one_of ".!?".
Definition sentence_re : regex :=                          (* ([.!?])\s*([A-Z]) *)
  (Group 1 (Chr stop) ;; star ws ;; Group 2 (Chr is_upper_az))%re.

Definition collapse_spaces (t : str) : str :=
  re_sub spaces_re (fun _ => [space]) (strip t).
Definition close_punct (t : str) : str :=
  re_sub space_punct_re (fun c => grp 1 c) t.
Definition space_sentences (t : str) : str :=
  re_sub sentence_re (fun c => grp 1 c ++ [space] ++ grp 2 c) t.

Definition clean_text (t : str) : str :=
  if is_empty t then []
  else space_sentences (close_punct (collapse_spaces t)).

(** How an inline child is written, given its own extracted text. *)
Definition render_inline (child : Element) (text_content : str) : str :=
  if str_eqb (tag child) (T"E") then
    let emphasis_type := get child (T"T") (T"03") in
    if str_eqb emphasis_type (T"03") || str_eqb emphasis_type (T"04") then
      T"*" ++ text_content ++ T"*"
    else if str_eqb emphasis_type (T"01") || str_eqb emphasis_type (T"02") then
      T"**" ++ text_content ++ T"**"
    else text_content
  else if str_eqb (tag child) (T"I") then T"*" ++ text_content ++ T"*"
  else if str_eqb (tag child) (T"SU") then T"^" ++ text_content ++ T"^"
  else if str_eqb (tag child) (T"SB") then T"_" ++ text_content ++ T"_"
  else text_content.

Fixpoint extract_text_content (element : Element) : str :=
  match element with
  | mkElement _ _ text children _ =>
      let content :=
        (fix each (cs : list Element) : list str :=
           match cs with
           | [] => []
           | child :: cs' =>
               [render_inline child (extract_text_content child);
                truthy (tail child)] ++ each cs'
           end) children in
      clean_text (concat (truthy text :: content))
  end.

(** [heading_levels.get(div_type, 6)] *)
Definition get_heading_level (div_type : str) : nat :=
  if str_eqb div_type (T"TITLE") then 1
  else if str_eqb div_type (T"CHAPTER") then 2
  else if str_eqb div_type (T"SUBCHAP") then 3
  else if str_eqb div_type (T"PART") then 4
  else if str_eqb div_type (T"SUBPART") then 5
  else if str_eqb div_type (T"SECTION") then 6
  else 6.

(** The section sign, U+00A7. *)
Definition section_sign : ascii := "167"%char.

(** [s.replace(c, '')] for a character [c]. *)
Definition remove_char (c : ascii) (s : str) : str :=
  filter (fun a => negb (Ascii.eqb a c)) s.

(** [s.isdigit()]: not empty and digits only. *)
Definition isdigit (s : str) : bool :=
  negb (is_empty s) && forallb py_isdigit s.

Definition format_section_number (section_num : str) : str :=
  if starts_with [section_sign] section_num then section_num
  else if isdigit (remove_char "-" (remove_char "." section_num))
  then section_sign :: space :: section_num
  else section_num.

(** [str.upper()] on the range of this model; the capitals of U+00B5 and
    U+00FF lie outside it and the two are left as they are, which no
    comparison with an ASCII word notices. *)
Definition upper (s : str) : str :=
  flat_map (fun c =>
    if is_lower_az c || between 224 246 c || between 248 254 c
    then [ascii_of_N (code c - 32)]
    else if (code c =? 223)%N then T"SS"
    else [c]) s.

(** [current_context] *)
Record context : Type := mkcontext {
  ctx_title : str;
  ctx_chapter : str;
  ctx_part : str;
  ctx_subpart : str;
  ctx_section : str
}.

Definition empty_context : context := mkcontext [] [] [] [] [].

(** "Update context based on division type" *)
Definition update_context (ctx : context) (div_type heading_text : str)
  : context :=
  if str_eqb div_type (T"TITLE") then
    mkcontext heading_text (ctx_chapter ctx) (ctx_part ctx) (ctx_subpart ctx)
              (ctx_section ctx)
  else if str_eqb div_type (T"CHAPTER") then
    mkcontext (ctx_title ctx) heading_text (ctx_part ctx) (ctx_subpart ctx)
              (ctx_section ctx)
  else if str_eqb div_type (T"PART") then
    mkcontext (ctx_title ctx) (ctx_chapter ctx) heading_text (ctx_subpart ctx)
              (ctx_section ctx)
  else if str_eqb div_type (T"SUBPART") then
    mkcontext (ctx_title ctx) (ctx_chapter ctx) (ctx_part ctx) heading_text
              (ctx_section ctx)
  else if str_eqb div_type (T"SECTION") then
    mkcontext (ctx_title ctx) (ctx_chapter ctx) (ctx_part ctx)
              (ctx_subpart ctx) heading_text
  else ctx.

Definition process_paragraph (p_element : Element) : str :=
  let text := extract_text_content p_element in
  if is_empty text then [] else [nl] ++ text ++ [nl].

Definition process_citation (cita_element : Element) : str :=
  let text := extract_text_content cita_element in
  if is_empty text then [] else [nl] ++ T"*" ++ text ++ T"*" ++ [nl].

Definition optional {A : Type} (o : option Element) (f : Element -> A)
  : list A :=
  match o with Some e => [f e] | None => [] end.

(** [process_authority] and [process_source] have the same body. *)
Definition process_authority (auth_element : Element) : str :=
  join [nl]
    (optional (find (T"HED") auth_element)
       (fun hed => [nl] ++ T"**" ++ extract_text_content hed ++ T"**")
     ++ optional (find (T"PSPACE") auth_element)
       (fun pspace => extract_text_content pspace ++ [nl])).

Definition process_source (source_element : Element) : str :=
  join [nl]
    (optional (find (T"HED") source_element)
       (fun hed => [nl] ++ T"**" ++ extract_text_content hed ++ T"**")
     ++ optional (find (T"PSPACE") source_element)
       (fun pspace => extract_text_content pspace ++ [nl])).

Definition process_editorial_note (ednote_element : Element) : str :=
  let content :=
    optional (find (T"HED") ednote_element)
      (fun hed => [nl] ++ T"**" ++ extract_text_content hed ++ T"**")
    ++ map extract_text_content
         (filter (fun child => str_eqb (tag child) (T"PSPACE")
                               || str_eqb (tag child) (T"P"))
                 (children ednote_element)) in
  join [nl] (match content with [] => [] | _ :: _ => content ++ [[]] end).

(** The heading line of a division. *)
Definition heading_line (div_type heading_text : str) : str :=
  let heading_level := Nat.min (get_heading_level div_type) 6 in
  let heading_text :=
    if str_eqb div_type (T"SECTION") then format_section_number heading_text
    else heading_text in
  [nl] ++ repeat "#"%char heading_level ++ [space] ++ heading_text ++ [nl].

(** Is [child] a division to descend into from an element with tag
    [div_tag]?  Its tag starts with DIV and differs from [div_tag]. *)
Definition is_child_division (div_tag : str) (child : Element) : bool :=
  starts_with (T"DIV") (tag child) && negb (str_eqb (tag child) div_tag).

(** The loop over the children at the end of [process_division], with
    [process] for the recursive call. *)
Fixpoint each_child (process : context -> Element -> nat -> str * context)
    (div_tag : str) (level : nat) (cs : list Element) (content : list str)
    (ctx : context) : list str * context :=
  match cs with
  | [] => (content, ctx)
  | child_div :: cs' =>
      if is_child_division div_tag child_div then
        let '(block, ctx') := process ctx child_div (S level) in
        each_child process div_tag level cs' (content ++ [block]) ctx'
      else each_child process div_tag level cs' content ctx
  end.

(** [process_division]: the context is threaded through the walk; the blocks
    are appended to [content] in the order of the source. *)
Fixpoint process_division (ctx : context) (div_element : Element)
    (level : nat) {struct div_element} : str * context :=
  match div_element with
  | mkElement div_tag _ _ kids _ =>
      let div_type := upper (get div_element (T"TYPE") []) in
      let head_element := find (T"HEAD") div_element in
      let content :=
        optional head_element
          (fun head => heading_line div_type (extract_text_content head)) in
      let ctx :=
        match head_element with
        | Some head => update_context ctx div_type (extract_text_content head)
        | None => ctx
        end in
      let content :=
        content ++ optional (find (T"AUTH") div_element) process_authority in
      let content :=
        content ++ optional (find (T"SOURCE") div_element) process_source in
      let content :=
        content
        ++ optional (find (T"EDNOTE") div_element) process_editorial_note in
      let content :=
        content ++ map process_paragraph (findall (T"P") div_element) in
      let '(content, ctx) :=
        each_child (fun ctx child level => process_division ctx child level)
                   div_tag level kids content ctx in
      (join [nl] content, ctx)
  end.

Definition process_section (section_element : Element) : str :=
  join [nl]
    (optional (find (T"HEAD") section_element)
       (fun head =>
          [nl] ++ T"###### "
          ++ format_section_number (extract_text_content head) ++ [nl])
     ++ map process_paragraph (findall (T"P") section_element)
     ++ map process_citation (findall (T"CITA") section_element)).

End ECFRToMarkdownConverter.

(** ** Definitions used to state the properties *)

Module PDF := ABSPart7Parser.
Module XML := ECFRToMarkdownConverter.

(** What one page adds to the text of the document. *)
Definition page_contribution (p : PDF.page) : list str :=
  match p with
  | PDF.PageText t =>
      if is_empty t then []
      else if is_empty (PDF.clean_text t) then []
      else [PDF.clean_text t]
  | PDF.PageError _ => []
  end.

(** The text of a page that could be read. *)
Definition page_texts (ps : list PDF.page) : list str :=
  flat_map (fun p => match p with
                     | PDF.PageText t => [t]
                     | PDF.PageError _ => []
                     end) ps.

(** A section element whose only child is a heading with the given text. *)
Definition section_with_heading (div_type heading : str) : XML.Element :=
  XML.mkElement (T"DIV8") [(T"TYPE", div_type)] None
    [XML.mkElement (T"HEAD") [] (Some heading) [] None] None.

(** The blocks of a division, by kind. *)
Definition heading_block (e : XML.Element) : list str :=
  XML.optional (XML.find (T"HEAD") e)
    (fun head =>
       XML.heading_line (XML.upper (XML.get e (T"TYPE") []))
                        (XML.extract_text_content head)).

Definition auxiliary_blocks (e : XML.Element) : list str :=
  XML.optional (XML.find (T"AUTH") e) XML.process_authority
  ++ XML.optional (XML.find (T"SOURCE") e) XML.process_source
  ++ XML.optional (XML.find (T"EDNOTE") e) XML.process_editorial_note.

Definition paragraph_blocks (e : XML.Element) : list str :=
  map XML.process_paragraph (XML.findall (T"P") e).

(** The children that [process_division] descends into, in their order. *)
Definition child_divisions (e : XML.Element) : list XML.Element :=
  filter (XML.is_child_division (XML.tag e)) (XML.children e).

(** [block] is what [process_division] gives for [child], one level down. *)
Definition renders (level : nat) (child : XML.Element) (block : str) : Prop :=
  exists ctx, block = fst (XML.process_division ctx child (S level)).

(** An element that holds text only. *)
Definition text_element (tag text : str) : XML.Element :=
  XML.mkElement tag [] (Some text) [] None.

(** The position after the longest run of characters of the class [f]. *)
Fixpoint skip (f : ascii -> bool) (b : option ascii) (s : str) : pos :=
  match s with
  | a :: s' => if f a then skip f (Some a) s' else mkpos b s
  | [] => mkpos b []
  end.

(** The character before the position reached by reading [w]. *)
Definition after (b : option ascii) (w : str) : option ascii :=
  fold_left (fun _ a => Some a) w b.

(** The scan of [re.sub] as a relation between a position and what is
    written from there on. *)
Inductive Scan (r : regex) (repl : caps -> str) : pos -> str -> Prop :=
| Scan_end b :
    match_at r (mkpos b []) = None -> Scan r repl (mkpos b []) []
| Scan_copy b a s out :
    match_at r (mkpos b (a :: s)) = None ->
    Scan r repl (advance a s) out ->
    Scan r repl (mkpos b (a :: s)) (a :: out)
| Scan_hit p c p' out :
    match_at r p = Some (c, p') ->
    length (rest p') < length (rest p) ->
    Scan r repl p' out ->
    Scan r repl p (repl c ++ out)
| Scan_empty_end b c p' :
    match_at r (mkpos b []) = Some (c, p') -> Scan r repl (mkpos b []) (repl c)
| Scan_empty_copy b a s c p' out :
    match_at r (mkpos b (a :: s)) = Some (c, p') ->
    ~ length (rest p') < length (a :: s) ->
    Scan r repl (advance a s) out ->
    Scan r repl (mkpos b (a :: s)) (repl c ++ a :: out).

(** Does the text start with white space? *)
Definition hd_space (s : str) : bool :=
  match s with a :: _ => is_space a | [] => false end.

(** Does the text end with white space? *)
Fixpoint tl_space (s : str) : bool :=
  match s with
  | [] => false
  | a :: s' =>
      match s' with
      | [] => is_space a
      | _ :: _ => tl_space s'
      end
  end.

(** Every two neighbours of the text are related by [R]. *)
Fixpoint chain (R : ascii -> ascii -> bool) (s : str) : bool :=
  match s with
  | a :: s' =>
      match s' with
      | b :: _ => R a b && chain R s'
      | [] => true
      end
  | [] => true
  end.

(** No white space is followed by white space. *)
Definition single_spaced (a b : ascii) : bool :=
  negb (is_space a && is_space b).

(** No white space is followed by white space or by one of [. , : ; ! ?]. *)
Definition tight (a b : ascii) : bool :=
  negb (is_space a && (is_space b || XML.punct b)).

(** The only white space is the plain space. *)
Definition plain_space (a : ascii) : bool :=
  negb (is_space a) || Ascii.eqb a space.

(** Normalized white space: none at the start, none at the end, no two in a
    row, none before a punctuation mark, and no white space other than the
    plain space. *)
Definition normalized (s : str) : bool :=
  negb (hd_space s) && negb (tl_space s) && chain tight s
  && forallb plain_space s.

(** What follows the white space in [space_punct_re]. *)
Definition punct_next (q : pos) : result :=
  match rest q with
  | x :: s' => if XML.punct x then Some ([(1, [x])], advance x s') else None
  | [] => None
  end.

(** What follows the full stop in [sentence_re]. *)
Definition upper_next (a : ascii) (q : pos) : result :=
  match rest q with
  | x :: s' =>
      if is_upper_az x then Some ([(2, [x]); (1, [a])], advance x s')
      else None
  | [] => None
  end.

(** The pattern list in the order the specification states it: chapter,
    section, table and figure, then the numbers x.y.z, x.y and x, then the
    single letter. *)
Definition spec_patterns : list (regex * str) :=
  [ (PDF.chapter_re, T"chapter");
    (PDF.section_re, T"section");
    (PDF.table_re, T"table");
    (PDF.figure_re, T"figure");
    (PDF.subsubsection_re, T"subsubsection");
    (PDF.subsection_re, T"subsection");
    (PDF.main_section_re, T"main_section");
    (PDF.item_re, T"item") ].

(** What is left after the digits at the start of a text. *)
Definition drop_digits (s : str) : str := rest (skip is_digit None s).

(** The place in [PDF.patterns] of the only pattern that the start of a line
    leaves possible. *)
Definition kind (s : str) : option nat :=
  match s with
  | [] => None
  | a :: s1 =>
      if is_digit a then
        match drop_digits s1 with
        | [] => None
        | x :: s2 =>
            if is_space x then Some 2
            else if is_char "." x then
              match s2 with
              | [] => None
              | d :: s3 =>
                  if is_digit d then
                    match drop_digits s3 with
                    | [] => None
                    | y :: _ =>
                        if is_space y then Some 3
                        else if is_char "." y then Some 4
                        else None
                    end
                  else None
              end
            else None
        end
      else
        match s1 with
        | [] => None
        | b :: _ =>
            if is_char "." b then Some 5
            else if is_char_i "C" a then Some 0
            else if is_char_i "S" a then Some 1
            else if is_char_i "T" a then Some 6
            else if is_char_i "F" a then Some 7
            else None
        end
  end.

(** Is the line a heading, for the segmenter? *)
Definition is_heading (line : str) : bool :=
  match PDF.first_match PDF.patterns line with
  | Some _ => true
  | None => false
  end.

(** A section with some content. *)
Definition has_content (s : PDF.Section) : bool :=
  negb (is_empty (PDF.content s)).

(** A line of the buffer: stripped and not empty. *)
Definition buffered (l : str) : Prop := l <> [] /\ hd_space l = false.

(** What the loop of the segmenter keeps true: the buffer holds stripped
    lines that are not empty, and the sections saved so far have content. *)
Definition seg_inv (st : PDF.seg_state) : Prop :=
  Forall buffered (PDF.content_buffer st)
  /\ forallb has_content (PDF.sections st) = true.

(** Does [p] start [s], letter case apart? *)
Fixpoint starts_with_i (p s : str) : bool :=
  match p, s with
  | [], _ => true
  | a :: p', b :: s' => is_char_i a b && starts_with_i p' s'
  | _ :: _, [] => false
  end.

(** Does [p] occur in [s], letter case apart? *)
Fixpoint occurs_i (p s : str) : bool :=
  starts_with_i p s ||
  match s with
  | [] => false
  | _ :: s' => occurs_i p s'
  end.

(** The key words of [format_emphasis]. *)
Definition mandatory_words : list str :=
  [T"shall"; T"must"; T"required"; T"mandatory"].
Definition permissive_words : list str :=
  [T"may"; T"optional"; T"recommended"].

(** No key word occurs in the text, in any letter case. *)
Definition no_keyword (text : str) : bool :=
  forallb (fun kw => negb (occurs_i kw text))
          (mandatory_words ++ permissive_words).

(** ** Definitions used to state further properties *)

(** The text without its asterisks. *)
Definition without_stars (s : str) : str :=
  filter (fun a => negb (Ascii.eqb a "*")) s.

(** The text without its white space. *)
Definition nonspace (s : str) : str :=
  filter (fun a => negb (is_space a)) s.

(** No end of a sentence is followed at once by a capital letter. *)
Definition spaced_stop (a b : ascii) : bool :=
  negb (XML.stop a && is_upper_az b).

(** [l1] is [l2] with some elements left out. *)
Inductive subseq {A : Type} : list A -> list A -> Prop :=
| subseq_nil : subseq [] []
| subseq_skip x l1 l2 : subseq l1 l2 -> subseq l1 (x :: l2)
| subseq_keep x l1 l2 : subseq l1 l2 -> subseq (x :: l1) (x :: l2).

(** The section was opened by the heading line [full_header]: its type,
    number and title are what the patterns give for that line. *)
Definition from_heading (s : PDF.Section) : Prop :=
  exists title,
    PDF.first_match PDF.patterns (PDF.full_header s)
    = Some (PDF.type s, PDF.number s, title)
    /\ PDF.title s = strip title.

(** The eight section types of the pattern list. *)
Definition section_types : list str := map snd PDF.patterns.

(** The lines of a text, as the segmenter reads them. *)
Definition lines_of (text : str) : list str := map strip (split_on nl text).

(** No line of the text is a heading. *)
Definition no_heading (text : str) : Prop :=
  Forall (fun l => is_heading l = false) (lines_of text).

(** The sections saved and the open one, in their order. *)
Definition opened (st : PDF.seg_state) : list PDF.Section :=
  PDF.sections st
  ++ match PDF.current_section st with Some cur => [cur] | None => [] end.

(** What the loop of the segmenter keeps true of the lines read so far: the
    sections saved and the open one were opened by lines read, in their
    order. *)
Definition provenance (done : list str) (st : PDF.seg_state) : Prop :=
  subseq (map PDF.full_header (opened st)) (map strip done)
  /\ Forall from_heading (opened st).

(** A pattern that reads at least one character whenever it matches. *)
Fixpoint nonnull (r : regex) : bool :=
  match r with
  | Chr _ => true
  | Seq r1 r2 => nonnull r1 || nonnull r2
  | Alt r1 r2 => nonnull r1 && nonnull r2
  | Group _ r1 => nonnull r1
  | _ => false
  end.

(** The position [p'] lies further on in the subject of [p]. *)
Definition reach (p p' : pos) : Prop := exists w, rest p = w ++ rest p'.

(** What a heading pattern gives: a number and a title that are not empty; the
    title is the end of the line. *)
Definition heading_groups (r : regex) : Prop :=
  forall line c,
    re_match r line = Some c -> ~ In nl line ->
    grp 1 c <> [] /\ grp 2 c <> [] /\ exists w, line = w ++ grp 2 c.

(** A character that the list and reference rules of [format_content] need to
    match: a digit, a bullet or an opening parenthesis.  The bullets are those
    of the range of the model, '-', U+00C4 and U+00A2. *)
Definition list_mark (a : ascii) : bool :=
  is_digit a || PDF.bullet a || is_char "(" a.

(** The two lines that open every formatted document. *)
Definition document_head : str :=
  T"# ABS Rules for Survey After Construction - Part 7" ++ [nl; nl]
  ++ T"*American Bureau of Shipping Classification Rules*" ++ [nl].

(** ** Definitions used to state the corrected properties *)

(** A heading made only of digits, dots and dashes, with one digit at least;
    a digit is what [str.isdigit] accepts. *)
Definition numeric_heading (h : str) : bool :=
  forallb (fun c => py_isdigit c || is_char "." c || is_char "-" c) h
  && existsb py_isdigit h.





(** The text does not end with a word character. *)
Definition ends_off_word (s : str) : bool :=
  negb (word_before (mkpos (after None s) [])).

(** The text does not start with a word character. *)
Definition starts_off_word (s : str) : bool :=
  negb (word_after (mkpos None s)).

(** A run of word characters, one at least. *)
Definition is_a_word (w : str) : bool :=
  negb (is_empty w) && forallb is_word w.

(** Every run of characters of the class [f] replaced by [r]; [inrun] tells
    that the character before was of the class. *)
Fixpoint squeeze (f : ascii -> bool) (r : str) (inrun : bool) (s : str)
  : str :=
  match s with
  | [] => []
  | a :: s' =>
      if f a then
        if inrun then squeeze f r true s' else r ++ squeeze f r true s'
      else a :: squeeze f r false s'
  end.

(** The white space at the start of the text holds a newline. *)
Fixpoint breaks_line (t : str) : bool :=
  match t with
  | a :: t' => is_space a && (Ascii.eqb a nl || breaks_line t')
  | [] => false
  end.

(** The blank of [collapse_blanks]: a space or a tab. *)
Definition blank (c : ascii) : bool := is_char space c || is_char tab c.








(** * Properties *)

(** ** The worked example of the segmenter *)

(** C2: on the four lines "1 Scope", "This part applies to all vessels.",
    "1.1 General", "See 2.3.4 for details." the segmenter gives two sections,
    a main_section 1 "Scope" and a subsection 1.1 "General"; rendering the
    contents leaves the first as it is and makes the reference of the second
    bold. *)
Theorem C2_four_line_example :
  map (fun s => (PDF.type s, PDF.number s, PDF.title s,
                 PDF.format_content (PDF.content s)))
      (PDF.identify_sections
         (join [nl] [T"1 Scope"; T"This part applies to all vessels.";
                     T"1.1 General"; T"See 2.3.4 for details."]))
  = [ (T"main_section", T"1", T"Scope",
       T"This part applies to all vessels.");
      (T"subsection", T"1.1", T"General", T"See **2.3.4** for details.") ].
Proof. vm_compute. reflexivity. Qed.

(** ** Pages *)

Lemma add_page_contribution doc acc n p :
  nth_error (PDF.pages doc) n = Some p ->
  PDF.add_page doc acc n = acc ++ page_contribution p.
Proof.
  intros H. unfold PDF.add_page, PDF.extract_text_from_page. rewrite H.
  destruct p as [t|m]; simpl.
  - destruct (is_empty t); [now rewrite app_nil_r|].
    destruct (is_empty (PDF.clean_text t)); [now rewrite app_nil_r|reflexivity].
  - now rewrite app_nil_r.
Qed.

Lemma fold_pages doc : forall todo done acc,
  PDF.pages doc = done ++ todo ->
  fold_left (PDF.add_page doc) (seq (length done) (length todo)) acc
  = acc ++ flat_map page_contribution todo.
Proof.
  induction todo as [|p todo IH]; intros done acc H; simpl.
  - now rewrite app_nil_r.
  - rewrite (@add_page_contribution doc acc (length done) p).
    + replace (S (length done)) with (length (done ++ [p]))
        by (rewrite length_app; simpl; lia).
      rewrite IH by (rewrite <- app_assoc; exact H).
      now rewrite app_assoc.
    + rewrite H, nth_error_app2 by lia. now rewrite Nat.sub_diag.
Qed.

(** The loop over the page numbers gathers the contributions of the pages in
    their order. *)
Lemma full_text_pages doc :
  PDF.full_text doc
  = join [nl; nl] (flat_map page_contribution (PDF.pages doc)).
Proof.
  unfold PDF.full_text. f_equal.
  exact (@fold_pages doc (PDF.pages doc) [] [] eq_refl).
Qed.



(** C4 fails as stated: a word broken by a hyphen at the end of one page and
    continued on the next is not joined, although the rules applied to the
    two texts put together would join it. *)
Lemma C4_page_boundary_counterexample :
  let ps := [PDF.PageText (T"exam-" ++ [nl]);
             PDF.PageText (T"ple text" ++ [nl])] in
  PDF.full_text (PDF.mkpdf ps None) = T"exam-" ++ [nl; nl] ++ T"ple text"
  /\ occurs (T"example") (PDF.full_text (PDF.mkpdf ps None)) = false
  /\ PDF.clean_text (concat (page_texts ps)) = T"example text"
  /\ PDF.full_text (PDF.mkpdf ps None)
     <> PDF.clean_text (concat (page_texts ps)).
Proof.
  cbv zeta. repeat split; try (vm_compute; reflexivity).
  vm_compute. discriminate.
Qed.

(** ** Section numbers *)

Lemma digits_without_sign : forall h,
  forallb py_isdigit (XML.remove_char "-" (XML.remove_char "." h)) = true ->
  count_char XML.section_sign h = 0.
Proof.
  unfold count_char, XML.remove_char.
  induction h as [|c h IH]; intros H; [reflexivity|].
  cbn [filter] in *.
  destruct (Ascii.eqb XML.section_sign c) eqn:E.
  - apply Ascii.eqb_eq in E. subst c. vm_compute in H. discriminate.
  - destruct (negb (Ascii.eqb c ".")) eqn:E1; cbn [filter] in H.
    + destruct (negb (Ascii.eqb c "-")) eqn:E2; cbn [forallb] in H.
      * apply andb_prop in H. now apply IH.
      * now apply IH.
    + now apply IH.
Qed.

(** The heading of a section element that has nothing but a heading. *)
Lemma section_heading_rendered ctx level heading :
  fst (XML.process_division ctx
         (section_with_heading (T"Section") heading) level)
  = [nl] ++ T"###### " ++ XML.format_section_number (XML.clean_text heading)
    ++ [nl].
Proof.
  unfold section_with_heading. cbn [XML.process_division].
  set (h := XML.mkElement (T"HEAD") [] (Some heading) [] None).
  set (e := XML.mkElement (T"DIV8") [(T"TYPE", T"Section")] None [h] None).
  replace (XML.find (T"HEAD") e) with (Some h) by reflexivity.
  replace (XML.find (T"AUTH") e) with (@None XML.Element) by reflexivity.
  replace (XML.find (T"SOURCE") e) with (@None XML.Element) by reflexivity.
  replace (XML.find (T"EDNOTE") e) with (@None XML.Element) by reflexivity.
  replace (XML.findall (T"P") e) with (@nil XML.Element) by reflexivity.
  replace (XML.upper (XML.get e (T"TYPE") [])) with (T"SECTION")
    by reflexivity.
  cbn [XML.optional app map XML.each_child].
  replace (XML.is_child_division (T"DIV8") h) with false by reflexivity.
  replace (XML.extract_text_content h) with (XML.clean_text heading)
    by (cbn [XML.extract_text_content h XML.truthy concat];
        now rewrite app_nil_r).
  reflexivity.
Qed.


(** C6 fails as stated: a heading that is not a number passes through the
    formatter unchanged, and no sign is added. *)
Lemma C6_heading_without_sign_counterexample :
  XML.format_section_number (T"Definitions") = T"Definitions"
  /\ count_char XML.section_sign (XML.format_section_number (T"Definitions"))
     = 0
  /\ fst (XML.process_division XML.empty_context
            (section_with_heading (T"SECTION") (T"Definitions")) 1)
     = [nl] ++ T"###### Definitions" ++ [nl].
Proof. repeat split; vm_compute; reflexivity. Qed.

(** ** Emphasis of key words *)

(** C7 fails as stated: the pass is not idempotent.  Its output on "shall" is
    "**shall**"; run on that, it wraps the key word again. *)
Lemma C7_not_idempotent_counterexample :
  PDF.format_emphasis (T"shall") = T"**shall**"
  /\ PDF.format_emphasis (T"**shall**") = T"****shall****"
  /\ PDF.format_emphasis (PDF.format_emphasis (T"shall"))
     <> PDF.format_emphasis (T"shall").
Proof.
  repeat split; try (vm_compute; reflexivity). vm_compute. discriminate.
Qed.


(** ** The matcher *)

Lemma orelse_none_r (x : result) : orelse x None = x.
Proof. now destruct x. Qed.

Lemma orelse_some (a b : result) x :
  orelse a b = Some x -> a = Some x \/ b = Some x.
Proof. destruct a; simpl; auto. Qed.

Lemma after_cons b a w : after b (a :: w) = after (Some a) w.
Proof. reflexivity. Qed.

Lemma pos_eta p : p = mkpos (before p) (rest p).
Proof. now destruct p. Qed.

Lemma run_seq r1 r2 p c k :
  run (Seq r1 r2) p c k = run r1 p c (fun p' c' => run r2 p' c' k).
Proof. reflexivity. Qed.

Lemma run_alt r1 r2 p c k :
  run (Alt r1 r2) p c k = orelse (run r1 p c k) (run r2 p c k).
Proof. reflexivity. Qed.

Lemma run_chr_cons f b a s c k :
  run (Chr f) (mkpos b (a :: s)) c k
  = if f a then k (advance a s) c else None.
Proof. reflexivity. Qed.

Lemma run_chr_nil f b c k : run (Chr f) (mkpos b []) c k = None.
Proof. reflexivity. Qed.

Lemma run_star g r p c k :
  run (Star g r) p c k = star_loop (run r) g k (S (length (rest p))) p c.
Proof. reflexivity. Qed.

Lemma run_group n r p c k :
  run (Group n r) p c k
  = run r p c (fun p' c' => k p' ((n, consumed p p') :: c')).
Proof. reflexivity. Qed.

Lemma run_bol ml p c k :
  run (Bol ml) p c k = if at_bol ml p then k p c else None.
Proof. reflexivity. Qed.

Lemma run_wordb p c k :
  run WordB p c k = if at_wordb p then k p c else None.
Proof. reflexivity. Qed.

Ltac run_step :=
  repeat (first [ rewrite run_seq | rewrite run_group | rewrite run_chr_cons
                | rewrite run_chr_nil | rewrite run_star | rewrite run_bol
                | rewrite run_wordb | rewrite run_alt ];
          cbv beta).

(** A repetition of a class reads a run of characters of the class and hands
    over to what follows. *)
Lemma star_class_inv f g k x : forall n p c,
  star_loop (run (Chr f)) g k n p c = Some x ->
  exists w s', rest p = w ++ s' /\ forallb f w = true
               /\ k (mkpos (after (before p) w) s') c = Some x.
Proof.
  induction n as [|n IH]; intros [b s] c H; simpl in H.
  - exists [], s. now repeat split.
  - assert (Hk : k (mkpos b s) c = Some x ->
                 exists w s', s = w ++ s' /\ forallb f w = true
                   /\ k (mkpos (after b w) s') c = Some x)
      by (intros Hk; exists [], s; now repeat split).
    destruct s as [|a s]; simpl in *.
    + destruct g; simpl in H; [apply Hk; exact H|].
      rewrite orelse_none_r in H. now apply Hk.
    + destruct (f a) eqn:Fa.
      * assert (Hlt : (length s <? S (length s)) = true)
          by (apply Nat.ltb_lt; lia).
        rewrite Hlt in H.
        assert (Hagain :
          star_loop (run (Chr f)) g k n (advance a s) c = Some x ->
          exists w s', a :: s = w ++ s' /\ forallb f w = true
                       /\ k (mkpos (after b w) s') c = Some x).
        { intros H1. apply IH in H1. destruct H1 as (w & s' & E & Fw & K).
          simpl in E, K. exists (a :: w), s'. subst s. simpl.
          rewrite Fa. now repeat split. }
        destruct g; apply orelse_some in H; destruct H; auto.
      * destruct g; simpl in H; [now apply Hk|].
        rewrite orelse_none_r in H. now apply Hk.
Qed.

(** A greedy repetition of a class, followed by something that cannot start
    with a character of the class, reads the whole run. *)
Lemma star_class_greedy f k :
  (forall b a s c, f a = true -> k (mkpos b (a :: s)) c = None) ->
  forall n p c, length (rest p) < n ->
    star_loop (run (Chr f)) true k n p c
    = k (skip f (before p) (rest p)) c.
Proof.
  intros Hk. induction n as [|n IH]; intros [b s] c Hn; [simpl in Hn; lia|].
  simpl in *. destruct s as [|a s]; simpl; [reflexivity|].
  destruct (f a) eqn:Fa; [|reflexivity].
  assert (Hlt : (length s <? S (length s)) = true) by (apply Nat.ltb_lt; lia).
  rewrite Hlt, IH by (simpl in *; lia). simpl.
  rewrite (Hk b a s c Fa). apply orelse_none_r.
Qed.

(** A greedy repetition of a class at the end of a pattern reads the whole
    run. *)
Lemma star_class_accept f :
  forall n p c, length (rest p) < n ->
    star_loop (run (Chr f)) true accept n p c
    = Some (c, skip f (before p) (rest p)).
Proof.
  induction n as [|n IH]; intros [b s] c Hn; [simpl in Hn; lia|].
  simpl in *. destruct s as [|a s]; simpl; [reflexivity|].
  destruct (f a) eqn:Fa; [|reflexivity].
  assert (Hlt : (length s <? S (length s)) = true) by (apply Nat.ltb_lt; lia).
  now rewrite Hlt, IH by (simpl in *; lia).
Qed.

(** What [skip] leaves is the end of what it was given. *)
Lemma skip_suffix f : forall s b,
  exists w, s = w ++ rest (skip f b s) /\ forallb f w = true.
Proof.
  induction s as [|a s IH]; intros b; simpl.
  - now exists [].
  - destruct (f a) eqn:Fa.
    + destruct (IH (Some a)) as (w & E & Fw). exists (a :: w). simpl.
      rewrite Fa. split; [now f_equal|assumption].
    + now exists [].
Qed.

Lemma skip_head f : forall s b a s',
  rest (skip f b s) = a :: s' -> f a = false.
Proof.
  induction s as [|x s IH]; intros b a s'; simpl; [discriminate|].
  destruct (f x) eqn:Fx; [apply IH|].
  simpl. intros E. now inversion E; subst.
Qed.

Lemma skip_length f s b : length (rest (skip f b s)) <= length s.
Proof.
  destruct (skip_suffix f s b) as (w & E & _).
  rewrite E at 2. rewrite length_app. lia.
Qed.

Lemma skip_stay f b a s : f a = false -> skip f b (a :: s) = mkpos b (a :: s).
Proof. intros H. simpl. now rewrite H. Qed.

(** ** The scan of [re_sub] *)

Lemma sub_from_scan r repl : forall n p,
  length (rest p) < n -> Scan r repl p (sub_from n r repl p).
Proof.
  induction n as [|n IH]; intros [b s] Hn; [simpl in Hn; lia|].
  simpl in *. destruct (match_at r (mkpos b s)) as [[c p']|] eqn:M.
  - simpl. destruct (length (rest p') <? length s) eqn:L.
    + apply Nat.ltb_lt in L.
      eapply Scan_hit; [exact M|exact L|]. apply IH. lia.
    + apply Nat.ltb_ge in L. destruct s as [|a s].
      * rewrite app_nil_r. eapply Scan_empty_end; exact M.
      * eapply Scan_empty_copy; [exact M|simpl in *; lia|].
        apply IH. simpl in *. lia.
  - destruct s as [|a s].
    + now apply Scan_end.
    + apply Scan_copy; [assumption|]. apply IH. simpl in *. lia.
Qed.

Lemma re_sub_scan r repl s : Scan r repl (mkpos None s) (re_sub r repl s).
Proof. apply sub_from_scan. simpl. lia. Qed.

(** ** Character classes *)

Ltac one_of_cases H :=
  cbv [XML.punct XML.stop one_of of_string list_ascii_of_string existsb] in H;
  repeat (apply orb_prop in H; destruct H as [H|H]);
  try discriminate H; apply Ascii.eqb_eq in H; subst.

Lemma punct_not_space x : XML.punct x = true -> is_space x = false.
Proof. intros H. one_of_cases H; reflexivity. Qed.

Lemma stop_not_space x : XML.stop x = true -> is_space x = false.
Proof. intros H. one_of_cases H; reflexivity. Qed.

Lemma space_not_punct x : is_space x = true -> XML.punct x = false.
Proof.
  intros H. destruct (XML.punct x) eqn:E; [|reflexivity].
  apply punct_not_space in E. congruence.
Qed.

Lemma upper_not_punct x : is_upper_az x = true -> XML.punct x = false.
Proof.
  intros H. destruct (XML.punct x) eqn:E; [|reflexivity].
  one_of_cases E; discriminate H.
Qed.

Ltac class_lia :=
  unfold is_space, is_digit, is_upper_az, is_lower_az, between in *;
  repeat match goal with
         | H : _ && _ = true |- _ => apply andb_prop in H; destruct H
         | H : (_ <=? _)%N = true |- _ => apply N.leb_le in H
         end;
  repeat (rewrite ?orb_false_iff, ?andb_false_iff, ?N.leb_gt, ?N.eqb_neq);
  lia.

Lemma upper_not_space x : is_upper_az x = true -> is_space x = false.
Proof. intros H. class_lia. Qed.

Lemma digit_not_space x : is_digit x = true -> is_space x = false.
Proof. intros H. class_lia. Qed.

Lemma space_is_space : is_space space = true.
Proof. reflexivity. Qed.

(** ** White space at the ends of a text *)

Lemma tl_space_cons a s :
  tl_space (a :: s) = if is_empty s then is_space a else tl_space s.
Proof. now destruct s. Qed.

Lemma tl_space_app : forall w s, s <> [] -> tl_space (w ++ s) = tl_space s.
Proof.
  induction w as [|a w IH]; intros s Hs; [reflexivity|].
  simpl app. rewrite tl_space_cons, IH by assumption.
  destruct (w ++ s) eqn:E; [|reflexivity].
  apply app_eq_nil in E. now destruct E.
Qed.

Lemma tl_space_all : forall w,
  forallb is_space w = true -> w <> [] -> tl_space w = true.
Proof.
  induction w as [|a w IH]; intros H Hw; [congruence|].
  simpl in H. apply andb_prop in H. destruct H as [Ha Hw'].
  rewrite tl_space_cons. destruct w; [assumption|]. now apply IH.
Qed.

Lemma tl_space_tail a s : tl_space (a :: s) = false -> tl_space s = false.
Proof. rewrite tl_space_cons. now destruct s. Qed.

Lemma tl_space_rev : forall s, tl_space (rev s) = hd_space s.
Proof.
  destruct s as [|a s]; [reflexivity|]. simpl.
  rewrite tl_space_app by discriminate. reflexivity.
Qed.

Lemma hd_space_lstrip : forall s, hd_space (lstrip s) = false.
Proof.
  induction s as [|a s IH]; [reflexivity|]. simpl.
  destruct (is_space a) eqn:E; [assumption|]. simpl. exact E.
Qed.

Lemma lstrip_snoc a : forall x,
  is_space a = false -> lstrip (x ++ [a]) = lstrip x ++ [a].
Proof.
  intros x Ha. induction x as [|c x IH]; simpl.
  - now rewrite Ha.
  - destruct (is_space c); [assumption|reflexivity].
Qed.

Lemma rstrip_cons a s :
  is_space a = false -> rstrip (a :: s) = a :: rstrip s.
Proof.
  intros Ha. unfold rstrip. simpl.
  rewrite lstrip_snoc by assumption. now rewrite rev_app_distr.
Qed.

Lemma strip_ends s : hd_space (strip s) = false /\ tl_space (strip s) = false.
Proof.
  unfold strip. split.
  - pose proof (hd_space_lstrip s) as H.
    destruct (lstrip s) as [|a u]; [reflexivity|]. simpl in H.
    rewrite rstrip_cons by assumption. exact H.
  - unfold rstrip. rewrite tl_space_rev. apply hd_space_lstrip.
Qed.

Lemma chain_cons R a s :
  chain R (a :: s)
  = match s with b :: _ => R a b && chain R s | [] => true end.
Proof. reflexivity. Qed.

Lemma chain_tail R a s : chain R (a :: s) = true -> chain R s = true.
Proof.
  rewrite chain_cons. destruct s; [reflexivity|].
  intros H. now apply andb_prop in H.
Qed.

Lemma chain_suffix R : forall w s, chain R (w ++ s) = true -> chain R s = true.
Proof.
  induction w as [|a w IH]; intros s H; [assumption|].
  apply IH. now apply chain_tail with a.
Qed.

Lemma forallb_suffix (f : ascii -> bool) w s :
  forallb f (w ++ s) = true -> forallb f s = true.
Proof. rewrite forallb_app. intros H. now apply andb_prop in H. Qed.

(** ** The three patterns of the tree converter's [clean_text] *)

Lemma ltb_tail (s : str) : (length s <? S (length s)) = true.
Proof. apply Nat.ltb_lt. lia. Qed.

Lemma consumed_one b b' x s : consumed (mkpos b (x :: s)) (mkpos b' s) = [x].
Proof.
  unfold consumed. simpl rest. simpl length.
  replace (S (length s) - length s) with 1 by lia. reflexivity.
Qed.

Lemma spaces_match_nil b : match_at XML.spaces_re (mkpos b []) = None.
Proof. reflexivity. Qed.

Lemma spaces_match b a s :
  match_at XML.spaces_re (mkpos b (a :: s))
  = if is_space a then Some ([], skip is_space (Some a) s) else None.
Proof.
  unfold match_at, XML.spaces_re, plus, ws. run_step.
  destruct (is_space a); [|reflexivity]. run_step.
  now rewrite star_class_accept by (simpl; lia).
Qed.

Lemma space_punct_match_nil b :
  match_at XML.space_punct_re (mkpos b []) = None.
Proof. reflexivity. Qed.

Lemma space_punct_match b a s :
  match_at XML.space_punct_re (mkpos b (a :: s))
  = if is_space a then punct_next (skip is_space (Some a) s) else None.
Proof.
  unfold match_at, XML.space_punct_re, plus, ws. run_step.
  destruct (is_space a); [|reflexivity]. run_step.
  rewrite star_class_greedy.
  - unfold punct_next. cbn [before rest advance].
    destruct (skip is_space (Some a) s) as [b' [|x s']]; run_step;
      cbn [rest]; [reflexivity|].
    destruct (XML.punct x); [|reflexivity].
    unfold accept, advance. now rewrite consumed_one.
  - intros b0 a0 s0 c0 H. run_step. now rewrite (space_not_punct _ H).
  - simpl. lia.
Qed.

Lemma sentence_match_nil b : match_at XML.sentence_re (mkpos b []) = None.
Proof. reflexivity. Qed.

Lemma sentence_match b a s :
  match_at XML.sentence_re (mkpos b (a :: s))
  = if XML.stop a then upper_next a (skip is_space (Some a) s) else None.
Proof.
  unfold match_at, XML.sentence_re, star, ws. run_step.
  destruct (XML.stop a); [|reflexivity]. run_step.
  rewrite star_class_greedy.
  - unfold upper_next. cbn [before rest advance].
    destruct (skip is_space (Some a) s) as [b' [|x s']]; run_step;
      cbn [rest]; [reflexivity|].
    destruct (is_upper_az x); [|reflexivity].
    unfold accept, advance. now rewrite !consumed_one.
  - intros b0 a0 s0 c0 H. run_step.
    destruct (is_upper_az a0) eqn:U; [|reflexivity].
    apply upper_not_space in U. congruence.
  - simpl. lia.
Qed.

(** ** White space after each step of the tree converter's [clean_text] *)

Lemma skip_cases f b s :
  exists w, s = w ++ rest (skip f b s) /\ forallb f w = true
            /\ length (rest (skip f b s)) <= length s.
Proof.
  destruct (skip_suffix f s b) as (w & E & F). exists w.
  repeat split; try assumption. apply skip_length.
Qed.

(** Step one: runs of white space become one plain space. *)
Lemma scan_spaces p out :
  Scan XML.spaces_re (fun _ => [space]) p out ->
  tl_space (rest p) = false ->
  (rest p <> [] -> out <> [])
  /\ (hd_space (rest p) = false -> hd_space out = false)
  /\ chain single_spaced out = true
  /\ tl_space out = false
  /\ forallb plain_space out = true.
Proof.
  induction 1 as [b M | b a s out M Sc IH | p c p' out M L Sc IH
                 | b c p' M | b a s c p' out M L Sc IH]; intros Htl.
  - repeat split; auto.
  - rewrite spaces_match in M. destruct (is_space a) eqn:Ea; [discriminate|].
    cbn [rest advance] in *.
    destruct IH as (Hne & Hhd & Hch & Ht & Hall);
      [now apply tl_space_tail with a|].
    repeat split.
    + discriminate.
    + intros _. exact Ea.
    + rewrite chain_cons. destruct out; [reflexivity|].
      rewrite Hch. unfold single_spaced. now rewrite Ea.
    + rewrite tl_space_cons. destruct out; [exact Ea|exact Ht].
    + cbn [forallb]. rewrite Hall. unfold plain_space. now rewrite Ea.
  - destruct p as [b [|a s]]; [now rewrite spaces_match_nil in M|].
    rewrite spaces_match in M. destruct (is_space a) eqn:Ea; [|discriminate].
    inversion M; subst c p'; clear M. cbn [rest] in *.
    destruct (skip_suffix is_space s (Some a)) as (w & E & Fw).
    pose proof (skip_head is_space s (Some a)) as Hh.
    destruct (rest (skip is_space (Some a) s)) as [|x s'] eqn:R.
    + exfalso. rewrite app_nil_r in E. subst w.
      assert (tl_space (a :: s) = true)
        by (apply tl_space_all; [simpl; now rewrite Ea|discriminate]).
      congruence.
    + specialize (Hh x s' eq_refl).
      destruct IH as (Hne & Hhd & Hch & Ht & Hall).
      { rewrite E in Htl. change (a :: w ++ x :: s') with ((a :: w) ++ x :: s')
          in Htl. now rewrite tl_space_app in Htl by discriminate. }
      assert (Ho : out <> []) by (apply Hne; discriminate).
      assert (Hs : hd_space out = false) by (apply Hhd; exact Hh).
      repeat split.
      * discriminate.
      * simpl. congruence.
      * cbn [app]. rewrite chain_cons. destruct out as [|y out]; [congruence|].
        rewrite Hch. unfold single_spaced. simpl in Hs. now rewrite Hs, andb_false_r.
      * cbn [app]. rewrite tl_space_cons. destruct out; [congruence|exact Ht].
      * cbn [app forallb]. now rewrite Hall.
  - now rewrite spaces_match_nil in M.
  - exfalso. rewrite spaces_match in M. destruct (is_space a); [|discriminate].
    inversion M; subst. apply L. pose proof (skip_length is_space s (Some a)).
    simpl. lia.
Qed.

Lemma forallb_cons (f : ascii -> bool) a l :
  forallb f (a :: l) = f a && forallb f l.
Proof. reflexivity. Qed.

Lemma tight_after_word a b : is_space a = false -> tight a b = true.
Proof. intros H. unfold tight. now rewrite H. Qed.

Lemma plain_space_word a : is_space a = false -> plain_space a = true.
Proof. intros H. unfold plain_space. now rewrite H. Qed.

Lemma chain_tight_cons a out :
  is_space a = false -> chain tight out = true -> chain tight (a :: out) = true.
Proof.
  intros Ha H. rewrite chain_cons. destruct out; [reflexivity|].
  now rewrite H, tight_after_word.
Qed.

Lemma tl_space_word a out :
  is_space a = false -> tl_space out = false -> tl_space (a :: out) = false.
Proof. intros Ha H. rewrite tl_space_cons. now destruct out. Qed.

(** Step two: white space before a punctuation mark is dropped. *)
Lemma scan_space_punct p out :
  Scan XML.space_punct_re (fun c => grp 1 c) p out ->
  chain single_spaced (rest p) = true ->
  tl_space (rest p) = false ->
  forallb plain_space (rest p) = true ->
  (hd_space (rest p) = false -> hd_error out = hd_error (rest p))
  /\ chain tight out = true
  /\ tl_space out = false
  /\ forallb plain_space out = true.
Proof.
  induction 1 as [b M | b a s out M Sc IH | p c p' out M L Sc IH
                 | b c p' M | b a s c p' out M L Sc IH];
    intros Hch Htl Hall.
  - split; [|split; [|split]]; auto.
  - cbn [rest advance] in *.
    pose proof (chain_tail _ _ _ Hch) as Hch'.
    pose proof (tl_space_tail _ _ Htl) as Htl'.
    cbn [forallb] in Hall. apply andb_prop in Hall. destruct Hall as [Pa Hall].
    destruct (IH Hch' Htl' Hall) as (Hhd & Hc & Ht & Ha).
    rewrite space_punct_match in M.
    destruct (is_space a) eqn:Ea.
    + (* a white space that stays: a word character follows *)
      destruct s as [|x s']; [simpl in Htl; congruence|].
      rewrite chain_cons in Hch. apply andb_prop in Hch.
      destruct Hch as [Hax _]. unfold single_spaced in Hax.
      rewrite Ea in Hax. simpl in Hax. apply negb_true_iff in Hax.
      rewrite skip_stay in M by assumption. unfold punct_next in M.
      cbn [rest] in M. destruct (XML.punct x) eqn:Px; [discriminate|].
      specialize (Hhd Hax). simpl in Hhd.
      destruct out as [|y out]; [discriminate|]. inversion Hhd; subst y.
      split; [|split; [|split]].
      * intros H. simpl in H. congruence.
      * rewrite chain_cons, Hc. unfold tight. now rewrite Ea, Hax, Px.
      * exact Ht.
      * now rewrite forallb_cons, Pa, Ha.
    + split; [|split; [|split]].
      * reflexivity.
      * now apply chain_tight_cons.
      * now apply tl_space_word.
      * now rewrite forallb_cons, Pa, Ha.
  - destruct p as [b [|a s]]; [now rewrite space_punct_match_nil in M|].
    rewrite space_punct_match in M.
    destruct (is_space a) eqn:Ea; [|discriminate]. cbn [rest] in *.
    destruct s as [|x s']; [simpl in Htl; congruence|].
    pose proof Hch as Hch0.
    rewrite chain_cons in Hch. apply andb_prop in Hch.
    destruct Hch as [Hax _]. unfold single_spaced in Hax.
    rewrite Ea in Hax. simpl in Hax. apply negb_true_iff in Hax.
    rewrite skip_stay in M by assumption. unfold punct_next in M.
    cbn [rest] in M. destruct (XML.punct x) eqn:Px; [|discriminate].
    inversion M; subst c p'; clear M. cbn [rest advance] in *.
    cbn [forallb] in Hall. apply andb_prop in Hall. destruct Hall as [Pa Hall].
    apply andb_prop in Hall. destruct Hall as [Px' Hall].
    destruct IH as (Hhd & Hc & Ht & Ha); try assumption.
    { now apply chain_tail with x, chain_tail with a. }
    { now apply tl_space_tail with x, tl_space_tail with a. }
    change (grp 1 [(1, [x])] ++ out) with (x :: out).
    split; [|split; [|split]].
    + intros H. simpl in H. congruence.
    + now apply chain_tight_cons.
    + now apply tl_space_word.
    + now rewrite forallb_cons, Px', Ha.
  - now rewrite space_punct_match_nil in M.
  - exfalso. rewrite space_punct_match in M.
    destruct (is_space a); [|discriminate]. unfold punct_next in M.
    pose proof (skip_length is_space s (Some a)) as Hl.
    destruct (rest (skip is_space (Some a) s)) as [|x s'']; [discriminate|].
    destruct (XML.punct x); [|discriminate].
    inversion M; subst. apply L. simpl in *. lia.
Qed.

(** Step three: one plain space is put between the end of a sentence and the
    capital letter that follows. *)
Lemma scan_sentence p out :
  Scan XML.sentence_re (fun c => grp 1 c ++ [space] ++ grp 2 c) p out ->
  chain tight (rest p) = true ->
  tl_space (rest p) = false ->
  forallb plain_space (rest p) = true ->
  hd_error out = hd_error (rest p)
  /\ chain tight out = true
  /\ tl_space out = false
  /\ forallb plain_space out = true.
Proof.
  induction 1 as [b M | b a s out M Sc IH | p c p' out M L Sc IH
                 | b c p' M | b a s c p' out M L Sc IH];
    intros Hch Htl Hall.
  - split; [|split; [|split]]; auto.
  - cbn [rest advance] in *.
    pose proof (chain_tail _ _ _ Hch) as Hch'.
    pose proof (tl_space_tail _ _ Htl) as Htl'.
    cbn [forallb] in Hall. apply andb_prop in Hall. destruct Hall as [Pa Hall].
    destruct (IH Hch' Htl' Hall) as (Hhd & Hc & Ht & Ha).
    split; [reflexivity|split; [|split]].
    + rewrite chain_cons. destruct out as [|y out]; [reflexivity|].
      destruct s as [|x s']; [discriminate|]. inversion Hhd; subst y.
      rewrite chain_cons in Hch. apply andb_prop in Hch.
      destruct Hch as [Hax _]. now rewrite Hax, Hc.
    + rewrite tl_space_cons. destruct out as [|y out]; [|exact Ht].
      destruct s; [exact Htl|discriminate].
    + now rewrite forallb_cons, Pa, Ha.
  - destruct p as [b [|a s]]; [now rewrite sentence_match_nil in M|].
    rewrite sentence_match in M.
    destruct (XML.stop a) eqn:Sa; [|discriminate]. cbn [rest] in *.
    unfold upper_next in M.
    destruct (skip_suffix is_space s (Some a)) as (w & E & Fw).
    destruct (rest (skip is_space (Some a) s)) as [|x s''] eqn:R;
      [discriminate|].
    destruct (is_upper_az x) eqn:Ux; [|discriminate].
    inversion M; subst c p'; clear M. cbn [rest advance] in *.
    assert (Hx : is_space x = false) by now apply upper_not_space.
    assert (Hxs : chain tight (x :: s'') = true
                  /\ tl_space (x :: s'') = false
                  /\ forallb plain_space (x :: s'') = true).
    { rewrite E in *. repeat split.
      - change (a :: w ++ x :: s'') with ((a :: w) ++ x :: s'') in Hch.
        now apply chain_suffix in Hch.
      - change (a :: w ++ x :: s'') with ((a :: w) ++ x :: s'') in Htl.
        now rewrite tl_space_app in Htl by discriminate.
      - change (a :: w ++ x :: s'') with ((a :: w) ++ x :: s'') in Hall.
        now apply forallb_suffix in Hall. }
    destruct Hxs as (Hch' & Htl' & Hall').
    cbn [forallb] in Hall'. apply andb_prop in Hall'.
    destruct Hall' as [Px Hall'].
    destruct IH as (Hhd & Hc & Ht & Ha); try assumption.
    { now apply chain_tail with x. }
    { now apply tl_space_tail with x. }
    change (grp 1 [(2, [x]); (1, [a])] ++ [space]
            ++ grp 2 [(2, [x]); (1, [a])]) with [a; space; x].
    cbn [app].
    assert (Hc3 : chain tight (x :: out) = true)
      by now apply chain_tight_cons.
    split; [reflexivity|split; [|split]].
    + rewrite chain_cons, chain_cons, Hc3.
      rewrite tight_after_word by now apply stop_not_space.
      unfold tight. now rewrite Hx, upper_not_punct.
    + rewrite !tl_space_cons. cbn [is_empty].
      destruct out; [exact Hx|exact Ht].
    + cbn [forallb]. cbn [forallb] in Hall. apply andb_prop in Hall.
      destruct Hall as [Pa _]. now rewrite Pa, Px, Ha.
  - now rewrite sentence_match_nil in M.
  - exfalso. rewrite sentence_match in M.
    destruct (XML.stop a); [|discriminate]. unfold upper_next in M.
    pose proof (skip_length is_space s (Some a)) as Hl.
    destruct (rest (skip is_space (Some a) s)) as [|x s'']; [discriminate|].
    destruct (is_upper_az x); [|discriminate].
    inversion M; subst. apply L. simpl in *. lia.
Qed.

(** What [normalized] says, spelled out. *)
Lemma normalized_spec s :
  normalized s = true ->
  (forall a s', s = a :: s' -> is_space a = false)
  /\ (forall s' a, s = s' ++ [a] -> is_space a = false)
  /\ (forall l1 a b l2, s = l1 ++ a :: b :: l2 -> is_space a = true ->
        is_space b = false /\ XML.punct b = false)
  /\ (forall a, In a s -> is_space a = true -> a = space).
Proof.
  unfold normalized. intros H.
  apply andb_prop in H. destruct H as [H Hall].
  apply andb_prop in H. destruct H as [H Hch].
  apply andb_prop in H. destruct H as [Hhd Htl].
  apply negb_true_iff in Hhd. apply negb_true_iff in Htl.
  split; [|split; [|split]].
  - intros a s' ->. exact Hhd.
  - intros s' a ->. now rewrite tl_space_app in Htl by discriminate.
  - intros l1 a b l2 -> Ha. apply chain_suffix in Hch.
    rewrite chain_cons in Hch. apply andb_prop in Hch.
    destruct Hch as [Hab _]. unfold tight in Hab. rewrite Ha in Hab.
    simpl in Hab. apply negb_true_iff, orb_false_iff in Hab. exact Hab.
  - intros a Hin Ha. rewrite forallb_forall in Hall.
    specialize (Hall a Hin). unfold plain_space in Hall. rewrite Ha in Hall.
    simpl in Hall. now apply Ascii.eqb_eq in Hall.
Qed.

(** The tree converter's [clean_text] always gives a normalized text. *)
Lemma clean_text_normalized t : normalized (XML.clean_text t) = true.
Proof.
  unfold XML.clean_text. destruct (is_empty t); [reflexivity|].
  unfold XML.space_sentences, XML.close_punct, XML.collapse_spaces.
  destruct (strip_ends t) as [Hh Ht].
  pose proof (re_sub_scan XML.spaces_re (fun _ => [space]) (strip t)) as S1.
  apply scan_spaces in S1; [|exact Ht]. cbn [rest] in S1.
  destruct S1 as (_ & H1h & H1c & H1t & H1a). specialize (H1h Hh).
  set (t1 := re_sub XML.spaces_re (fun _ => [space]) (strip t)) in *.
  pose proof (re_sub_scan XML.space_punct_re (fun c => grp 1 c) t1) as S2.
  apply scan_space_punct in S2; try assumption. cbn [rest] in S2.
  destruct S2 as (H2h & H2c & H2t & H2a). specialize (H2h H1h).
  set (t2 := re_sub XML.space_punct_re (fun c => grp 1 c) t1) in *.
  pose proof (re_sub_scan XML.sentence_re
                (fun c => grp 1 c ++ [space] ++ grp 2 c) t2) as S3.
  apply scan_sentence in S3; try assumption. cbn [rest] in S3.
  destruct S3 as (H3h & H3c & H3t & H3a).
  unfold normalized. rewrite H3c, H3t, H3a.
  assert (hd_space (re_sub XML.sentence_re
            (fun c => grp 1 c ++ [space] ++ grp 2 c) t2) = false) as ->.
  { unfold hd_space.
    destruct (re_sub XML.sentence_re _ t2) as [|y o]; [reflexivity|].
    destruct t2 as [|y2 o2]; [discriminate|]. inversion H3h; subst y2.
    destruct t1 as [|y1 o1]; [discriminate|]. inversion H2h; subst y1.
    exact H1h. }
  reflexivity.
Qed.

(** C10: every text given by the inline text extractor is normalized: it
    neither starts nor ends with white space, has no two white-space
    characters in a row and none right before one of [. , : ; ! ?]; its only
    white space is the plain space, so that the text is on one line. *)
Theorem C10_extracted_text_normalized :
  forall element : XML.Element,
    normalized (XML.extract_text_content element) = true.
Proof.
  intros [tag attrib text children tail]. cbn [XML.extract_text_content].
  apply clean_text_normalized.
Qed.

(** ** The heading patterns exclude one another *)

Lemma inv_chr f p c k x :
  run (Chr f) p c k = Some x ->
  exists a s, rest p = a :: s /\ f a = true /\ k (advance a s) c = Some x.
Proof.
  destruct p as [b [|a s]]; [discriminate|]. rewrite run_chr_cons.
  destruct (f a) eqn:Fa; [|discriminate]. intros H. now exists a, s.
Qed.

Lemma inv_plus f p c k x :
  run (plus (Chr f)) p c k = Some x ->
  exists a w s', rest p = a :: w ++ s' /\ f a = true /\ forallb f w = true
                 /\ k (mkpos (after (Some a) w) s') c = Some x.
Proof.
  unfold plus. rewrite run_seq. intros H.
  apply inv_chr in H. destruct H as (a & s & E & Fa & H).
  rewrite run_star in H. apply star_class_inv in H.
  destruct H as (w & s' & E' & Fw & H). cbn [rest advance before] in *.
  exists a, w, s'. subst s. now repeat split.
Qed.

Lemma skip_run f : forall w b y s,
  forallb f w = true -> f y = false -> rest (skip f b (w ++ y :: s)) = y :: s.
Proof.
  induction w as [|a w IH]; intros b y s Fw Fy; simpl.
  - now rewrite Fy.
  - simpl in Fw. apply andb_prop in Fw. destruct Fw as [Fa Fw].
    rewrite Fa. now apply IH.
Qed.

Ltac ascii_cases a := destruct a as [[|] [|] [|] [|] [|] [|] [|] [|]].

Lemma letter_C a :
  is_char_i "C" a = true -> is_digit a = false.
Proof. ascii_cases a; intros H; try discriminate H; reflexivity. Qed.

Lemma letter_S a :
  is_char_i "S" a = true -> is_digit a = false /\ is_char_i "C" a = false.
Proof. ascii_cases a; intros H; try discriminate H; split; reflexivity. Qed.

Lemma letter_T a :
  is_char_i "T" a = true ->
  is_digit a = false /\ is_char_i "C" a = false /\ is_char_i "S" a = false.
Proof.
  ascii_cases a; intros H; try discriminate H; repeat split; reflexivity.
Qed.

Lemma letter_F a :
  is_char_i "F" a = true ->
  is_digit a = false /\ is_char_i "C" a = false /\ is_char_i "S" a = false
  /\ is_char_i "T" a = false.
Proof.
  ascii_cases a; intros H; try discriminate H; repeat split; reflexivity.
Qed.

Lemma second_letter a :
  is_char_i "H" a = true \/ is_char_i "E" a = true
  \/ is_char_i "A" a = true \/ is_char_i "I" a = true ->
  is_char "." a = false.
Proof.
  ascii_cases a; intros [H|[H|[H|H]]]; try discriminate H; reflexivity.
Qed.

Lemma letter_item a : upper_az_i a = true -> is_digit a = false.
Proof. ascii_cases a; intros H; try discriminate H; reflexivity. Qed.

Lemma space_not_digit x : is_space x = true -> is_digit x = false.
Proof.
  intros H. destruct (is_digit x) eqn:E; [|reflexivity].
  apply digit_not_space in E. congruence.
Qed.

(** Read a successful run of a pattern backwards: what the subject must look
    like. *)
Ltac inv_run H :=
  repeat
    (cbv beta in H;
     lazymatch type of H with
     | run (Seq _ _) _ _ _ = _ => rewrite run_seq in H
     | run (Group _ _) _ _ _ = _ => rewrite run_group in H
     | run (Bol _) _ _ _ = _ =>
         rewrite run_bol in H; cbn [at_bol before] in H
     | run (plus (Chr _)) _ _ _ = _ =>
         let a := fresh "a" in let w := fresh "w" in let s := fresh "s" in
         let E := fresh "E" in let Fa := fresh "Fa" in
         let Fw := fresh "Fw" in
         apply inv_plus in H; destruct H as (a & w & s & E & Fa & Fw & H);
         cbn [rest advance] in E; subst
     | run (Chr _) _ _ _ = _ =>
         let a := fresh "a" in let s := fresh "s" in
         let E := fresh "E" in let Fa := fresh "Fa" in
         apply inv_chr in H; destruct H as (a & s & E & Fa & H);
         cbn [rest advance] in E; subst
     end).

Lemma re_match_some r s c :
  re_match r s = Some c -> exists p, run r (mkpos None s) [] accept = Some (c, p).
Proof.
  unfold re_match, match_at.
  destruct (run r (mkpos None s) [] accept) as [[c' p]|]; [|discriminate].
  intros H. inversion H; subst. now exists p.
Qed.

(** A pattern that starts with two letters: the first two characters of the
    subject. *)
Lemma two_letters x y r s c :
  re_match (Bol false ;; (Chr (is_char_i x) ;; Chr (is_char_i y) ;; r))%re s
  = Some c ->
  exists a b s', s = a :: b :: s' /\ is_char_i x a = true
                 /\ is_char_i y b = true.
Proof.
  intros H. apply re_match_some in H. destruct H as [p H].
  rewrite run_seq, run_bol in H. cbn [at_bol before] in H.
  rewrite run_seq in H. apply inv_chr in H.
  destruct H as (a & s1 & E & Fa & H). cbn [rest] in E. subst s.
  rewrite run_seq in H. apply inv_chr in H.
  destruct H as (b & s2 & E & Fb & _). cbn [rest advance] in E. subst s1.
  now exists a, b, s2.
Qed.

Lemma re_match_lit_i x y l r s c :
  re_match (Bol false ;; chars is_char_i (x :: y :: l) ;; r)%re s = Some c ->
  exists a b s', s = a :: b :: s' /\ is_char_i x a = true
                 /\ is_char_i y b = true.
Proof.
  intros H. apply re_match_some in H. destruct H as [p H].
  cbn [chars] in H.
  rewrite run_seq, run_bol in H. cbn [at_bol before] in H.
  rewrite !run_seq in H. apply inv_chr in H.
  destruct H as (a & s1 & E & Fa & H). cbn [rest] in E. subst s.
  apply inv_chr in H.
  destruct H as (b & s2 & E & Fb & _). cbn [rest advance] in E. subst s1.
  now exists a, b, s2.
Qed.

Lemma kind_chapter s c : re_match PDF.chapter_re s = Some c -> kind s = Some 0.
Proof.
  intros H. apply re_match_lit_i in H.
  destruct H as (a & b & s' & -> & Fa & Fb).
  cbn [kind]. rewrite (letter_C _ Fa), second_letter by auto.
  now rewrite Fa.
Qed.

Lemma kind_section s c : re_match PDF.section_re s = Some c -> kind s = Some 1.
Proof.
  intros H. apply re_match_lit_i in H.
  destruct H as (a & b & s' & -> & Fa & Fb).
  destruct (letter_S _ Fa) as (D & C1).
  cbn [kind]. rewrite D, second_letter by auto.
  now rewrite C1, Fa.
Qed.

Lemma kind_table s c : re_match PDF.table_re s = Some c -> kind s = Some 6.
Proof.
  intros H. apply re_match_lit_i in H.
  destruct H as (a & b & s' & -> & Fa & Fb).
  destruct (letter_T _ Fa) as (D & C1 & C2).
  cbn [kind]. rewrite D, second_letter by auto.
  now rewrite C1, C2, Fa.
Qed.

Lemma kind_figure s c : re_match PDF.figure_re s = Some c -> kind s = Some 7.
Proof.
  intros H. apply re_match_lit_i in H.
  destruct H as (a & b & s' & -> & Fa & Fb).
  destruct (letter_F _ Fa) as (D & C1 & C2 & C3).
  cbn [kind]. rewrite D, second_letter by auto.
  now rewrite C1, C2, C3, Fa.
Qed.

Lemma kind_item s c : re_match PDF.item_re s = Some c -> kind s = Some 5.
Proof.
  intros H. apply re_match_some in H. destruct H as [p H].
  unfold PDF.item_re, chr in H. inv_run H.
  apply Ascii.eqb_eq in Fa0. subst.
  cbn [kind]. now rewrite (letter_item _ Fa).
Qed.

Lemma heading_tail_space p c k x :
  run PDF.heading_tail p c k = Some x ->
  exists y s, rest p = y :: s /\ is_space y = true.
Proof.
  unfold PDF.heading_tail, ws. intros H. rewrite run_seq in H.
  apply inv_plus in H. destruct H as (a & w & s' & E & Fa & _).
  now exists a, (w ++ s').
Qed.

Lemma drop_digits_run w y s :
  forallb is_digit w = true -> is_digit y = false ->
  drop_digits (w ++ y :: s) = y :: s.
Proof. apply skip_run. Qed.

Lemma kind_main_section s c :
  re_match PDF.main_section_re s = Some c -> kind s = Some 2.
Proof.
  intros H. apply re_match_some in H. destruct H as [p H].
  unfold PDF.main_section_re, digit in H. inv_run H.
  apply heading_tail_space in H. destruct H as (y & s' & Ey & Sy).
  cbn [rest] in Ey. subst.
  cbn [kind]. rewrite Fa, drop_digits_run by auto using space_not_digit.
  now rewrite Sy.
Qed.

Lemma kind_subsection s c :
  re_match PDF.subsection_re s = Some c -> kind s = Some 3.
Proof.
  intros H. apply re_match_some in H. destruct H as [p H].
  unfold PDF.subsection_re, digit, chr in H. inv_run H.
  apply heading_tail_space in H. destruct H as (y & s' & Ey & Sy).
  cbn [rest] in Ey. subst.
  apply Ascii.eqb_eq in Fa0. subst.
  cbn [kind]. rewrite Fa, drop_digits_run by auto.
  replace (is_space ".") with false by reflexivity.
  replace (is_char "." ".") with true by reflexivity.
  rewrite Fa1, drop_digits_run by auto using space_not_digit.
  now rewrite Sy.
Qed.

Lemma kind_subsubsection s c :
  re_match PDF.subsubsection_re s = Some c -> kind s = Some 4.
Proof.
  intros H. apply re_match_some in H. destruct H as [p H].
  unfold PDF.subsubsection_re, digit, chr in H. inv_run H.
  apply Ascii.eqb_eq in Fa0. apply Ascii.eqb_eq in Fa2. subst.
  cbn [kind]. rewrite Fa, drop_digits_run by auto.
  replace (is_space ".") with false by reflexivity.
  replace (is_char "." ".") with true by reflexivity.
  rewrite Fa1, drop_digits_run by auto.
  reflexivity.
Qed.

Lemma other_kind r n line :
  (forall c, re_match r line = Some c -> kind line = Some n) ->
  kind line <> Some n -> re_match r line = None.
Proof.
  intros H N. destruct (re_match r line) as [c|] eqn:E; [|reflexivity].
  exfalso. apply N. now apply H with c.
Qed.

(** C5: the pattern list of the code and the list in the order of the
    specification classify every line alike: the same type, number and title,
    or no heading for both.  The eight patterns exclude one another, so the
    first match does not depend on the order. *)
Theorem C5_pattern_order_equivalent :
  forall line : str,
    PDF.first_match PDF.patterns line = PDF.first_match spec_patterns line.
Proof.
  intros line.
  pose proof (other_kind PDF.chapter_re (n:=0) line
                (fun c => @kind_chapter line c)) as H0.
  pose proof (other_kind PDF.section_re (n:=1) line
                (fun c => @kind_section line c)) as H1.
  pose proof (other_kind PDF.main_section_re (n:=2) line
                (fun c => @kind_main_section line c)) as H2.
  pose proof (other_kind PDF.subsection_re (n:=3) line
                (fun c => @kind_subsection line c)) as H3.
  pose proof (other_kind PDF.subsubsection_re (n:=4) line
                (fun c => @kind_subsubsection line c)) as H4.
  pose proof (other_kind PDF.item_re (n:=5) line
                (fun c => @kind_item line c)) as H5.
  pose proof (other_kind PDF.table_re (n:=6) line
                (fun c => @kind_table line c)) as H6.
  pose proof (other_kind PDF.figure_re (n:=7) line
                (fun c => @kind_figure line c)) as H7.
  unfold PDF.patterns, spec_patterns. cbn [PDF.first_match].
  destruct (kind line) as [[|[|[|[|[|[|[|[|k]]]]]]]]|];
    rewrite ?H0, ?H1, ?H2, ?H3, ?H4, ?H5, ?H6, ?H7 by discriminate;
    reflexivity.
Qed.

(** ** Sections without content *)

Lemma strip_buffered raw : is_empty (strip raw) = false -> buffered (strip raw).
Proof.
  intros H. split.
  - intros E. rewrite E in H. discriminate.
  - apply strip_ends.
Qed.

Lemma join_head sep l ls : exists x, join sep (l :: ls) = l ++ x.
Proof.
  destruct ls as [|l' ls]; simpl.
  - exists []. now rewrite app_nil_r.
  - now eexists.
Qed.

Lemma strip_buffer_not_empty l ls :
  buffered l -> is_empty (strip (join [nl] (l :: ls))) = false.
Proof.
  intros [Hne Hhd]. destruct (join_head [nl] l ls) as [x ->].
  destruct l as [|a l]; [congruence|]. simpl in Hhd.
  unfold strip. cbn [app lstrip]. rewrite Hhd.
  now rewrite rstrip_cons.
Qed.

Lemma save_section_has_content st :
  seg_inv st -> forallb has_content (PDF.save_section st) = true.
Proof.
  intros [Hb Hs]. unfold PDF.save_section.
  destruct (PDF.current_section st) as [cur|]; [|assumption].
  destruct (PDF.content_buffer st) as [|l ls]; [assumption|].
  rewrite forallb_app, Hs. cbn [forallb]. unfold has_content at 1.
  cbn [PDF.content PDF.with_content].
  inversion Hb; subst. now rewrite strip_buffer_not_empty.
Qed.

Lemma step_inv st raw : seg_inv st -> seg_inv (PDF.step st raw).
Proof.
  intros I. unfold PDF.step.
  destruct (is_empty (strip raw)) eqn:E; [assumption|].
  destruct (PDF.first_match PDF.patterns (strip raw)) as [[[ty num] ti]|].
  - split; [constructor|]. now apply save_section_has_content.
  - destruct I as [Hb Hs]. split; [|assumption]. cbn [PDF.content_buffer].
    apply Forall_app. split; [assumption|].
    constructor; [|constructor]. now apply strip_buffered.
Qed.

Lemma fold_step_inv : forall lines st,
  seg_inv st -> seg_inv (fold_left PDF.step lines st).
Proof.
  induction lines as [|l lines IH]; intros st I; [assumption|].
  simpl. apply IH. now apply step_inv.
Qed.

(** C1, as the code has it: a section is saved only when lines have been
    buffered since it was opened.  With an empty buffer no line makes the
    output grow: a heading that comes while a section is open drops that
    section and opens the next one, and at the end of the input an open
    section with an empty buffer is dropped too.  With a line in the buffer
    the open section is appended.  So every section of the output has
    content. *)
Theorem C1_empty_sections_dropped :
  (forall secs cur raw,
     PDF.sections (PDF.step (PDF.mkseg secs cur []) raw) = secs)
  /\ (forall secs cur, PDF.save_section (PDF.mkseg secs cur []) = secs)
  /\ (forall secs cur l buffer,
        PDF.save_section (PDF.mkseg secs (Some cur) (l :: buffer))
        = secs ++ [PDF.with_content cur (strip (join [nl] (l :: buffer)))])
  /\ (forall text,
        forallb has_content (PDF.identify_sections text) = true).
Proof.
  assert (Hsave : forall secs cur, PDF.save_section (PDF.mkseg secs cur []) = secs)
    by (intros secs [cur|]; reflexivity).
  split; [|split; [exact Hsave|split; [reflexivity|]]].
  - intros secs cur raw. unfold PDF.step.
    destruct (is_empty (strip raw)); [reflexivity|].
    destruct (PDF.first_match PDF.patterns (strip raw)) as [[[ty num] ti]|];
      [|reflexivity].
    cbn [PDF.sections]. apply Hsave.
  - intros text. unfold PDF.identify_sections.
    apply save_section_has_content, fold_step_inv.
    split; [constructor|reflexivity].
Qed.

(** C1 fails as stated: of the three headings "1 A", "2 B" and "3 C" only the
    second, the one followed by a line of content, gives a section. *)
Lemma C1_heading_without_body_counterexample :
  map is_heading [T"1 A"; T"2 B"; T"x"; T"3 C"] = [true; true; false; true]
  /\ map (fun s => (PDF.number s, PDF.title s, PDF.content s))
       (PDF.identify_sections (join [nl] [T"1 A"; T"2 B"; T"x"; T"3 C"]))
     = [(T"2", T"B", T"x")].
Proof. split; vm_compute; reflexivity. Qed.

(** ** Texts without key words *)

Lemma chars_i_inv : forall kw p c k x,
  run (chars is_char_i kw) p c k = Some x -> starts_with_i kw (rest p) = true.
Proof.
  induction kw as [|a kw IH]; intros p c k x H; [reflexivity|].
  cbn [chars] in H. rewrite run_seq in H. apply inv_chr in H.
  destruct H as (b & s & E & Fa & H). apply IH in H.
  rewrite E. cbn [starts_with_i]. cbn [rest advance] in H.
  now rewrite Fa, H.
Qed.

Lemma lit_i_inv w p c k x :
  run (lit_i w) p c k = Some x ->
  starts_with_i (of_string w) (rest p) = true.
Proof. apply chars_i_inv. Qed.

Lemma occurs_i_suffix kw : forall w s,
  occurs_i kw (w ++ s) = false -> starts_with_i kw s = false.
Proof.
  induction w as [|a w IH]; intros s H.
  - destruct s; simpl in H; apply orb_false_iff in H; now destruct H.
  - apply IH. simpl in H. apply orb_false_iff in H. now destruct H.
Qed.

Lemma mandatory_match p x :
  match_at PDF.mandatory_re p = Some x ->
  existsb (fun kw => starts_with_i kw (rest p)) mandatory_words = true.
Proof.
  unfold match_at, PDF.mandatory_re. rewrite run_seq, run_wordb.
  destruct (at_wordb p); [|discriminate].
  rewrite run_seq, run_group, !run_alt. intros H.
  cbn [existsb mandatory_words].
  repeat (apply orelse_some in H; destruct H as [H|H]);
    apply lit_i_inv in H; rewrite H; now rewrite ?orb_true_r.
Qed.

Lemma permissive_match p x :
  match_at PDF.permissive_re p = Some x ->
  existsb (fun kw => starts_with_i kw (rest p)) permissive_words = true.
Proof.
  unfold match_at, PDF.permissive_re. rewrite run_seq, run_wordb.
  destruct (at_wordb p); [|discriminate].
  rewrite run_seq, run_group, !run_alt. intros H.
  cbn [existsb permissive_words].
  repeat (apply orelse_some in H; destruct H as [H|H]);
    apply lit_i_inv in H; rewrite H; now rewrite ?orb_true_r.
Qed.

(** Where the pattern matches nowhere, [re.sub] copies the text. *)
Lemma scan_no_match r repl p out :
  Scan r repl p out ->
  (forall b w s', rest p = w ++ s' -> match_at r (mkpos b s') = None) ->
  out = rest p.
Proof.
  induction 1 as [b M | b a s out M Sc IH | p c p' out M L Sc IH
                 | b c p' M | b a s c p' out M L Sc IH]; intros N.
  - reflexivity.
  - cbn [rest advance] in *. f_equal. apply IH.
    intros b' w s' E. apply N with (a :: w). now rewrite E.
  - rewrite (pos_eta p), (N (before p) [] (rest p) eq_refl) in M.
    discriminate.
  - rewrite (N b [] [] eq_refl) in M. discriminate.
  - rewrite (N b [] (a :: s) eq_refl) in M. discriminate.
Qed.

Lemma re_sub_no_match r repl s :
  (forall b w s', s = w ++ s' -> match_at r (mkpos b s') = None) ->
  re_sub r repl s = s.
Proof.
  intros N. exact (scan_no_match (re_sub_scan r repl s) N).
Qed.

Lemma no_word_no_match (words : list str) text w s' :
  forallb (fun kw => negb (occurs_i kw text)) words = true ->
  text = w ++ s' ->
  existsb (fun kw => starts_with_i kw s') words = false.
Proof.
  intros H ->. induction words as [|kw words IH]; [reflexivity|].
  cbn [forallb existsb] in *. apply andb_prop in H. destruct H as [H1 H2].
  apply negb_true_iff in H1. apply occurs_i_suffix in H1.
  now rewrite H1, IH.
Qed.

(** C7, as the code has it: the pass leaves a text unchanged when none of the
    key words occurs in it in any letter case.  (A key word that is already
    emphasized counts: the pass wraps it again.) *)
Theorem C7_emphasis_without_keywords :
  forall text : str,
    no_keyword text = true -> PDF.format_emphasis text = text.
Proof.
  intros text H. unfold no_keyword in H. rewrite forallb_app in H.
  apply andb_prop in H. destruct H as [Hm Hp].
  unfold PDF.format_emphasis.
  assert (E : re_sub PDF.mandatory_re PDF.bold text = text).
  { apply re_sub_no_match. intros b w s' Es.
    destruct (match_at PDF.mandatory_re (mkpos b s')) as [x|] eqn:M;
      [|reflexivity].
    apply mandatory_match in M. cbn [rest] in M.
    now rewrite (@no_word_no_match _ text w s' Hm Es) in M. }
  rewrite E. apply re_sub_no_match. intros b w s' Es.
  destruct (match_at PDF.permissive_re (mkpos b s')) as [x|] eqn:M;
    [|reflexivity].
  apply permissive_match in M. cbn [rest] in M.
  now rewrite (@no_word_no_match _ text w s' Hp Es) in M.
Qed.

Lemma C7_emphasis_without_keywords_witness :
  no_keyword (T"The hull is inspected every year.") = true
  /\ PDF.format_emphasis (T"The hull is inspected every year.")
     = T"The hull is inspected every year.".
Proof.
  split; [reflexivity|].
  apply (C7_emphasis_without_keywords (T"The hull is inspected every year.")).
  reflexivity.
Defined.

(** ** The tree converter adds no emphasis of its own *)

Lemma count_char_app c a b :
  count_char c (a ++ b) = count_char c a + count_char c b.
Proof. unfold count_char. now rewrite filter_app, length_app. Qed.

Lemma count_char_cons c a s :
  count_char c (a :: s) = count_char c [a] + count_char c s.
Proof. exact (count_char_app c [a] s). Qed.




Lemma lstrip_split : forall s,
  exists w, s = w ++ lstrip s /\ forallb is_space w = true.
Proof.
  induction s as [|a s IH]; [now exists []|]. simpl.
  destruct (is_space a) eqn:Ea; [|now exists []].
  destruct IH as (w & E & Fw). exists (a :: w). simpl.
  rewrite Ea. split; [now f_equal|assumption].
Qed.









(** ** The order of the blocks of a division *)

Lemma each_child_blocks process div_tag level : forall cs content ctx,
  exists blocks,
    fst (XML.each_child process div_tag level cs content ctx)
    = content ++ blocks
    /\ Forall2 (fun child block =>
                  exists ctx', block = fst (process ctx' child (S level)))
               (filter (XML.is_child_division div_tag) cs) blocks.
Proof.
  induction cs as [|child cs IH]; intros content ctx; cbn [XML.each_child filter].
  - exists []. split; [now rewrite app_nil_r|constructor].
  - destruct (XML.is_child_division div_tag child).
    + destruct (process ctx child (S level)) as [block ctx'] eqn:P.
      destruct (IH (content ++ [block]) ctx') as (blocks & E & F).
      exists (block :: blocks). split.
      * rewrite E. now rewrite <- app_assoc.
      * constructor; [|assumption]. exists ctx. now rewrite P.
    + apply IH.
Qed.

(** C8: what [process_division] gives for an element is, joined by newlines:
    the heading line if there is a heading; then the authority, source and
    editorial-note blocks, in that order, each only if present; then the
    direct child paragraphs; then the child divisions, each rendered by
    [process_division] itself, in their order. *)
Theorem C8_block_order :
  forall ctx (e : XML.Element) level,
  exists child_blocks,
    fst (XML.process_division ctx e level)
    = join [nl] (heading_block e ++ auxiliary_blocks e
                 ++ paragraph_blocks e ++ child_blocks)
    /\ Forall2 (renders level) (child_divisions e) child_blocks.
Proof.
  intros ctx e level. destruct e as [div_tag attrs text kids tail].
  cbn [XML.process_division].
  match goal with
  | |- context [XML.each_child ?f ?t ?l ?cs ?content ?c] =>
      destruct (each_child_blocks f t l cs content c) as (blocks & E & F);
      destruct (XML.each_child f t l cs content c) as [content' ctx'] eqn:R
  end.
  cbn [fst] in E. subst content'. exists blocks. split.
  - cbn [fst]. unfold heading_block, auxiliary_blocks, paragraph_blocks.
    now rewrite <- !app_assoc.
  - exact F.
Qed.

(** * Further properties *)

(** ** Where a match ends *)

Lemma consumed_app b b' w s : consumed (mkpos b (w ++ s)) (mkpos b' s) = w.
Proof.
  unfold consumed. cbn [rest]. rewrite length_app.
  replace (length w + length s - length s) with (length w) by lia.
  rewrite firstn_app, Nat.sub_diag, firstn_all. cbn [firstn].
  apply app_nil_r.
Qed.

Lemma consumed_suffix p p' w : rest p = w ++ rest p' -> consumed p p' = w.
Proof.
  destruct p as [b s], p' as [b' s']. cbn [rest]. intros ->.
  apply consumed_app.
Qed.

(** A run that succeeds hands over at a position further on in the same
    subject; a pattern without groups leaves the captures as they are, and a
    pattern that cannot match the empty text has read something. *)
Lemma run_sound : forall r p c k x,
  run r p c k = Some x ->
  exists p' c',
    (exists w, rest p = w ++ rest p' /\ (nonnull r = true -> w <> []))
    /\ k p' c' = Some x
    /\ (PDF.ngroups r = 0 -> c' = c).
Proof.
  induction r as [|f|r1 IH1 r2 IH2|r1 IH1 r2 IH2|g r1 IH1|n r1 IH1|ml| |];
    intros p c k x H.
  - exists p, c. split; [exists []; split; [reflexivity|discriminate]|].
    now split.
  - apply inv_chr in H. destruct H as (a & s & E & Fa & H).
    exists (advance a s), c.
    split; [exists [a]; split; [now rewrite E|discriminate]|]. now split.
  - rewrite run_seq in H. apply IH1 in H.
    destruct H as (p1 & c1 & (w1 & E1 & N1) & H & G1). apply IH2 in H.
    destruct H as (p2 & c2 & (w2 & E2 & N2) & H & G2).
    exists p2, c2. split.
    + exists (w1 ++ w2). split; [now rewrite E1, E2, app_assoc|].
      cbn [nonnull]. intros N E. apply app_eq_nil in E. destruct E as [Ea Eb].
      apply orb_prop in N. destruct N as [N|N]; [now apply N1|now apply N2].
    + split; [assumption|]. cbn [PDF.ngroups]. intros N.
      rewrite G2, G1 by lia. reflexivity.
  - rewrite run_alt in H. cbn [PDF.ngroups nonnull].
    apply orelse_some in H. destruct H as [H|H].
    + apply IH1 in H. destruct H as (p1 & c1 & (w1 & E1 & N1) & H & G1).
      exists p1, c1. split; [|split; [assumption|intros N; apply G1; lia]].
      exists w1. split; [assumption|]. intros N. apply N1.
      now apply andb_prop in N.
    + apply IH2 in H. destruct H as (p1 & c1 & (w1 & E1 & N1) & H & G1).
      exists p1, c1. split; [|split; [assumption|intros N; apply G1; lia]].
      exists w1. split; [assumption|]. intros N. apply N1.
      now apply andb_prop in N.
  - rewrite run_star in H. cbn [PDF.ngroups nonnull].
    remember (S (length (rest p))) as n eqn:En. clear En.
    revert p c H. induction n as [|n IHn]; intros p c H; cbn [star_loop] in H.
    + exists p, c. split; [exists []; split; [reflexivity|discriminate]|].
      now split.
    + assert (Hk : k p c = Some x ->
                   exists p' c',
                     (exists w, rest p = w ++ rest p'
                                /\ (false = true -> w <> []))
                     /\ k p' c' = Some x
                     /\ (PDF.ngroups r1 = 0 -> c' = c)).
      { intros Hk. exists p, c.
        split; [exists []; split; [reflexivity|discriminate]|]. now split. }
      assert (Hagain :
        run r1 p c (fun p' c' =>
          if length (rest p') <? length (rest p)
          then star_loop (run r1) g k n p' c' else None) = Some x ->
        exists p' c',
          (exists w, rest p = w ++ rest p' /\ (false = true -> w <> []))
          /\ k p' c' = Some x /\ (PDF.ngroups r1 = 0 -> c' = c)).
      { intros Ha. apply IH1 in Ha.
        destruct Ha as (p1 & c1 & (w1 & E1 & _) & Ha & G1).
        destruct (length (rest p1) <? length (rest p)); [|discriminate].
        apply IHn in Ha. destruct Ha as (p2 & c2 & (w2 & E2 & _) & Ha & G2).
        exists p2, c2. split.
        - exists (w1 ++ w2).
          split; [now rewrite E1, E2, app_assoc|discriminate].
        - split; [assumption|]. intros N. rewrite G2, G1 by assumption.
          reflexivity. }
      destruct g; apply orelse_some in H; destruct H as [H|H]; auto.
  - rewrite run_group in H. apply IH1 in H.
    destruct H as (p1 & c1 & S1 & H & _).
    exists p1, ((n, consumed p p1) :: c1). split; [exact S1|].
    split; [assumption|]. cbn [PDF.ngroups]. discriminate.
  - rewrite run_bol in H. destruct (at_bol ml p); [|discriminate].
    exists p, c. split; [exists []; split; [reflexivity|discriminate]|].
    now split.
  - cbn [run] in H. destruct (at_eol p); [|discriminate].
    exists p, c. split; [exists []; split; [reflexivity|discriminate]|].
    now split.
  - rewrite run_wordb in H. destruct (at_wordb p); [|discriminate].
    exists p, c. split; [exists []; split; [reflexivity|discriminate]|].
    now split.
Qed.

(** ** The passes over references and key words only add asterisks *)

(** A pattern [\b(...)\b]: its first group is all that it reads. *)
Lemma wrapped_match body p c p' :
  match_at (WordB ;; Group 1 body ;; WordB)%re p = Some (c, p') ->
  rest p = grp 1 c ++ rest p'.
Proof.
  unfold match_at. rewrite run_seq, run_wordb.
  destruct (at_wordb p); [|discriminate].
  rewrite run_seq, run_group. intros H. apply run_sound in H.
  destruct H as (p1 & c1 & (w & E & _) & H & _). rewrite run_wordb in H.
  destruct (at_wordb p1); [|discriminate]. unfold accept in H.
  inversion H; subst c p'; clear H.
  unfold grp. cbn [group Nat.eqb]. now rewrite (@consumed_suffix p p1 w E).
Qed.

Lemma without_stars_app a b :
  without_stars (a ++ b) = without_stars a ++ without_stars b.
Proof. apply filter_app. Qed.

Lemma length_suffix_nil (w s : str) : ~ length s < length (w ++ s) -> w = [].
Proof.
  rewrite length_app. destruct w; [reflexivity|]. simpl. lia.
Qed.

(** Where every match is replaced by what it read, with asterisks added
    around, the text is the same but for the asterisks. *)
Lemma scan_marks r repl p out :
  (forall q c q', match_at r q = Some (c, q') -> rest q = grp 1 c ++ rest q') ->
  (forall c, without_stars (repl c) = without_stars (grp 1 c)) ->
  Scan r repl p out ->
  without_stars out = without_stars (rest p).
Proof.
  intros Hm Hr.
  induction 1 as [b M | b a s out M Sc IH | p c p' out M L Sc IH
                 | b c p' M | b a s c p' out M L Sc IH].
  - reflexivity.
  - cbn [rest advance] in *. change (a :: out) with ([a] ++ out).
    change (a :: s) with ([a] ++ s). now rewrite !without_stars_app, IH.
  - apply Hm in M. now rewrite M, !without_stars_app, Hr, IH.
  - apply Hm in M. cbn [rest] in M. symmetry in M.
    apply app_eq_nil in M. destruct M as [M _]. now rewrite Hr, M.
  - apply Hm in M. cbn [rest advance] in *.
    assert (G : grp 1 c = []).
    { apply length_suffix_nil with (rest p').
      rewrite <- M. exact L. }
    rewrite G in M. cbn [app] in M.
    rewrite without_stars_app, Hr, G.
    change (without_stars []) with (@nil ascii). cbn [app].
    change (a :: out) with ([a] ++ out). change (a :: s) with ([a] ++ s).
    now rewrite !without_stars_app, IH.
Qed.

Lemma bold_marks c : without_stars (PDF.bold c) = without_stars (grp 1 c).
Proof. unfold PDF.bold. now rewrite !without_stars_app, app_nil_r. Qed.

Lemma italic_marks c : without_stars (PDF.italic c) = without_stars (grp 1 c).
Proof. unfold PDF.italic. now rewrite !without_stars_app, app_nil_r. Qed.

Lemma re_sub_marks body repl s :
  (forall c, without_stars (repl c) = without_stars (grp 1 c)) ->
  without_stars (re_sub (WordB ;; Group 1 body ;; WordB)%re repl s)
  = without_stars s.
Proof.
  intros Hr.
  exact (scan_marks (@wrapped_match body) Hr (re_sub_scan _ repl s)).
Qed.

(** X1: the passes over references and key words change nothing but
    asterisks: with the asterisks taken out, the text after them is the text
    before them.  For [format_content] as a whole, this is the text after the
    list pass. *)
Theorem format_content_adds_only_stars :
  forall content : str,
    without_stars (PDF.format_references content) = without_stars content
    /\ without_stars (PDF.format_emphasis content) = without_stars content
    /\ without_stars (PDF.format_content content)
       = without_stars (PDF.format_lists content).
Proof.
  assert (R : forall t, without_stars (PDF.format_references t)
                        = without_stars t).
  { intros t. unfold PDF.format_references, PDF.chapter_ref_re,
      PDF.section_ref_re, PDF.xref_re.
    now rewrite !re_sub_marks by apply bold_marks. }
  assert (E : forall t, without_stars (PDF.format_emphasis t)
                        = without_stars t).
  { intros t. unfold PDF.format_emphasis, PDF.mandatory_re, PDF.permissive_re.
    rewrite re_sub_marks by apply italic_marks.
    now rewrite re_sub_marks by apply bold_marks. }
  intros content. split; [apply R|]. split; [apply E|].
  unfold PDF.format_content. now rewrite E, R.
Qed.

(** ** White space around a text *)

Lemma lstrip_spaces : forall w t,
  forallb is_space w = true -> lstrip (w ++ t) = lstrip t.
Proof.
  induction w as [|a w IH]; intros t H; [reflexivity|].
  cbn [forallb] in H. apply andb_prop in H. destruct H as [Ha Hw].
  cbn [app lstrip]. rewrite Ha. now apply IH.
Qed.

Lemma lstrip_all_spaces w : forallb is_space w = true -> lstrip w = [].
Proof.
  intros H. rewrite <- (app_nil_r w). now rewrite lstrip_spaces.
Qed.

Lemma lstrip_nil_spaces s : lstrip s = [] -> forallb is_space s = true.
Proof.
  intros H. destruct (lstrip_split s) as (w & E & Fw).
  rewrite H, app_nil_r in E. now subst.
Qed.

Lemma lstrip_keep : forall t u, lstrip t <> [] -> lstrip (t ++ u) = lstrip t ++ u.
Proof.
  induction t as [|a t IH]; intros u H; [now contradiction H|].
  cbn [app lstrip] in *. destruct (is_space a); [now apply IH|reflexivity].
Qed.

Lemma forallb_rev (f : ascii -> bool) l : forallb f (rev l) = forallb f l.
Proof.
  induction l as [|a l IH]; [reflexivity|]. cbn [rev forallb].
  rewrite forallb_app, IH. cbn [forallb]. rewrite andb_true_r.
  apply andb_comm.
Qed.

Lemma rstrip_spaces t w : forallb is_space w = true -> rstrip (t ++ w) = rstrip t.
Proof.
  intros H. unfold rstrip. rewrite rev_app_distr.
  now rewrite lstrip_spaces by (now rewrite forallb_rev).
Qed.

Lemma strip_all_spaces w : forallb is_space w = true -> strip w = [].
Proof. intros H. unfold strip. now rewrite lstrip_all_spaces. Qed.

(** White space around a text does not count for [strip]. *)
Lemma strip_around w1 t w2 :
  forallb is_space w1 = true -> forallb is_space w2 = true ->
  strip (w1 ++ t ++ w2) = strip t.
Proof.
  intros H1 H2. unfold strip. rewrite lstrip_spaces by assumption.
  destruct (lstrip t) as [|a u] eqn:E.
  - apply lstrip_nil_spaces in E.
    rewrite lstrip_all_spaces; [reflexivity|].
    now rewrite forallb_app, E, H2.
  - rewrite lstrip_keep by (rewrite E; discriminate).
    rewrite E. now apply rstrip_spaces.
Qed.

Lemma lstrip_id s : hd_space s = false -> lstrip s = s.
Proof. destruct s as [|a s]; [reflexivity|]. simpl. now intros ->. Qed.

Lemma hd_space_rev s : hd_space (rev s) = tl_space s.
Proof. rewrite <- (rev_involutive s) at 2. now rewrite tl_space_rev. Qed.

Lemma rstrip_id s : tl_space s = false -> rstrip s = s.
Proof.
  intros H. unfold rstrip.
  rewrite lstrip_id by (now rewrite hd_space_rev). apply rev_involutive.
Qed.

Lemma strip_id s : hd_space s = false -> tl_space s = false -> strip s = s.
Proof.
  intros Hh Ht. unfold strip. rewrite lstrip_id by assumption.
  now apply rstrip_id.
Qed.

Lemma strip_strip s : strip (strip s) = strip s.
Proof. destruct (strip_ends s) as [Hh Ht]. now apply strip_id. Qed.

(** ** The tree converter's [clean_text]: more *)

Lemma extract_text_only tag attrs text tail :
  XML.extract_text_content (XML.mkElement tag attrs text [] tail)
  = XML.clean_text (XML.truthy text).
Proof.
  cbn [XML.extract_text_content concat]. now rewrite app_nil_r.
Qed.

Lemma clean_text_nil : XML.clean_text [] = [].
Proof. reflexivity. Qed.

Lemma clean_pipeline_nil :
  XML.space_sentences (XML.close_punct (XML.collapse_spaces [])) = [].
Proof. reflexivity. Qed.

Lemma clean_text_outer_space w1 t w2 :
  forallb is_space w1 = true -> forallb is_space w2 = true ->
  XML.clean_text (w1 ++ t ++ w2) = XML.clean_text t.
Proof.
  intros H1 H2.
  assert (P : forall u, XML.clean_text u
              = XML.space_sentences (XML.close_punct
                  (re_sub XML.spaces_re (fun _ => [space]) (strip u)))).
  { intros [|a u]; [reflexivity|reflexivity]. }
  rewrite !P. now rewrite strip_around.
Qed.

(** X2: white space in front of a text and behind it does not count:
    [clean_text] gives the same for the text with and without it. *)
Theorem clean_text_ignores_outer_space :
  forall w1 t w2 : str,
    forallb is_space w1 = true -> forallb is_space w2 = true ->
    XML.clean_text (w1 ++ t ++ w2) = XML.clean_text t.
Proof. exact clean_text_outer_space. Qed.

Lemma clean_text_ignores_outer_space_witness :
  forallb is_space (T"  ") = true
  /\ forallb is_space [nl] = true
  /\ XML.clean_text (T"  " ++ T"See  part 4 ." ++ [nl])
     = XML.clean_text (T"See  part 4 .").
Proof.
  split; [reflexivity|]. split; [reflexivity|].
  apply (@clean_text_ignores_outer_space (T"  ") (T"See  part 4 .") [nl]);
    reflexivity.
Defined.

(** X3: a paragraph or a citation whose text is empty or white space only
    gives the empty string: no empty block is written. *)
Theorem blank_paragraph_omitted :
  forall tag attrs text tail,
    forallb is_space (XML.truthy text) = true ->
    XML.process_paragraph (XML.mkElement tag attrs text [] tail) = []
    /\ XML.process_citation (XML.mkElement tag attrs text [] tail) = [].
Proof.
  intros tag attrs text tail H.
  assert (E : XML.clean_text (XML.truthy text) = []).
  { rewrite <- (app_nil_r (XML.truthy text)).
    change (XML.truthy text ++ []) with (XML.truthy text ++ [] ++ []).
    rewrite clean_text_outer_space by (assumption || reflexivity).
    reflexivity. }
  unfold XML.process_paragraph, XML.process_citation.
  rewrite extract_text_only, E. split; reflexivity.
Qed.

Lemma blank_paragraph_omitted_witness :
  forallb is_space (XML.truthy (Some (T"  " ++ [nl; tab]))) = true
  /\ XML.process_paragraph
       (XML.mkElement (T"P") [] (Some (T"  " ++ [nl; tab])) [] None) = []
  /\ XML.process_citation
       (XML.mkElement (T"P") [] (Some (T"  " ++ [nl; tab])) [] None) = [].
Proof.
  split; [reflexivity|].
  apply (@blank_paragraph_omitted (T"P") [] (Some (T"  " ++ [nl; tab])) None).
  reflexivity.
Defined.

Lemma upper_not_stop x : is_upper_az x = true -> XML.stop x = false.
Proof.
  intros H. destruct (XML.stop x) eqn:E; [|reflexivity].
  one_of_cases E; discriminate H.
Qed.

Lemma plain_space_eq a : plain_space a = true -> is_space a = true -> a = space.
Proof.
  unfold plain_space. intros H Ha. rewrite Ha in H. simpl in H.
  now apply Ascii.eqb_eq in H.
Qed.

Lemma chain_cons2 R a b s : chain R (a :: b :: s) = R a b && chain R (b :: s).
Proof. reflexivity. Qed.

(** After step three no end of a sentence touches a capital letter. *)
Lemma scan_sentence_stop p out :
  Scan XML.sentence_re (fun c => grp 1 c ++ [space] ++ grp 2 c) p out ->
  hd_error out = hd_error (rest p) /\ chain spaced_stop out = true.
Proof.
  induction 1 as [b M | b a s out M Sc IH | p c p' out M L Sc IH
                 | b c p' M | b a s c p' out M L Sc IH].
  - now split.
  - cbn [rest advance] in *. destruct IH as [Hhd Hch].
    split; [reflexivity|]. rewrite chain_cons.
    destruct out as [|y out]; [reflexivity|].
    destruct s as [|x s']; [discriminate|]. inversion Hhd; subst y.
    rewrite Hch, andb_true_r. unfold spaced_stop.
    rewrite sentence_match in M.
    destruct (XML.stop a); [|reflexivity].
    destruct (is_upper_az x) eqn:Ux; [|reflexivity].
    rewrite skip_stay in M by now apply upper_not_space.
    unfold upper_next in M. cbn [rest] in M. rewrite Ux in M. discriminate.
  - destruct p as [b [|a s]]; [now rewrite sentence_match_nil in M|].
    rewrite sentence_match in M.
    destruct (XML.stop a) eqn:Sa; [|discriminate]. unfold upper_next in M.
    destruct (rest (skip is_space (Some a) s)) as [|x s''];
      [discriminate|].
    destruct (is_upper_az x) eqn:Ux; [|discriminate].
    inversion M; subst c p'; clear M. cbn [rest advance] in *.
    destruct IH as [Hhd Hch].
    change (grp 1 [(2, [x]); (1, [a])] ++ [space]
            ++ grp 2 [(2, [x]); (1, [a])]) with [a; space; x].
    cbn [app]. split; [reflexivity|].
    assert (Hx : chain spaced_stop (x :: out) = true).
    { rewrite chain_cons. destruct out; [reflexivity|].
      rewrite Hch, andb_true_r. unfold spaced_stop.
      now rewrite upper_not_stop. }
    rewrite (chain_cons2 _ a), (chain_cons2 _ space), Hx.
    unfold spaced_stop.
    replace (is_upper_az space) with false by reflexivity.
    replace (XML.stop space) with false by reflexivity.
    now rewrite andb_false_r.
  - now rewrite sentence_match_nil in M.
  - exfalso. rewrite sentence_match in M.
    destruct (XML.stop a); [|discriminate]. unfold upper_next in M.
    pose proof (skip_length is_space s (Some a)) as Hl.
    destruct (rest (skip is_space (Some a) s)) as [|x s'']; [discriminate|].
    destruct (is_upper_az x); [|discriminate].
    inversion M; subst. apply L. simpl in *. lia.
Qed.

Lemma clean_text_spaced t : chain spaced_stop (XML.clean_text t) = true.
Proof.
  unfold XML.clean_text. destruct (is_empty t); [reflexivity|].
  unfold XML.space_sentences.
  exact (proj2 (scan_sentence_stop (re_sub_scan _ _ _))).
Qed.

(** X4: in the text given by [clean_text] no [.], [!] or [?] is followed at
    once by a capital letter A-Z. *)
Theorem clean_text_spaces_sentences :
  forall t : str, chain spaced_stop (XML.clean_text t) = true.
Proof. exact clean_text_spaced. Qed.

(** On a text with single plain spaces, step one changes nothing. *)
Lemma scan_spaces_id p out :
  Scan XML.spaces_re (fun _ => [space]) p out ->
  chain single_spaced (rest p) = true ->
  forallb plain_space (rest p) = true ->
  out = rest p.
Proof.
  induction 1 as [b M | b a s out M Sc IH | p c p' out M L Sc IH
                 | b c p' M | b a s c p' out M L Sc IH]; intros Hch Hall.
  - reflexivity.
  - cbn [rest advance] in *. f_equal. apply IH.
    + now apply chain_tail with a.
    + rewrite forallb_cons in Hall. now apply andb_prop in Hall.
  - destruct p as [b [|a s]]; [now rewrite spaces_match_nil in M|].
    rewrite spaces_match in M. destruct (is_space a) eqn:Ea; [|discriminate].
    inversion M; subst c p'; clear M. cbn [rest] in *.
    rewrite forallb_cons in Hall. apply andb_prop in Hall.
    destruct Hall as [Pa Hall].
    rewrite <- (plain_space_eq _ Pa Ea). cbn [app]. f_equal.
    destruct s as [|x s'].
    + cbn [skip rest] in *. now apply IH.
    + rewrite chain_cons in Hch. apply andb_prop in Hch.
      destruct Hch as [Hax Hch]. unfold single_spaced in Hax.
      rewrite Ea in Hax. simpl in Hax. apply negb_true_iff in Hax.
      rewrite skip_stay in * by assumption. cbn [rest] in *.
      now apply IH.
  - now rewrite spaces_match_nil in M.
  - exfalso. rewrite spaces_match in M. destruct (is_space a); [|discriminate].
    inversion M; subst. apply L. pose proof (skip_length is_space s (Some a)).
    simpl. lia.
Qed.

(** On a text with no white space before punctuation, step two changes
    nothing. *)
Lemma scan_space_punct_id p out :
  Scan XML.space_punct_re (fun c => grp 1 c) p out ->
  chain tight (rest p) = true ->
  out = rest p.
Proof.
  induction 1 as [b M | b a s out M Sc IH | p c p' out M L Sc IH
                 | b c p' M | b a s c p' out M L Sc IH]; intros Hch.
  - reflexivity.
  - cbn [rest advance] in *. f_equal. apply IH. now apply chain_tail with a.
  - exfalso. destruct p as [b [|a s]]; [now rewrite space_punct_match_nil in M|].
    rewrite space_punct_match in M.
    destruct (is_space a) eqn:Ea; [|discriminate]. cbn [rest] in *.
    destruct s as [|x s']; [discriminate|].
    rewrite chain_cons in Hch. apply andb_prop in Hch.
    destruct Hch as [Hax _]. unfold tight in Hax. rewrite Ea in Hax.
    simpl in Hax. apply negb_true_iff, orb_false_iff in Hax.
    destruct Hax as [Sx Px].
    rewrite skip_stay in M by assumption. unfold punct_next in M.
    cbn [rest] in M. rewrite Px in M. discriminate.
  - now rewrite space_punct_match_nil in M.
  - exfalso. rewrite space_punct_match in M.
    destruct (is_space a); [|discriminate]. unfold punct_next in M.
    pose proof (skip_length is_space s (Some a)) as Hl.
    destruct (rest (skip is_space (Some a) s)) as [|x s'']; [discriminate|].
    destruct (XML.punct x); [|discriminate].
    inversion M; subst. apply L. simpl in *. lia.
Qed.

(** On a normalized text with spaced sentences, step three changes
    nothing. *)
Lemma scan_sentence_id p out :
  Scan XML.sentence_re (fun c => grp 1 c ++ [space] ++ grp 2 c) p out ->
  chain tight (rest p) = true ->
  chain spaced_stop (rest p) = true ->
  forallb plain_space (rest p) = true ->
  out = rest p.
Proof.
  induction 1 as [b M | b a s out M Sc IH | p c p' out M L Sc IH
                 | b c p' M | b a s c p' out M L Sc IH];
    intros Hch Hst Hall.
  - reflexivity.
  - cbn [rest advance] in *. f_equal. apply IH.
    + now apply chain_tail with a.
    + now apply chain_tail with a.
    + rewrite forallb_cons in Hall. now apply andb_prop in Hall.
  - destruct p as [b [|a s]]; [now rewrite sentence_match_nil in M|].
    rewrite sentence_match in M.
    destruct (XML.stop a) eqn:Sa; [|discriminate]. cbn [rest] in *.
    destruct s as [|x s1]; [discriminate|].
    destruct (is_space x) eqn:Sx.
    + destruct s1 as [|y s2]; [cbn in M; rewrite Sx in M; discriminate|].
      pose proof (chain_tail _ _ _ Hch) as Hch1.
      rewrite chain_cons in Hch1. apply andb_prop in Hch1.
      destruct Hch1 as [Hxy Hch2]. unfold tight in Hxy. rewrite Sx in Hxy.
      simpl in Hxy. apply negb_true_iff, orb_false_iff in Hxy.
      destruct Hxy as [Sy _].
      cbn [skip] in M. rewrite Sx, Sy in M.
      unfold upper_next in M. cbn [rest] in M.
      destruct (is_upper_az y); [|discriminate].
      inversion M; subst c p'; clear M. cbn [rest advance] in *.
      rewrite !forallb_cons in Hall. apply andb_prop in Hall.
      destruct Hall as [_ Hall]. apply andb_prop in Hall.
      destruct Hall as [Px Hall]. apply andb_prop in Hall.
      destruct Hall as [_ Hall].
      rewrite (plain_space_eq _ Px Sx).
      change (grp 1 [(2, [y]); (1, [a])] ++ [space]
              ++ grp 2 [(2, [y]); (1, [a])]) with [a; space; y].
      cbn [app]. do 3 f_equal. apply IH; [| |exact Hall].
      * now apply chain_tail with y.
      * now apply chain_tail with y, chain_tail with x, chain_tail with a.
    + exfalso. rewrite skip_stay in M by assumption.
      unfold upper_next in M. cbn [rest] in M.
      destruct (is_upper_az x) eqn:Ux; [|discriminate].
      rewrite chain_cons in Hst. apply andb_prop in Hst.
      destruct Hst as [Hax _]. unfold spaced_stop in Hax.
      rewrite Sa, Ux in Hax. discriminate.
  - now rewrite sentence_match_nil in M.
  - exfalso. rewrite sentence_match in M.
    destruct (XML.stop a); [|discriminate]. unfold upper_next in M.
    pose proof (skip_length is_space s (Some a)) as Hl.
    destruct (rest (skip is_space (Some a) s)) as [|x s'']; [discriminate|].
    destruct (is_upper_az x); [|discriminate].
    inversion M; subst. apply L. simpl in *. lia.
Qed.

Lemma chain_weaken (R R' : ascii -> ascii -> bool) :
  (forall a b, R a b = true -> R' a b = true) ->
  forall s, chain R s = true -> chain R' s = true.
Proof.
  intros W. induction s as [|a s IH]; [reflexivity|].
  rewrite !chain_cons. destruct s as [|b s]; [reflexivity|].
  intros H. apply andb_prop in H. destruct H as [H1 H2].
  now rewrite (W _ _ H1), IH.
Qed.

Lemma tight_single_spaced a b : tight a b = true -> single_spaced a b = true.
Proof.
  unfold tight, single_spaced. destruct (is_space a), (is_space b); auto.
Qed.

(** A normalized text with spaced sentences is left as it is. *)
Lemma clean_text_fixed s :
  normalized s = true -> chain spaced_stop s = true -> XML.clean_text s = s.
Proof.
  unfold normalized. intros H Hst.
  apply andb_prop in H. destruct H as [H Hall].
  apply andb_prop in H. destruct H as [H Hch].
  apply andb_prop in H. destruct H as [Hhd Htl].
  apply negb_true_iff in Hhd. apply negb_true_iff in Htl.
  unfold XML.clean_text. destruct s as [|a s]; [reflexivity|].
  cbn [is_empty].
  unfold XML.space_sentences, XML.close_punct, XML.collapse_spaces.
  rewrite strip_id by assumption.
  rewrite (scan_spaces_id (re_sub_scan _ _ _)); cbn [rest];
    [|now apply chain_weaken with tight; [apply tight_single_spaced|]
     |assumption].
  rewrite (scan_space_punct_id (re_sub_scan _ _ _)); cbn [rest];
    [|assumption].
  now rewrite (scan_sentence_id (re_sub_scan _ _ _)).
Qed.

(** X5: [clean_text] is idempotent: cleaning a cleaned text changes
    nothing.  So the text of an element, once extracted, is a fixed point of
    the cleaning. *)
Theorem clean_text_idempotent :
  (forall t : str, XML.clean_text (XML.clean_text t) = XML.clean_text t)
  /\ (forall e : XML.Element,
        XML.clean_text (XML.extract_text_content e)
        = XML.extract_text_content e).
Proof.
  assert (I : forall t, XML.clean_text (XML.clean_text t) = XML.clean_text t).
  { intros t. apply clean_text_fixed.
    - apply clean_text_normalized.
    - apply clean_text_spaced. }
  split; [exact I|].
  intros [tag attrs text kids tail]. cbn [XML.extract_text_content]. apply I.
Qed.

(** ** Cleaning moves white space only *)

Lemma nonspace_app a b : nonspace (a ++ b) = nonspace a ++ nonspace b.
Proof. apply filter_app. Qed.

Lemma nonspace_spaces : forall w, forallb is_space w = true -> nonspace w = [].
Proof.
  induction w as [|a w IH]; intros H; [reflexivity|].
  cbn [forallb] in H. apply andb_prop in H. destruct H as [Ha Hw].
  unfold nonspace in *. cbn [filter]. rewrite Ha. cbn [negb]. now apply IH.
Qed.

Lemma nonspace_word a : is_space a = false -> nonspace [a] = [a].
Proof. intros H. unfold nonspace. cbn [filter]. now rewrite H. Qed.

Lemma nonspace_rev s : nonspace (rev s) = rev (nonspace s).
Proof.
  induction s as [|a s IH]; [reflexivity|]. cbn [rev].
  rewrite nonspace_app, IH. change (a :: s) with ([a] ++ s).
  rewrite nonspace_app, rev_app_distr.
  f_equal. unfold nonspace. cbn [filter]. now destruct (negb (is_space a)).
Qed.

Lemma nonspace_lstrip s : nonspace (lstrip s) = nonspace s.
Proof.
  destruct (lstrip_split s) as (w & E & Fw). rewrite E at 2.
  now rewrite nonspace_app, (nonspace_spaces _ Fw).
Qed.

Lemma nonspace_strip s : nonspace (strip s) = nonspace s.
Proof.
  unfold strip, rstrip.
  now rewrite nonspace_rev, nonspace_lstrip, nonspace_rev, rev_involutive,
    nonspace_lstrip.
Qed.

(** Where every match is replaced by a text with the same characters, white
    space apart, the whole text keeps its characters, white space apart. *)
Lemma scan_nonspace r repl p out :
  (forall q c q', match_at r q = Some (c, q') ->
     exists w, rest q = w ++ rest q' /\ nonspace (repl c) = nonspace w) ->
  Scan r repl p out ->
  nonspace out = nonspace (rest p).
Proof.
  intros Hm.
  induction 1 as [b M | b a s out M Sc IH | p c p' out M L Sc IH
                 | b c p' M | b a s c p' out M L Sc IH].
  - reflexivity.
  - cbn [rest advance] in *. change (a :: out) with ([a] ++ out).
    change (a :: s) with ([a] ++ s). now rewrite !nonspace_app, IH.
  - apply Hm in M. destruct M as (w & E & N).
    now rewrite E, !nonspace_app, N, IH.
  - apply Hm in M. destruct M as (w & E & N). cbn [rest] in E.
    symmetry in E. apply app_eq_nil in E. destruct E as [E _].
    now rewrite N, E.
  - apply Hm in M. destruct M as (w & E & N). cbn [rest advance] in *.
    assert (G : w = []).
    { apply length_suffix_nil with (rest p'). rewrite <- E. exact L. }
    subst w. rewrite nonspace_app, N.
    change (nonspace []) with (@nil ascii). cbn [app].
    change (a :: out) with ([a] ++ out). change (a :: s) with ([a] ++ s).
    now rewrite !nonspace_app, IH.
Qed.

Lemma spaces_nonspace q c q' :
  match_at XML.spaces_re q = Some (c, q') ->
  exists w, rest q = w ++ rest q' /\ nonspace [space] = nonspace w.
Proof.
  destruct q as [b [|a s]]; [now rewrite spaces_match_nil|].
  rewrite spaces_match. destruct (is_space a) eqn:Ea; [|discriminate].
  intros M. inversion M; subst c q'; clear M.
  destruct (skip_suffix is_space s (Some a)) as (w & E & Fw).
  exists (a :: w). cbn [rest]. split; [cbn [app]; now f_equal|].
  symmetry. apply nonspace_spaces. cbn [forallb]. now rewrite Ea.
Qed.

Lemma space_punct_nonspace q c q' :
  match_at XML.space_punct_re q = Some (c, q') ->
  exists w, rest q = w ++ rest q' /\ nonspace (grp 1 c) = nonspace w.
Proof.
  destruct q as [b [|a s]]; [now rewrite space_punct_match_nil|].
  rewrite space_punct_match. destruct (is_space a) eqn:Ea; [|discriminate].
  unfold punct_next.
  destruct (skip_suffix is_space s (Some a)) as (w & E & Fw).
  destruct (rest (skip is_space (Some a) s)) as [|x s'']; [discriminate|].
  destruct (XML.punct x); [|discriminate].
  intros M. inversion M; subst c q'; clear M.
  exists ((a :: w) ++ [x]). cbn [rest advance]. split.
  - rewrite E. cbn [app]. now rewrite <- app_assoc.
  - rewrite nonspace_app, (nonspace_spaces (a :: w));
      [reflexivity|cbn [forallb]; now rewrite Ea].
Qed.

Lemma sentence_nonspace q c q' :
  match_at XML.sentence_re q = Some (c, q') ->
  exists w, rest q = w ++ rest q'
            /\ nonspace (grp 1 c ++ [space] ++ grp 2 c) = nonspace w.
Proof.
  destruct q as [b [|a s]]; [now rewrite sentence_match_nil|].
  rewrite sentence_match. destruct (XML.stop a) eqn:Sa; [|discriminate].
  unfold upper_next.
  destruct (skip_suffix is_space s (Some a)) as (w & E & Fw).
  destruct (rest (skip is_space (Some a) s)) as [|x s'']; [discriminate|].
  destruct (is_upper_az x); [|discriminate].
  intros M. inversion M; subst c q'; clear M.
  exists ([a] ++ w ++ [x]). cbn [rest advance]. split.
  - rewrite E. cbn [app]. now rewrite <- app_assoc.
  - change (grp 1 [(2, [x]); (1, [a])] ++ [space]
            ++ grp 2 [(2, [x]); (1, [a])]) with ([a] ++ [space] ++ [x]).
    rewrite !nonspace_app, (nonspace_spaces w Fw).
    now rewrite (nonspace_spaces [space]).
Qed.

(** X6: [clean_text] changes white space only: with the white space taken
    out, the cleaned text is the text that was given. *)
Theorem clean_text_keeps_characters :
  forall t : str, nonspace (XML.clean_text t) = nonspace t.
Proof.
  intros t. unfold XML.clean_text. destruct t as [|a t]; [reflexivity|].
  cbn [is_empty].
  unfold XML.space_sentences, XML.close_punct, XML.collapse_spaces.
  rewrite (scan_nonspace sentence_nonspace (re_sub_scan _ _ _)). cbn [rest].
  rewrite (scan_nonspace space_punct_nonspace (re_sub_scan _ _ _)).
  cbn [rest].
  rewrite (scan_nonspace spaces_nonspace (re_sub_scan _ _ _)). cbn [rest].
  apply nonspace_strip.
Qed.

(** ** Section numbers and heading levels *)

(** X7: the formatter of section numbers is idempotent: a heading that went
    through it once is left as it is the second time, so the sign is never
    doubled. *)
Theorem format_section_number_idempotent :
  forall section_num : str,
    XML.format_section_number (XML.format_section_number section_num)
    = XML.format_section_number section_num.
Proof.
  intros h.
  assert (F : forall x, starts_with [XML.section_sign] x = true ->
                        XML.format_section_number x = x).
  { intros x Hx. unfold XML.format_section_number. now rewrite Hx. }
  remember (XML.format_section_number h) as y eqn:Ey.
  unfold XML.format_section_number in Ey.
  destruct (starts_with [XML.section_sign] h) eqn:S1.
  - subst y. now apply F.
  - destruct (XML.isdigit (XML.remove_char "-" (XML.remove_char "." h))) eqn:D.
    + subst y. apply F. reflexivity.
    + subst y. unfold XML.format_section_number. now rewrite S1, D.
Qed.

(** X8: whatever the type of a division, its heading line has between one
    and six [#] in front of the heading text. *)
Theorem heading_level_bounds :
  forall div_type heading_text : str,
  exists n text,
    1 <= n <= 6
    /\ XML.heading_line div_type heading_text
       = [nl] ++ repeat "#"%char n ++ [space] ++ text ++ [nl].
Proof.
  intros div_type heading_text. unfold XML.heading_line.
  eexists. eexists. split; [|reflexivity].
  unfold XML.get_heading_level.
  repeat match goal with
         | |- context [if ?b then _ else _] => destruct b
         end; cbn; lia.
Qed.

(** ** The context is written, never read *)

Lemma Element_induction (P : XML.Element -> Prop) :
  (forall tag attrs text kids tail,
     Forall P kids -> P (XML.mkElement tag attrs text kids tail)) ->
  forall e, P e.
Proof.
  intros H. fix IH 1. intros [tag attrs text kids tail]. apply H.
  induction kids as [|k kids IHk]; constructor; [apply IH|exact IHk].
Qed.

Lemma each_child_ignores process div_tag : forall cs,
  Forall (fun child => forall c c' l l',
            fst (process c child l) = fst (process c' child l')) cs ->
  forall content ctx ctx' level level',
    fst (XML.each_child process div_tag level cs content ctx)
    = fst (XML.each_child process div_tag level' cs content ctx').
Proof.
  induction cs as [|child cs IH]; intros F content ctx ctx' level level';
    [reflexivity|].
  inversion F as [|? ? Hc Hcs]; subst. cbn [XML.each_child].
  destruct (XML.is_child_division div_tag child); [|now apply IH].
  specialize (Hc ctx ctx' (S level) (S level')).
  destruct (process ctx child (S level)) as [b c1].
  destruct (process ctx' child (S level')) as [b' c1'].
  cbn [fst] in Hc. subst b'. now apply IH.
Qed.

(** X9: what [process_division] writes does not depend on the context it is
    given, nor on the level: the context is updated on the way but never
    read. *)
Theorem process_division_ignores_context :
  forall (e : XML.Element) ctx ctx' level level',
    fst (XML.process_division ctx e level)
    = fst (XML.process_division ctx' e level').
Proof.
  induction e as [tag attrs text kids tail IH] using Element_induction.
  intros ctx ctx' level level'. cbn [XML.process_division].
  match goal with
  | |- fst (let '(_, _) := XML.each_child ?f ?t ?l ?cs ?content ?c in _)
       = fst (let '(_, _) := XML.each_child ?f ?t ?l' ?cs ?content ?c' in _) =>
      pose proof (@each_child_ignores f t cs IH content c c' l l') as E;
      destruct (XML.each_child f t l cs content c) as [c1 x1];
      destruct (XML.each_child f t l' cs content c') as [c2 x2]
  end.
  cbn [fst] in *. now subst.
Qed.

(** ** Lines *)

Lemma split_on_not_nil c s : split_on c s <> [].
Proof.
  destruct s as [|a s]; simpl; [discriminate|].
  destruct (Ascii.eqb a c); [discriminate|].
  destruct (split_on c s); discriminate.
Qed.

(** Cutting a text at a separator: the pieces of both parts. *)
Lemma split_on_app c : forall a b,
  split_on c (a ++ c :: b) = split_on c a ++ split_on c b.
Proof.
  induction a as [|x a IH]; intros b.
  - cbn [app split_on]. now rewrite Ascii.eqb_refl.
  - cbn [app split_on]. destruct (Ascii.eqb x c); [now rewrite IH|].
    rewrite IH. pose proof (split_on_not_nil c a) as N.
    destruct (split_on c a) as [|p ps]; [congruence|reflexivity].
Qed.

Lemma split_on_spaces w :
  forallb is_space w = true ->
  Forall (fun l => forallb is_space l = true) (split_on nl w).
Proof.
  induction w as [|a w IH]; intros H.
  - constructor; [reflexivity|constructor].
  - cbn [forallb] in H. apply andb_prop in H. destruct H as [Ha Hw].
    specialize (IH Hw). cbn [split_on].
    destruct (Ascii.eqb a nl); [constructor; [reflexivity|assumption]|].
    pose proof (split_on_not_nil nl w) as N.
    destruct (split_on nl w) as [|p ps]; [congruence|].
    inversion IH; subst. constructor; [|assumption].
    cbn [forallb]. now rewrite Ha.
Qed.

(** ** The loop of the segmenter *)

Lemma is_heading_nil : is_heading [] = false.
Proof. reflexivity. Qed.

Lemma step_blank st raw : strip raw = [] -> PDF.step st raw = st.
Proof. intros E. unfold PDF.step. now rewrite E. Qed.

Lemma step_text st raw :
  strip raw <> [] -> is_heading (strip raw) = false ->
  PDF.step st raw
  = PDF.mkseg (PDF.sections st) (PDF.current_section st)
              (PDF.content_buffer st ++ [strip raw]).
Proof.
  intros N H. unfold PDF.step, is_heading in *.
  destruct (strip raw) as [|a l]; [congruence|]. cbn [is_empty].
  now destruct (PDF.first_match PDF.patterns (a :: l)).
Qed.

(** At a heading line the open section is saved and the next one opened; the
    new section depends on the line only. *)
Lemma step_heading raw :
  is_heading (strip raw) = true ->
  exists ty num ti,
    PDF.first_match PDF.patterns (strip raw) = Some (ty, num, ti)
    /\ forall st,
         PDF.step st raw
         = PDF.mkseg (PDF.save_section st)
             (Some (PDF.mkSection ty num (strip ti) [] (strip raw))) [].
Proof.
  intros H. unfold is_heading in H.
  destruct (PDF.first_match PDF.patterns (strip raw)) as [[[ty num] ti]|] eqn:F;
    [|discriminate].
  exists ty, num, ti. split; [reflexivity|]. intros st. unfold PDF.step.
  destruct (strip raw) as [|a l] eqn:E; [discriminate F|].
  cbn [is_empty]. now rewrite F.
Qed.

(** A line is blank, a heading, or a line of content. *)
Lemma line_cases raw :
  strip raw = []
  \/ is_heading (strip raw) = true
  \/ (strip raw <> [] /\ is_heading (strip raw) = false).
Proof.
  destruct (strip raw) as [|a l] eqn:E; [now left|right].
  destruct (is_heading (a :: l)); [now left|right]. split; [discriminate|reflexivity].
Qed.

Lemma save_section_prefix secs cur buf :
  PDF.save_section (PDF.mkseg secs cur buf)
  = secs ++ PDF.save_section (PDF.mkseg [] cur buf).
Proof.
  unfold PDF.save_section. cbn [PDF.sections PDF.current_section
                                 PDF.content_buffer].
  destruct cur; [|now rewrite app_nil_r].
  destruct buf; [now rewrite app_nil_r|reflexivity].
Qed.

(** The sections saved so far are carried along unchanged. *)
Lemma sections_carried : forall lines secs cur buf,
  PDF.save_section (fold_left PDF.step lines (PDF.mkseg secs cur buf))
  = secs
    ++ PDF.save_section (fold_left PDF.step lines (PDF.mkseg [] cur buf)).
Proof.
  induction lines as [|raw lines IH]; intros secs cur buf.
  - apply save_section_prefix.
  - cbn [fold_left]. destruct (line_cases raw) as [B|[H|[N H]]].
    + rewrite !step_blank by assumption. apply IH.
    + destruct (step_heading raw H) as (ty & num & ti & _ & S).
      rewrite !S. rewrite IH.
      rewrite (IH (PDF.save_section (PDF.mkseg [] cur buf))).
      rewrite app_assoc. f_equal. apply save_section_prefix.
    + rewrite !step_text by assumption.
      cbn [PDF.sections PDF.current_section PDF.content_buffer]. apply IH.
Qed.

(** Before the first heading the buffer does not count. *)
Lemma buffer_before_heading : forall lines buf buf',
  PDF.save_section (fold_left PDF.step lines (PDF.mkseg [] None buf))
  = PDF.save_section (fold_left PDF.step lines (PDF.mkseg [] None buf')).
Proof.
  induction lines as [|raw lines IH]; intros buf buf'; [reflexivity|].
  cbn [fold_left]. destruct (line_cases raw) as [B|[H|[N H]]].
  - rewrite !step_blank by assumption. apply IH.
  - destruct (step_heading raw H) as (ty & num & ti & _ & S).
    now rewrite !S.
  - rewrite !step_text by assumption.
    cbn [PDF.sections PDF.current_section PDF.content_buffer]. apply IH.
Qed.

Lemma no_heading_lines text :
  no_heading text ->
  Forall (fun raw => is_heading (strip raw) = false) (split_on nl text).
Proof. unfold no_heading, lines_of. now rewrite Forall_map. Qed.

(** Lines without a heading leave the segmenter with nothing open. *)
Lemma fold_no_heading : forall lines buf,
  Forall (fun raw => is_heading (strip raw) = false) lines ->
  exists buf',
    fold_left PDF.step lines (PDF.mkseg [] None buf) = PDF.mkseg [] None buf'.
Proof.
  induction lines as [|raw lines IH]; intros buf F; [now exists buf|].
  inversion F as [|? ? Hr Hl]; subst. cbn [fold_left].
  destruct (line_cases raw) as [B|[H|[N H]]].
  - rewrite step_blank by assumption. now apply IH.
  - congruence.
  - rewrite step_text by assumption. now apply IH.
Qed.

(** X10: a text without a heading line gives no section at all, and the
    lines in front of the first heading are dropped: a text gives the same
    sections with and without them. *)
Theorem text_before_first_heading_dropped :
  (forall text, no_heading text -> PDF.identify_sections text = [])
  /\ (forall front text,
        no_heading front ->
        PDF.identify_sections (front ++ nl :: text)
        = PDF.identify_sections text).
Proof.
  split.
  - intros text H. apply no_heading_lines in H.
    unfold PDF.identify_sections, PDF.init.
    destruct (fold_no_heading [] H) as [buf' ->]. reflexivity.
  - intros front text H. apply no_heading_lines in H.
    unfold PDF.identify_sections, PDF.init.
    rewrite split_on_app, fold_left_app.
    destruct (fold_no_heading [] H) as [buf' ->].
    apply buffer_before_heading.
Qed.

Lemma text_before_first_heading_dropped_witness :
  no_heading (T"Foreword" ++ [nl] ++ T"not a heading")
  /\ PDF.identify_sections (T"Foreword" ++ [nl] ++ T"not a heading") = []
  /\ PDF.identify_sections
       ((T"Foreword" ++ [nl] ++ T"not a heading")
        ++ nl :: T"1 Scope" ++ [nl] ++ T"All vessels.")
     = PDF.identify_sections (T"1 Scope" ++ [nl] ++ T"All vessels.").
Proof.
  assert (H : no_heading (T"Foreword" ++ [nl] ++ T"not a heading")).
  { unfold no_heading. repeat constructor. }
  split; [exact H|]. split.
  - exact (proj1 text_before_first_heading_dropped _ H).
  - exact (proj2 text_before_first_heading_dropped _
             (T"1 Scope" ++ [nl] ++ T"All vessels.") H).
Defined.

Lemma fold_blank_lines : forall lines st,
  Forall (fun l => forallb is_space l = true) lines ->
  fold_left PDF.step lines st = st.
Proof.
  induction lines as [|raw lines IH]; intros st F; [reflexivity|].
  inversion F as [|? ? Hr Hl]; subst. cbn [fold_left].
  rewrite step_blank by now apply strip_all_spaces. now apply IH.
Qed.

(** X11: blank lines do not count: a line of white space only (or several),
    put between two lines of a text, changes nothing in the sections. *)
Theorem blank_lines_ignored :
  forall front blank back : str,
    forallb is_space blank = true ->
    PDF.identify_sections (front ++ nl :: blank ++ nl :: back)
    = PDF.identify_sections (front ++ nl :: back).
Proof.
  intros front blank back H. unfold PDF.identify_sections.
  rewrite !split_on_app, !fold_left_app.
  now rewrite (fold_blank_lines _ (split_on_spaces blank H)).
Qed.

Lemma blank_lines_ignored_witness :
  forallb is_space (T"  " ++ [nl; tab]) = true
  /\ PDF.identify_sections
       (T"1 Scope" ++ nl :: (T"  " ++ [nl; tab]) ++ nl :: T"All vessels.")
     = PDF.identify_sections (T"1 Scope" ++ nl :: T"All vessels.").
Proof.
  split; [reflexivity|].
  apply (@blank_lines_ignored (T"1 Scope") (T"  " ++ [nl; tab])
           (T"All vessels.")).
  reflexivity.
Defined.

(** X12: the segmenter works heading by heading: where a text is cut in
    front of a heading line, the sections of the whole are the sections of
    the part before the cut followed by the sections of the part after it. *)
Theorem sections_of_parts :
  forall (front back heading : str) (others : list str),
    split_on nl back = heading :: others ->
    is_heading (strip heading) = true ->
    PDF.identify_sections (front ++ nl :: back)
    = PDF.identify_sections front ++ PDF.identify_sections back.
Proof.
  intros front back heading others Hs Hh. unfold PDF.identify_sections.
  rewrite split_on_app, fold_left_app, Hs. cbn [fold_left].
  destruct (step_heading heading Hh) as (ty & num & ti & _ & S).
  rewrite !S. rewrite sections_carried. reflexivity.
Qed.

Lemma sections_of_parts_witness :
  split_on nl (T"2 Hull" ++ nl :: T"Steel.") = [T"2 Hull"; T"Steel."]
  /\ is_heading (strip (T"2 Hull")) = true
  /\ PDF.identify_sections
       ((T"1 Scope" ++ nl :: T"All vessels.")
        ++ nl :: (T"2 Hull" ++ nl :: T"Steel."))
     = PDF.identify_sections (T"1 Scope" ++ nl :: T"All vessels.")
       ++ PDF.identify_sections (T"2 Hull" ++ nl :: T"Steel.").
Proof.
  split; [reflexivity|]. split; [reflexivity|].
  apply (@sections_of_parts (T"1 Scope" ++ nl :: T"All vessels.")
           (T"2 Hull" ++ nl :: T"Steel.") (T"2 Hull") [T"Steel."]);
    reflexivity.
Defined.

(** ** Where the sections come from *)

Lemma subseq_nil_l {A : Type} : forall l : list A, subseq [] l.
Proof.
  induction l as [|x l IH]; [apply subseq_nil|now apply subseq_skip].
Qed.

Lemma subseq_app_l {A : Type} : forall (ab l : list A),
  subseq ab l -> forall a b, ab = a ++ b -> subseq a l.
Proof.
  induction 1 as [|x l1 l2 S IH|x l1 l2 S IH]; intros a b E.
  - symmetry in E. apply app_eq_nil in E. destruct E as [-> _]. constructor.
  - apply subseq_skip. now apply IH with b.
  - destruct a as [|y a]; [apply subseq_nil_l|].
    cbn [app] in E. inversion E; subst. apply subseq_keep.
    now apply IH with b.
Qed.

Lemma subseq_snoc_skip {A : Type} (x : A) : forall l1 l2,
  subseq l1 l2 -> subseq l1 (l2 ++ [x]).
Proof.
  induction 1 as [|y l1 l2 S IH|y l1 l2 S IH]; cbn [app].
  - apply subseq_skip, subseq_nil.
  - now apply subseq_skip.
  - now apply subseq_keep.
Qed.

Lemma subseq_snoc_keep {A : Type} (x : A) : forall l1 l2,
  subseq l1 l2 -> subseq (l1 ++ [x]) (l2 ++ [x]).
Proof.
  induction 1 as [|y l1 l2 S IH|y l1 l2 S IH]; cbn [app].
  - apply subseq_keep, subseq_nil.
  - now apply subseq_skip.
  - now apply subseq_keep.
Qed.

(** The type given by the first matching pattern is one of the list. *)
Lemma first_match_type : forall ps line ty num ti,
  PDF.first_match ps line = Some (ty, num, ti) -> In ty (map snd ps).
Proof.
  induction ps as [|[r t] ps IH]; intros line ty num ti H; [discriminate|].
  cbn [PDF.first_match] in H. cbn [map snd].
  destruct (re_match r line) as [c|]; [|right; now apply IH with line num ti].
  left. destruct (PDF.groups r c) as [|n [|ti' gs]]; [discriminate| |];
    now inversion H.
Qed.

(** What is saved are sections that were open, with their headers. *)
Lemma save_section_headers st :
  exists more,
    map PDF.full_header (opened st)
    = map PDF.full_header (PDF.save_section st) ++ more.
Proof.
  unfold opened, PDF.save_section.
  destruct (PDF.current_section st) as [cur|];
    [|exists []; now rewrite !app_nil_r].
  destruct (PDF.content_buffer st).
  - exists [PDF.full_header cur]. now rewrite map_app.
  - exists []. now rewrite !map_app, app_nil_r.
Qed.

Lemma from_heading_with_content s c :
  from_heading s -> from_heading (PDF.with_content s c).
Proof. intros H. exact H. Qed.

Lemma save_section_from_heading st :
  Forall from_heading (opened st) -> Forall from_heading (PDF.save_section st).
Proof.
  unfold opened, PDF.save_section. intros H.
  destruct (PDF.current_section st) as [cur|];
    [|now rewrite app_nil_r in H].
  apply Forall_app in H. destruct H as [H1 H2].
  destruct (PDF.content_buffer st); [assumption|].
  apply Forall_app. split; [assumption|].
  inversion H2; subst. constructor; [|constructor].
  now apply from_heading_with_content.
Qed.

Lemma step_provenance done st raw :
  provenance done st -> provenance (done ++ [raw]) (PDF.step st raw).
Proof.
  intros [Hs Hf]. unfold provenance. rewrite map_app. cbn [map].
  destruct (line_cases raw) as [B|[H|[N H]]].
  - rewrite step_blank by assumption.
    split; [now apply subseq_snoc_skip|assumption].
  - destruct (step_heading raw H) as (ty & num & ti & F & S). rewrite S.
    unfold opened at 1 2. cbn [PDF.sections PDF.current_section].
    split.
    + rewrite map_app. cbn [map PDF.full_header].
      apply subseq_snoc_keep.
      destruct (save_section_headers st) as [more E].
      apply subseq_app_l with (1 := Hs) (b := more). exact E.
    + apply Forall_app. split; [now apply save_section_from_heading|].
      constructor; [|constructor]. exists ti. now split.
  - rewrite step_text by assumption.
    split; [now apply subseq_snoc_skip|assumption].
Qed.

Lemma fold_provenance : forall lines done st,
  provenance done st ->
  provenance (done ++ lines) (fold_left PDF.step lines st).
Proof.
  induction lines as [|raw lines IH]; intros done st P.
  - now rewrite app_nil_r.
  - cbn [fold_left].
    replace (done ++ raw :: lines) with ((done ++ [raw]) ++ lines)
      by now rewrite <- app_assoc.
    apply IH. now apply step_provenance.
Qed.

Lemma identify_sections_provenance text :
  subseq (map PDF.full_header (PDF.identify_sections text)) (lines_of text)
  /\ Forall from_heading (PDF.identify_sections text).
Proof.
  unfold PDF.identify_sections, lines_of.
  assert (P : provenance (split_on nl text)
                (fold_left PDF.step (split_on nl text) PDF.init)).
  { apply (@fold_provenance (split_on nl text) [] PDF.init).
    split; constructor. }
  destruct P as [Hs Hf].
  set (st := fold_left PDF.step (split_on nl text) PDF.init) in *.
  split; [|now apply save_section_from_heading].
  destruct (save_section_headers st) as [more E].
  apply subseq_app_l with (1 := Hs) (b := more). exact E.
Qed.

(** X13: every section of the output was opened by a heading line of the
    text: its header is that line, stripped; its type, number and title are
    what the patterns give for the line; its type is one of the eight of the
    pattern list.  The sections come in the order of their heading lines. *)
Theorem sections_come_from_headings :
  forall text : str,
    subseq (map PDF.full_header (PDF.identify_sections text)) (lines_of text)
    /\ Forall from_heading (PDF.identify_sections text)
    /\ Forall (fun s => In (PDF.type s) section_types)
              (PDF.identify_sections text).
Proof.
  intros text. destruct (identify_sections_provenance text) as [Hs F].
  split; [exact Hs|split; [exact F|]].
  apply Forall_impl with (2 := F). intros s [ti [M _]].
  unfold section_types. now apply first_match_type with (1 := M).
Qed.

(** ** Numbers and titles are never empty *)

Lemma reach_refl p : reach p p.
Proof. now exists []. Qed.

Lemma reach_trans p q r : reach p q -> reach q r -> reach p r.
Proof.
  intros [w1 E1] [w2 E2]. exists (w1 ++ w2). now rewrite E1, E2, app_assoc.
Qed.

(** A part of a pattern without groups: the rest of the pattern runs further
    on, with the same captures. *)
Lemma peel_part m r p c k x :
  run (m ;; r)%re p c k = Some x -> PDF.ngroups m = 0 ->
  exists p1, reach p p1 /\ run r p1 c k = Some x.
Proof.
  rewrite run_seq. intros H N. apply run_sound in H.
  destruct H as (p1 & c1 & (w & E & _) & H & G). rewrite (G N) in H.
  exists p1. split; [now exists w|assumption].
Qed.

(** A group: the rest of the pattern runs further on, with what the group
    read as one more capture. *)
Lemma peel_group n g r p c k x :
  run (Group n g ;; r)%re p c k = Some x ->
  PDF.ngroups g = 0 -> nonnull g = true ->
  exists p1 w,
    w <> [] /\ rest p = w ++ rest p1
    /\ run r p1 ((n, w) :: c) k = Some x.
Proof.
  rewrite run_seq, run_group. intros H N1 N2. apply run_sound in H.
  destruct H as (p1 & c1 & (w & E & Nw) & H & G). rewrite (G N1) in H.
  exists p1, w. rewrite (@consumed_suffix p p1 w E) in H.
  split; [now apply Nw|]. now split.
Qed.

(** The end of every heading pattern: the title and the end of the line. *)
Lemma title_group p c c' p' :
  run (Group 2 (plus_lazy any) ;; Eol)%re p c accept = Some (c', p') ->
  exists t,
    t <> [] /\ rest p = t ++ rest p' /\ c' = (2, t) :: c
    /\ at_eol p' = true.
Proof.
  intros H. apply peel_group in H; [|reflexivity|reflexivity].
  destruct H as (p1 & t & Nt & E & H). cbn [run] in H.
  destruct (at_eol p1) eqn:A; [|discriminate]. unfold accept in H.
  inversion H; subst c' p'; clear H.
  exists t. now repeat split.
Qed.

(** On a line without a newline, [$] is the end of the line. *)
Lemma at_eol_end p : at_eol p = true -> ~ In nl (rest p) -> rest p = [].
Proof.
  unfold at_eol. destruct (rest p) as [|a [|b s]]; intros H N;
    [reflexivity| |discriminate].
  apply Ascii.eqb_eq in H. subst a. exfalso. apply N. now left.
Qed.

Lemma reach_in p p' x : reach p p' -> In x (rest p') -> In x (rest p).
Proof. intros [w E] H. rewrite E. apply in_or_app. now right. Qed.

(** The pattern from its first group on, at any position of the line. *)
Lemma from_first_group g r0 p c p' :
  PDF.ngroups g = 0 -> nonnull g = true ->
  (forall q k x, run r0 q [(1, k)] accept = Some x ->
     exists q2, reach q q2
                /\ run (Group 2 (plus_lazy any) ;; Eol)%re q2 [(1, k)] accept
                   = Some x) ->
  run (Group 1 g ;; r0)%re p [] accept = Some (c, p') ->
  ~ In nl (rest p) ->
  grp 1 c <> [] /\ grp 2 c <> [] /\ exists w, rest p = w ++ grp 2 c.
Proof.
  intros N1 N2 Hmid H Hnl.
  apply peel_group in H; [|assumption|assumption].
  destruct H as (p1 & n & Nn & E1 & H).
  apply Hmid in H. destruct H as (p2 & R2 & H).
  apply title_group in H. destruct H as (t & Nt & E2 & -> & A).
  assert (R1 : reach p p1) by now exists n.
  assert (Rp : reach p p2) by now apply reach_trans with p1.
  assert (Er : rest p' = []).
  { apply at_eol_end; [assumption|]. intros I. apply Hnl.
    apply reach_in with p2; [assumption|]. rewrite E2.
    apply in_or_app. now right. }
  rewrite Er, app_nil_r in E2.
  change (grp 1 [(2, t); (1, n)]) with n.
  change (grp 2 [(2, t); (1, n)]) with t.
  split; [assumption|]. split; [assumption|].
  destruct Rp as [w Ew]. exists w. now rewrite Ew, E2.
Qed.

Lemma tail_after_space q k x :
  run PDF.heading_tail q [(1, k)] accept = Some x ->
  exists q2, reach q q2
             /\ run (Group 2 (plus_lazy any) ;; Eol)%re q2 [(1, k)] accept
                = Some x.
Proof.
  unfold PDF.heading_tail. intros H. now apply peel_part in H.
Qed.

Lemma tail_after_dot q k x :
  run (chr "." ;; PDF.heading_tail)%re q [(1, k)] accept = Some x ->
  exists q2, reach q q2
             /\ run (Group 2 (plus_lazy any) ;; Eol)%re q2 [(1, k)] accept
                = Some x.
Proof.
  intros H. apply peel_part in H; [|reflexivity].
  destruct H as (q1 & R1 & H). apply tail_after_space in H.
  destruct H as (q2 & R2 & H). exists q2.
  split; [now apply reach_trans with q1|assumption].
Qed.

Lemma tail_after_dash q k x :
  run (star ws ;; Chr PDF.dash_i ;; star ws ;; Group 2 (plus_lazy any) ;; Eol)%re
      q [(1, k)] accept = Some x ->
  exists q2, reach q q2
             /\ run (Group 2 (plus_lazy any) ;; Eol)%re q2 [(1, k)] accept
                = Some x.
Proof.
  intros H. apply peel_part in H; [|reflexivity].
  destruct H as (q1 & R1 & H). apply peel_part in H; [|reflexivity].
  destruct H as (q2 & R2 & H). apply peel_part in H; [|reflexivity].
  destruct H as (q3 & R3 & H). exists q3. split; [|assumption].
  apply reach_trans with q1; [assumption|].
  now apply reach_trans with q2.
Qed.

(** A heading pattern that starts with its first group. *)
Lemma heading_pattern g r0 :
  PDF.ngroups g = 0 -> nonnull g = true ->
  (forall q k x, run r0 q [(1, k)] accept = Some x ->
     exists q2, reach q q2
                /\ run (Group 2 (plus_lazy any) ;; Eol)%re q2 [(1, k)] accept
                   = Some x) ->
  heading_groups (Bol false ;; Group 1 g ;; r0)%re.
Proof.
  intros N1 N2 Hmid line c H Hnl. apply re_match_some in H.
  destruct H as [p' H]. rewrite run_seq, run_bol in H.
  cbn [at_bol before] in H.
  exact (@from_first_group g r0 _ c p' N1 N2 Hmid H Hnl).
Qed.

(** A heading pattern that starts with a word. *)
Lemma heading_pattern_word pre g r0 :
  PDF.ngroups pre = 0 -> PDF.ngroups g = 0 -> nonnull g = true ->
  (forall q k x, run r0 q [(1, k)] accept = Some x ->
     exists q2, reach q q2
                /\ run (Group 2 (plus_lazy any) ;; Eol)%re q2 [(1, k)] accept
                   = Some x) ->
  heading_groups (Bol false ;; pre ;; Group 1 g ;; r0)%re.
Proof.
  intros N0 N1 N2 Hmid line c H Hnl. apply re_match_some in H.
  destruct H as [p' H]. rewrite run_seq, run_bol in H.
  cbn [at_bol before] in H. apply peel_part in H; [|assumption].
  destruct H as (p1 & R1 & H).
  assert (Hnl1 : ~ In nl (rest p1)).
  { intros I. apply Hnl. exact (@reach_in _ p1 nl R1 I). }
  destruct (@from_first_group g r0 p1 c p' N1 N2 Hmid H Hnl1)
    as (G1 & G2 & w & E).
  split; [assumption|]. split; [assumption|].
  destruct R1 as [w0 E0]. cbn [rest] in E0. exists (w0 ++ w).
  now rewrite E0, E, app_assoc.
Qed.

(** Each of the eight patterns gives a number and a title. *)
Lemma patterns_heading_groups :
  Forall (fun rt => heading_groups (fst rt)) PDF.patterns.
Proof.
  unfold PDF.patterns.
  apply Forall_cons;
    [apply heading_pattern_word;
       [reflexivity|reflexivity|reflexivity|apply tail_after_space]|].
  apply Forall_cons;
    [apply heading_pattern_word;
       [reflexivity|reflexivity|reflexivity|apply tail_after_space]|].
  apply Forall_cons;
    [apply heading_pattern; [reflexivity|reflexivity|apply tail_after_space]|].
  apply Forall_cons;
    [apply heading_pattern; [reflexivity|reflexivity|apply tail_after_space]|].
  apply Forall_cons;
    [apply heading_pattern; [reflexivity|reflexivity|apply tail_after_space]|].
  apply Forall_cons;
    [apply heading_pattern; [reflexivity|reflexivity|apply tail_after_dot]|].
  apply Forall_cons;
    [apply heading_pattern_word;
       [reflexivity|reflexivity|reflexivity|apply tail_after_dash]|].
  apply Forall_cons;
    [apply heading_pattern_word;
       [reflexivity|reflexivity|reflexivity|apply tail_after_dash]|].
  apply Forall_nil.
Qed.

Lemma patterns_two_groups :
  Forall (fun rt => PDF.ngroups (fst rt) = 2) PDF.patterns.
Proof. unfold PDF.patterns. repeat (apply Forall_cons; [reflexivity|]). apply Forall_nil. Qed.

(** The number and the title of the first match are the two groups of a
    pattern of the list. *)
Lemma first_match_groups : forall ps line ty num ti,
  Forall (fun rt => PDF.ngroups (fst rt) = 2) ps ->
  PDF.first_match ps line = Some (ty, num, ti) ->
  exists r c, In (r, ty) ps /\ re_match r line = Some c
              /\ num = grp 1 c /\ ti = grp 2 c.
Proof.
  induction ps as [|[r t] ps IH]; intros line ty num ti F H; [discriminate|].
  inversion F as [|? ? F1 F2]; subst. cbn [fst] in F1.
  cbn [PDF.first_match] in H.
  destruct (re_match r line) as [c|] eqn:M.
  - unfold PDF.groups in H. rewrite F1 in H. cbn [seq map] in H.
    inversion H; subst. exists r, c. repeat split; try assumption. now left.
  - destruct (IH line ty num ti F2 H) as (r' & c & I & M' & E1 & E2).
    exists r', c. repeat split; try assumption. now right.
Qed.

Lemma split_on_no_sep c : forall s l, In l (split_on c s) -> ~ In c l.
Proof.
  induction s as [|a s IH]; intros l H.
  - cbn in H. destruct H as [<-|[]]. intros [].
  - cbn [split_on] in H. destruct (Ascii.eqb a c) eqn:E.
    + destruct H as [<-|H]; [intros []|now apply IH].
    + pose proof (split_on_not_nil c s) as N.
      destruct (split_on c s) as [|p ps]; [congruence|].
      destruct H as [<-|H].
      * intros [->|I]; [now rewrite Ascii.eqb_refl in E|].
        apply (IH p); [now left|assumption].
      * apply IH. now right.
Qed.

Lemma in_lstrip x s : In x (lstrip s) -> In x s.
Proof.
  intros H. destruct (lstrip_split s) as (w & E & _). rewrite E.
  apply in_or_app. now right.
Qed.

Lemma in_strip x s : In x (strip s) -> In x s.
Proof.
  unfold strip, rstrip. intros H. apply in_rev, in_lstrip, in_rev in H.
  now apply in_lstrip.
Qed.

Lemma subseq_in {A : Type} (x : A) : forall l1 l2,
  subseq l1 l2 -> In x l1 -> In x l2.
Proof.
  induction 1 as [|y l1 l2 S IH|y l1 l2 S IH]; intros H.
  - assumption.
  - right. now apply IH.
  - destruct H as [<-|H]; [now left|right; now apply IH].
Qed.

Lemma strip_not_nil s : s <> [] -> tl_space s = false -> strip s <> [].
Proof.
  intros N Ht. unfold strip.
  destruct (lstrip_split s) as (w & E & Fw).
  assert (L : lstrip s <> []).
  { intros L. rewrite L, app_nil_r in E. subst w.
    rewrite tl_space_all in Ht by assumption. discriminate. }
  rewrite rstrip_id; [assumption|].
  rewrite E in Ht. now rewrite tl_space_app in Ht.
Qed.

(** X14: every section of the output has a number and a title, neither of
    them empty. *)
Theorem sections_have_number_and_title :
  forall text : str,
    Forall (fun s => PDF.number s <> [] /\ PDF.title s <> [])
           (PDF.identify_sections text).
Proof.
  intros text. destruct (identify_sections_provenance text) as [Hs F].
  rewrite Forall_forall in *. intros s Hin.
  destruct (F s Hin) as (ti & M & Et).
  assert (Hl : In (PDF.full_header s) (lines_of text)).
  { apply subseq_in with (1 := Hs). now apply in_map. }
  unfold lines_of in Hl. apply in_map_iff in Hl.
  destruct Hl as (raw & Er & Hraw).
  assert (Hnl : ~ In nl (PDF.full_header s)).
  { rewrite <- Er. intros I. apply in_strip in I.
    exact (split_on_no_sep nl text raw Hraw I). }
  destruct (first_match_groups _ patterns_two_groups M)
    as (r & c & Ir & Mr & -> & ->).
  pose proof patterns_heading_groups as P. rewrite Forall_forall in P.
  destruct (P _ Ir _ _ Mr Hnl) as (G1 & G2 & w & Ew).
  split; [assumption|]. rewrite Et. apply strip_not_nil; [assumption|].
  assert (Ht : tl_space (PDF.full_header s) = false)
    by (rewrite <- Er; apply strip_ends).
  rewrite Ew in Ht. now rewrite tl_space_app in Ht.
Qed.

(** ** Pages of white space, pages of one line *)

Lemma match_reach r p c p' : match_at r p = Some (c, p') -> reach p p'.
Proof.
  unfold match_at. intros H. apply run_sound in H.
  destruct H as (p1 & c1 & (w & E & _) & H & _). unfold accept in H.
  inversion H; subst. now exists w.
Qed.

(** What [re.sub] writes is made of characters of the subject and of the
    replacements. *)
Lemma scan_all (f : ascii -> bool) r repl p out :
  (forall c, forallb f (repl c) = true) ->
  Scan r repl p out ->
  forallb f (rest p) = true -> forallb f out = true.
Proof.
  intros Hr.
  induction 1 as [b M | b a s out M Sc IH | p c p' out M L Sc IH
                 | b c p' M | b a s c p' out M L Sc IH]; intros H.
  - reflexivity.
  - cbn [rest advance forallb] in *. apply andb_prop in H.
    destruct H as [Ha Hs]. now rewrite Ha, IH.
  - rewrite forallb_app, Hr. apply IH.
    destruct (match_reach _ _ M) as [w E]. rewrite E in H.
    now apply forallb_suffix in H.
  - apply Hr.
  - cbn [rest advance] in *. rewrite forallb_app, Hr.
    cbn [forallb] in *. apply andb_prop in H. destruct H as [Ha Hs].
    now rewrite Ha, IH.
Qed.

Lemma re_sub_all (f : ascii -> bool) r repl s :
  (forall c, forallb f (repl c) = true) ->
  forallb f s = true -> forallb f (re_sub r repl s) = true.
Proof.
  intros Hr H. exact (scan_all f Hr (re_sub_scan r repl s) H).
Qed.

Lemma space_not_word a : is_space a = true -> is_word a = false.
Proof. ascii_cases a; intros H; try discriminate H; reflexivity. Qed.

(** A broken word starts with a word character and has a newline. *)
Lemma hyphen_break_match p c p' :
  match_at PDF.hyphen_break p = Some (c, p') ->
  hd_space (rest p) = false /\ In nl (rest p).
Proof.
  unfold match_at, PDF.hyphen_break. intros H.
  assert (Hw : hd_space (rest p) = false).
  { rewrite run_seq, run_group in H. unfold plus, wordc in H.
    rewrite run_seq in H. apply inv_chr in H.
    destruct H as (a & s & E & Fa & _). rewrite E. cbn [hd_space].
    destruct (is_space a) eqn:Sa; [|reflexivity].
    apply space_not_word in Sa. congruence. }
  split; [exact Hw|].
  apply peel_group in H; [|reflexivity|reflexivity].
  destruct H as (p1 & w & _ & E1 & H).
  apply peel_part in H; [|reflexivity]. destruct H as (p2 & R2 & H).
  apply peel_part in H; [|reflexivity]. destruct H as (p3 & R3 & H).
  unfold chr in H. rewrite run_seq in H. apply inv_chr in H.
  destruct H as (a & s & E & Fa & _). apply Ascii.eqb_eq in Fa. subst a.
  assert (R1 : reach p p1) by now exists w.
  apply reach_in with p1; [exact R1|]. apply reach_in with p2; [exact R2|].
  apply reach_in with p3; [exact R3|]. rewrite E. now left.
Qed.

Lemma starts_with_newline r p c p' :
  match_at (chr nl ;; r)%re p = Some (c, p') -> hd_error (rest p) = Some nl.
Proof.
  unfold match_at, chr. rewrite run_seq. intros H. apply inv_chr in H.
  destruct H as (a & s & E & Fa & _). apply Ascii.eqb_eq in Fa. subst a.
  now rewrite E.
Qed.

Lemma no_newline s : forallb dot s = true -> ~ In nl s.
Proof.
  intros H I. rewrite forallb_forall in H. specialize (H nl I).
  discriminate H.
Qed.

(** A pattern that needs a newline matches nowhere in a text without one. *)
Lemma re_sub_needs_newline r repl s :
  (forall p c p', match_at r p = Some (c, p') -> In nl (rest p)) ->
  forallb dot s = true -> re_sub r repl s = s.
Proof.
  intros Hm H. apply re_sub_no_match. intros b w s' E.
  destruct (match_at r (mkpos b s')) as [[c p']|] eqn:M; [|reflexivity].
  exfalso. apply Hm in M. cbn [rest] in M. rewrite E in H.
  apply forallb_suffix in H. exact (no_newline _ H M).
Qed.

Lemma newline_first r p c p' :
  match_at (chr nl ;; r)%re p = Some (c, p') -> In nl (rest p).
Proof.
  intros H. apply starts_with_newline in H.
  destruct (rest p) as [|a s]; [discriminate|].
  inversion H; subst. now left.
Qed.

Lemma hyphen_break_newline p c p' :
  match_at PDF.hyphen_break p = Some (c, p') -> In nl (rest p).
Proof. intros H. now apply hyphen_break_match in H. Qed.

Lemma drop_boilerplate_one_line s :
  forallb dot s = true -> PDF.drop_boilerplate s = s.
Proof.
  intros H. unfold PDF.drop_boilerplate, PDF.page_line, PDF.abs_line,
    PDF.part7_line.
  rewrite (@re_sub_needs_newline _ _ _ (@newline_first _) H).
  rewrite (@re_sub_needs_newline _ _ _ (@newline_first _) H).
  now rewrite (@re_sub_needs_newline _ _ _ (@newline_first _) H).
Qed.

(** X15: on a text without a newline, [clean_text] only replaces the runs of
    spaces and tabs by one space and strips the ends: the other rules (blank
    lines, broken words, page headers and footers) need a newline to match. *)
Theorem clean_text_one_line :
  forall text : str,
    forallb dot text = true ->
    PDF.clean_text text = strip (PDF.collapse_blanks text).
Proof.
  intros text H. unfold PDF.clean_text, PDF.collapse_newlines.
  unfold PDF.blank_lines at 1.
  rewrite (@re_sub_needs_newline _ _ _ (@newline_first _) H).
  assert (H2 : forallb dot (PDF.collapse_blanks text) = true).
  { unfold PDF.collapse_blanks. apply re_sub_all; [reflexivity|assumption]. }
  unfold PDF.rejoin_hyphens.
  rewrite (@re_sub_needs_newline _ _ _ hyphen_break_newline H2).
  now rewrite drop_boilerplate_one_line.
Qed.

Lemma clean_text_one_line_witness :
  forallb dot (T"  Page 3   of" ++ [tab] ++ T"9 ") = true
  /\ PDF.clean_text (T"  Page 3   of" ++ [tab] ++ T"9 ")
     = strip (PDF.collapse_blanks (T"  Page 3   of" ++ [tab] ++ T"9 ")).
Proof.
  split; [reflexivity|].
  apply (clean_text_one_line (T"  Page 3   of" ++ [tab] ++ T"9 ")).
  reflexivity.
Defined.

(** White space only stays white space only through the rules. *)
Lemma clean_text_blank w : forallb is_space w = true -> PDF.clean_text w = [].
Proof.
  intros H. unfold PDF.clean_text. apply strip_all_spaces.
  assert (H1 : forallb is_space (PDF.collapse_newlines w) = true)
    by (apply re_sub_all; [reflexivity|assumption]).
  assert (H2 : forallb is_space
                 (PDF.collapse_blanks (PDF.collapse_newlines w)) = true)
    by (apply re_sub_all; [reflexivity|assumption]).
  set (u := PDF.collapse_blanks (PDF.collapse_newlines w)) in *.
  assert (E : PDF.rejoin_hyphens u = u).
  { apply re_sub_no_match. intros b w0 s' Eu.
    destruct (match_at PDF.hyphen_break (mkpos b s')) as [[c p']|] eqn:M;
      [|reflexivity].
    exfalso. apply hyphen_break_match in M. cbn [rest] in M.
    destruct M as [Hh Hn]. rewrite Eu in H2. apply forallb_suffix in H2.
    destruct s' as [|a s']; [contradiction|].
    cbn [forallb hd_space] in *. apply andb_prop in H2. destruct H2.
    congruence. }
  rewrite E. unfold PDF.drop_boilerplate.
  repeat (apply re_sub_all; [reflexivity|]). assumption.
Qed.

(** X16: a page of white space only adds nothing: the text gathered and the
    final document are those of the same pages without it. *)
Theorem blank_page_skipped :
  forall (before after : list PDF.page) (blank : str) bookmarks,
    forallb is_space blank = true ->
    PDF.full_text (PDF.mkpdf (before ++ PDF.PageText blank :: after) bookmarks)
    = PDF.full_text (PDF.mkpdf (before ++ after) bookmarks)
    /\ PDF.parse_full_document
         (Some (PDF.mkpdf (before ++ PDF.PageText blank :: after) bookmarks))
       = PDF.parse_full_document
           (Some (PDF.mkpdf (before ++ after) bookmarks)).
Proof.
  intros before after blank bookmarks H.
  assert (Hft : PDF.full_text
                  (PDF.mkpdf (before ++ PDF.PageText blank :: after) bookmarks)
                = PDF.full_text (PDF.mkpdf (before ++ after) bookmarks)).
  { rewrite !full_text_pages. cbn [PDF.pages]. rewrite !flat_map_app.
    cbn [flat_map page_contribution]. rewrite (clean_text_blank _ H).
    cbn [is_empty]. now destruct (is_empty blank). }
  split; [exact Hft|]. unfold PDF.parse_full_document. now rewrite Hft.
Qed.

Lemma blank_page_skipped_witness :
  let before := [PDF.PageText (T"1 Scope")] in
  let after := [PDF.PageText (T"All vessels.")] in
  let blank := T"  " ++ [nl; tab; nl] in
  forallb is_space blank = true
  /\ PDF.full_text (PDF.mkpdf (before ++ PDF.PageText blank :: after) None)
     = PDF.full_text (PDF.mkpdf (before ++ after) None)
  /\ PDF.parse_full_document
       (Some (PDF.mkpdf (before ++ PDF.PageText blank :: after) None))
     = PDF.parse_full_document (Some (PDF.mkpdf (before ++ after) None)).
Proof.
  intros before after blank. split; [reflexivity|].
  apply (@blank_page_skipped before after blank None).
  reflexivity.
Defined.

(** ** Plain prose *)

Lemma mark_in_reach p p1 a s :
  reach p p1 -> rest p1 = a :: s -> list_mark a = true ->
  existsb list_mark (rest p) = true.
Proof.
  intros [w E] E1 M. rewrite E, E1, existsb_app. cbn [existsb].
  rewrite M. cbn [orb]. apply orb_true_r.
Qed.

Lemma bullet_needs_mark p x :
  match_at PDF.bullet_re p = Some x -> existsb list_mark (rest p) = true.
Proof.
  unfold match_at, PDF.bullet_re. rewrite run_seq, run_bol.
  destruct (at_bol true p); [|discriminate].
  rewrite run_seq. intros H. apply inv_chr in H.
  destruct H as (a & s & E & Fa & _).
  apply (@mark_in_reach p p a s (reach_refl p) E).
  unfold list_mark. now rewrite Fa, orb_true_r.
Qed.

Lemma letter_item_needs_mark p x :
  match_at PDF.letter_item_re p = Some x ->
  existsb list_mark (rest p) = true.
Proof.
  unfold match_at, PDF.letter_item_re. rewrite run_seq, run_bol.
  destruct (at_bol true p); [|discriminate]. intros H.
  apply peel_part in H; [|reflexivity]. destruct H as (p1 & R & H).
  unfold chr in H. rewrite run_seq in H. apply inv_chr in H.
  destruct H as (a & s & E & Fa & _).
  apply (@mark_in_reach p p1 a s R E).
  unfold list_mark. now rewrite Fa, orb_true_r.
Qed.

Lemma number_item_needs_mark p x :
  match_at PDF.number_item_re p = Some x ->
  existsb list_mark (rest p) = true.
Proof.
  unfold match_at, PDF.number_item_re. rewrite run_seq, run_bol.
  destruct (at_bol true p); [|discriminate]. intros H.
  apply peel_part in H; [|reflexivity]. destruct H as (p1 & R & H).
  unfold digit in H. rewrite run_seq in H. apply inv_plus in H.
  destruct H as (a & w & s & E & Fa & _).
  apply (@mark_in_reach p p1 a (w ++ s) R E).
  unfold list_mark. now rewrite Fa.
Qed.

Lemma xref_needs_mark p x :
  match_at PDF.xref_re p = Some x -> existsb list_mark (rest p) = true.
Proof.
  unfold match_at, PDF.xref_re. rewrite run_seq, run_wordb.
  destruct (at_wordb p); [|discriminate].
  rewrite run_seq, run_group, run_seq. unfold digit. intros H.
  apply inv_plus in H. destruct H as (a & w & s & E & Fa & _).
  apply (@mark_in_reach p p a (w ++ s) (reach_refl p) E).
  unfold list_mark. now rewrite Fa.
Qed.

Lemma section_ref_needs_mark p x :
  match_at PDF.section_ref_re p = Some x -> existsb list_mark (rest p) = true.
Proof.
  unfold match_at, PDF.section_ref_re. rewrite run_seq, run_wordb.
  destruct (at_wordb p); [|discriminate].
  rewrite run_seq, run_group. intros H.
  apply peel_part in H; [|reflexivity]. destruct H as (p1 & R & H).
  unfold digit in H. apply inv_plus in H.
  destruct H as (a & w & s & E & Fa & _).
  apply (@mark_in_reach p p1 a (w ++ s) R E).
  unfold list_mark. now rewrite Fa.
Qed.

Lemma chapter_ref_needs_mark p x :
  match_at PDF.chapter_ref_re p = Some x -> existsb list_mark (rest p) = true.
Proof.
  unfold match_at, PDF.chapter_ref_re. rewrite run_seq, run_wordb.
  destruct (at_wordb p); [|discriminate].
  rewrite run_seq, run_group. intros H.
  apply peel_part in H; [|reflexivity]. destruct H as (p1 & R & H).
  unfold digit in H. apply inv_plus in H.
  destruct H as (a & w & s & E & Fa & _).
  apply (@mark_in_reach p p1 a (w ++ s) R E).
  unfold list_mark. now rewrite Fa.
Qed.

(** A pattern that needs one of the marks matches nowhere in a text without
    them. *)
Lemma re_sub_needs_mark r repl s :
  (forall p x, match_at r p = Some x -> existsb list_mark (rest p) = true) ->
  existsb list_mark s = false -> re_sub r repl s = s.
Proof.
  intros Hm H. apply re_sub_no_match. intros b w s' E.
  destruct (match_at r (mkpos b s')) as [x|] eqn:M; [|reflexivity].
  exfalso. apply Hm in M. cbn [rest] in M.
  rewrite E, existsb_app in H. apply orb_false_iff in H.
  destruct H as [_ H]. congruence.
Qed.

Lemma emphasis_needs_keyword text :
  no_keyword text = true -> PDF.format_emphasis text = text.
Proof.
  intros H. unfold no_keyword in H. rewrite forallb_app in H.
  apply andb_prop in H. destruct H as [Hm Hp].
  unfold PDF.format_emphasis.
  assert (E : re_sub PDF.mandatory_re PDF.bold text = text).
  { apply re_sub_no_match. intros b w s' Es.
    destruct (match_at PDF.mandatory_re (mkpos b s')) as [x|] eqn:M;
      [|reflexivity].
    apply mandatory_match in M. cbn [rest] in M.
    now rewrite (@no_word_no_match _ text w s' Hm Es) in M. }
  rewrite E. apply re_sub_no_match. intros b w s' Es.
  destruct (match_at PDF.permissive_re (mkpos b s')) as [x|] eqn:M;
    [|reflexivity].
  apply permissive_match in M. cbn [rest] in M.
  now rewrite (@no_word_no_match _ text w s' Hp Es) in M.
Qed.

(** X17: [format_content] leaves plain prose as it is: a text of code points
    below 256 without a digit, without one of the bullet characters '-',
    U+00C4 and U+00A2, without an opening parenthesis and without a key word
    goes through the list, reference and emphasis rules unchanged.  (The
    fourth bullet character of the source, U+201A, lies outside the range of
    the texts of this model.) *)
Theorem format_content_plain_prose :
  forall text : str,
    existsb list_mark text = false -> no_keyword text = true ->
    PDF.format_content text = text.
Proof.
  intros text H K.
  unfold PDF.format_content, PDF.format_lists, PDF.format_references.
  cbv zeta.
  rewrite (@re_sub_needs_mark _ _ _ bullet_needs_mark H).
  rewrite (@re_sub_needs_mark _ _ _ letter_item_needs_mark H).
  rewrite (@re_sub_needs_mark _ _ _ number_item_needs_mark H).
  rewrite (@re_sub_needs_mark _ _ _ xref_needs_mark H).
  rewrite (@re_sub_needs_mark _ _ _ section_ref_needs_mark H).
  rewrite (@re_sub_needs_mark _ _ _ chapter_ref_needs_mark H).
  now apply emphasis_needs_keyword.
Qed.

Lemma format_content_plain_prose_witness :
  existsb list_mark (T"The hull is inspected every year.") = false
  /\ no_keyword (T"The hull is inspected every year.") = true
  /\ PDF.format_content (T"The hull is inspected every year.")
     = T"The hull is inspected every year.".
Proof.
  split; [reflexivity|]. split; [reflexivity|].
  apply (format_content_plain_prose (T"The hull is inspected every year."));
    reflexivity.
Defined.

(** ** The formatted document *)

Lemma fold_blocks : forall secs acc,
  fold_left (fun acc s => acc ++ PDF.section_blocks s) secs acc
  = acc ++ flat_map PDF.section_blocks secs.
Proof.
  induction secs as [|s secs IH]; intros acc; cbn [fold_left flat_map].
  - now rewrite app_nil_r.
  - now rewrite IH, app_assoc.
Qed.

Lemma join_app sep : forall l1 l2 : list str,
  l1 <> [] -> l2 <> [] ->
  join sep (l1 ++ l2) = join sep l1 ++ sep ++ join sep l2.
Proof.
  induction l1 as [|a l1 IH]; intros l2 N1 N2; [congruence|].
  destruct l1 as [|b l1].
  - destruct l2 as [|c l2]; [congruence|]. reflexivity.
  - change (join sep ((a :: b :: l1) ++ l2))
      with (a ++ sep ++ join sep ((b :: l1) ++ l2)).
    rewrite IH by (assumption || discriminate).
    change (join sep (a :: b :: l1)) with (a ++ sep ++ join sep (b :: l1)).
    now rewrite <- !app_assoc.
Qed.

Lemma format_head secs :
  exists body, PDF.format_for_vector_storage secs = document_head ++ body.
Proof.
  unfold PDF.format_for_vector_storage. rewrite fold_blocks.
  cbn [app].
  set (h1 := T"# ABS Rules for Survey After Construction - Part 7" ++ [nl]).
  set (h2 := T"*American Bureau of Shipping Classification Rules*" ++ [nl]).
  destruct (join_head [nl] h2 (flat_map PDF.section_blocks secs)) as [x E].
  exists x.
  transitivity (h1 ++ [nl] ++ h2 ++ x); [now rewrite <- E|].
  unfold document_head, h1, h2. now rewrite <- !app_assoc.
Qed.

(** X18: the formatted text opens with the two fixed lines of the document,
    and each section adds its blocks at the end: a blank line, its heading
    and, when it has content, the formatted content. *)
Theorem format_appends_sections :
  (forall secs,
     exists body, PDF.format_for_vector_storage secs = document_head ++ body)
  /\ (forall secs s,
        PDF.format_for_vector_storage (secs ++ [s])
        = PDF.format_for_vector_storage secs
          ++ [nl; nl] ++ PDF.heading_of s ++ [nl]
          ++ (if is_empty (PDF.content s) then []
              else [nl] ++ PDF.format_content (PDF.content s) ++ [nl])).
Proof.
  split; [exact format_head|]. intros secs s.
  unfold PDF.format_for_vector_storage. rewrite fold_left_app.
  cbn [fold_left]. rewrite fold_blocks.
  rewrite join_app.
  - f_equal. unfold PDF.section_blocks.
    destruct (is_empty (PDF.content s)); cbn [join app];
      rewrite <- ?app_assoc, ?app_nil_r; reflexivity.
  - discriminate.
  - discriminate.
Qed.

(** X19: the parser returns the empty text only for a document that could not
    be opened; for an open document the text holds at least the two fixed
    lines. *)
Theorem parse_full_document_empty_iff :
  forall doc, PDF.parse_full_document doc = [] <-> doc = None.
Proof.
  intros [d|]; split; try reflexivity; try discriminate.
  unfold PDF.parse_full_document. intros H. exfalso.
  apply app_eq_nil in H. destruct H as [_ H].
  destruct (format_head (PDF.identify_sections (PDF.full_text d))) as [x E].
  rewrite E in H. discriminate H.
Qed.

(** ** Sections and notes of the tree *)

Lemma each_child_none process div_tag level : forall cs content ctx,
  filter (XML.is_child_division div_tag) cs = [] ->
  XML.each_child process div_tag level cs content ctx = (content, ctx).
Proof.
  induction cs as [|child cs IH]; intros content ctx H; [reflexivity|].
  cbn [XML.each_child filter] in *.
  destruct (XML.is_child_division div_tag child); [discriminate|].
  now apply IH.
Qed.

(** X20: the two renderers of a section agree: for an element of type SECTION
    without authority, source, editorial note, citation and child division,
    [process_division] gives the text of [process_section], whatever the
    context and the level. *)
Theorem process_division_as_section :
  forall e ctx level,
    XML.upper (XML.get e (T"TYPE") []) = T"SECTION" ->
    XML.find (T"AUTH") e = None ->
    XML.find (T"SOURCE") e = None ->
    XML.find (T"EDNOTE") e = None ->
    XML.findall (T"CITA") e = [] ->
    child_divisions e = [] ->
    fst (XML.process_division ctx e level) = XML.process_section e.
Proof.
  intros [div_tag attrs txt kids tl] ctx level Ht Ha Hs He Hc Hd.
  unfold child_divisions in Hd. cbn [XML.tag XML.children] in Hd.
  unfold XML.process_section. cbn [XML.process_division].
  rewrite Ht, Ha, Hs, He, Hc. cbn [XML.optional]. rewrite !app_nil_r.
  rewrite each_child_none by exact Hd. cbn [fst]. reflexivity.
Qed.

Lemma process_division_as_section_witness :
  let e :=
    XML.mkElement (T"DIV8") [(T"N", T"1.5"); (T"TYPE", T"Section")] None
      [ text_element (T"HEAD") (T"1.5 Scope.");
        text_element (T"P") (T"(a) This part applies.");
        text_element (T"P") (T"(b) It does not apply ashore.") ] None in
  XML.upper (XML.get e (T"TYPE") []) = T"SECTION"
  /\ XML.find (T"AUTH") e = None
  /\ XML.find (T"SOURCE") e = None
  /\ XML.find (T"EDNOTE") e = None
  /\ XML.findall (T"CITA") e = []
  /\ child_divisions e = []
  /\ fst (XML.process_division XML.empty_context e 3) = XML.process_section e.
Proof.
  intros e. repeat (split; [reflexivity|]).
  apply (process_division_as_section e XML.empty_context 3); reflexivity.
Defined.

Lemma join_blank_end sep : forall l : list str,
  l <> [] -> join sep (l ++ [[]]) = join sep l ++ sep.
Proof.
  intros l N. rewrite join_app by (assumption || discriminate).
  cbn [join]. now rewrite app_nil_r.
Qed.

(** X21: an editorial note writes nothing when it has no heading and no
    paragraph; otherwise its blocks, joined by line breaks, are followed by
    one more line break. *)
Theorem editorial_note_ends_line :
  forall e,
    (XML.find (T"HED") e = None
     /\ XML.findall (T"PSPACE") e = [] /\ XML.findall (T"P") e = []
     <-> XML.process_editorial_note e = [])
    /\ (XML.process_editorial_note e = []
        \/ exists body, XML.process_editorial_note e = body ++ [nl]).
Proof.
  intros e. unfold XML.process_editorial_note, XML.findall.
  set (hed := XML.optional (XML.find (T"HED") e)
                (fun hed => [nl] ++ T"**" ++ XML.extract_text_content hed
                            ++ T"**")).
  set (pars := filter (fun child => str_eqb (XML.tag child) (T"PSPACE")
                                    || str_eqb (XML.tag child) (T"P"))
                      (XML.children e)).
  assert (Hp : filter (fun c => str_eqb (XML.tag c) (T"PSPACE")) (XML.children e)
               = []
               /\ filter (fun c => str_eqb (XML.tag c) (T"P")) (XML.children e)
                  = []
               <-> pars = []).
  { unfold pars. induction (XML.children e) as [|c cs IH]; [tauto|].
    cbn [filter].
    destruct (str_eqb (XML.tag c) (T"PSPACE")), (str_eqb (XML.tag c) (T"P"));
      cbn [orb]; try (split; [intros [? ?]|intros ?]; discriminate).
    exact IH. }
  assert (Hn : forall l : list str, l <> [] ->
               join [nl] (l ++ [[]]) <> []).
  { intros l N. rewrite (join_blank_end _ N).
    intros E. apply app_eq_nil in E. destruct E as [_ E]. discriminate. }
  destruct (hed ++ map XML.extract_text_content pars) as [|b bs] eqn:C.
  - apply app_eq_nil in C. destruct C as [Ch Cm].
    apply map_eq_nil in Cm. split; [|now left].
    split; [reflexivity|]. intros _.
    rewrite <- and_assoc. split; [|].
    + split.
      * unfold hed in Ch. destruct (XML.find (T"HED") e); [discriminate|].
        reflexivity.
      * now apply Hp.
    + now apply Hp.
  - split.
    + split.
      * intros (Hh & H1 & H2). exfalso.
        assert (Ep : pars = []) by (apply Hp; now split).
        unfold hed in C. rewrite Hh, Ep in C. discriminate.
      * intros E. exfalso.
        apply (Hn (b :: bs)); [discriminate|exact E].
    + right. exists (join [nl] (b :: bs)).
      change ((b :: bs) ++ [[]]) with ((b :: bs) ++ [[]]).
      apply join_blank_end. discriminate.
Qed.

(** ** A page that cannot be read *)

(** C9, as the code has it: a page whose extraction raises gives the empty
    string and the loop goes on.  The text gathered is made of the cleaned
    texts of the other pages, in their order, joined by blank lines, with
    nothing in the place of the failed page.  The final document is the table
    of contents followed by the formatted sections of that text, and it is
    the document of the same pages without the failed one. *)
Theorem C9_failed_page_skipped :
  forall (before after : list PDF.page) (message : str) bookmarks,
    let doc := PDF.mkpdf (before ++ PDF.PageError message :: after) bookmarks in
    let doc' := PDF.mkpdf (before ++ after) bookmarks in
    let gathered :=
      join [nl; nl]
        (flat_map page_contribution before
         ++ flat_map page_contribution after) in
    PDF.extract_text_from_page doc (length before) = []
    /\ PDF.full_text doc = gathered
    /\ PDF.full_text doc = PDF.full_text doc'
    /\ PDF.parse_full_document (Some doc)
       = PDF.extract_table_of_contents doc
         ++ PDF.format_for_vector_storage (PDF.identify_sections gathered)
    /\ PDF.parse_full_document (Some doc) = PDF.parse_full_document (Some doc').
Proof.
  intros before after message bookmarks doc doc' gathered.
  assert (Hg : PDF.full_text doc = gathered).
  { rewrite full_text_pages. unfold doc, gathered; simpl.
    now rewrite flat_map_app. }
  assert (Hft : PDF.full_text doc = PDF.full_text doc').
  { rewrite !full_text_pages. unfold doc, doc'; simpl.
    now rewrite !flat_map_app. }
  split; [|split; [exact Hg|split; [exact Hft|split]]].
  - unfold PDF.extract_text_from_page, doc; simpl.
    rewrite nth_error_app2 by lia. now rewrite Nat.sub_diag.
  - unfold PDF.parse_full_document. now rewrite Hg.
  - unfold PDF.parse_full_document. now rewrite Hft.
Qed.

(** C9 fails as stated: the final document does not always hold the content
    of the pages around the failed one.  Text in front of the first heading
    line belongs to no section: of the pages "Foreword text", a failed page
    and "more text" the text gathered holds both, the document only the two
    fixed lines. *)
Lemma C9_content_before_heading_counterexample :
  let ps := [PDF.PageText (T"Foreword text"); PDF.PageError (T"no text layer");
             PDF.PageText (T"more text")] in
  PDF.full_text (PDF.mkpdf ps None)
  = T"Foreword text" ++ [nl; nl] ++ T"more text"
  /\ PDF.parse_full_document (Some (PDF.mkpdf ps None))
     = T"# ABS Rules for Survey After Construction - Part 7" ++ [nl; nl]
       ++ T"*American Bureau of Shipping Classification Rules*" ++ [nl]
  /\ occurs (T"Foreword text")
            (PDF.parse_full_document (Some (PDF.mkpdf ps None))) = false
  /\ occurs (T"more text")
            (PDF.parse_full_document (Some (PDF.mkpdf ps None))) = false.
Proof.
  cbv zeta. split; [vm_compute; reflexivity|].
  split; [vm_compute; reflexivity|].
  split; vm_compute; reflexivity.
Qed.

(** ** The formatter of section numbers *)

Lemma remove_dots_dashes_cons c h :
  XML.remove_char "-" (XML.remove_char "." (c :: h))
  = if is_char "." c || is_char "-" c
    then XML.remove_char "-" (XML.remove_char "." h)
    else c :: XML.remove_char "-" (XML.remove_char "." h).
Proof.
  unfold XML.remove_char, is_char. cbn [filter].
  rewrite (Ascii.eqb_sym "." c), (Ascii.eqb_sym "-" c).
  destruct (Ascii.eqb c ".") eqn:Edot; cbn [negb orb]; [reflexivity|].
  cbn [filter]. now destruct (Ascii.eqb c "-").
Qed.

Lemma dot_dash_not_digit c :
  is_char "." c || is_char "-" c = true -> py_isdigit c = false.
Proof.
  unfold is_char. intros H. apply orb_prop in H.
  destruct H as [H|H]; apply Ascii.eqb_eq in H; now subst c.
Qed.

Lemma digits_left : forall h,
  forallb py_isdigit (XML.remove_char "-" (XML.remove_char "." h))
  = forallb (fun c => py_isdigit c || is_char "." c || is_char "-" c) h.
Proof.
  induction h as [|c h IH]; [reflexivity|].
  rewrite remove_dots_dashes_cons. cbn [forallb].
  destruct (is_char "." c || is_char "-" c) eqn:E.
  - rewrite <- orb_assoc, E, orb_true_r. exact IH.
  - cbn [forallb]. rewrite <- orb_assoc, E, orb_false_r. now rewrite IH.
Qed.

Lemma digit_left : forall h,
  forallb (fun c => py_isdigit c || is_char "." c || is_char "-" c) h = true ->
  negb (is_empty (XML.remove_char "-" (XML.remove_char "." h)))
  = existsb py_isdigit h.
Proof.
  induction h as [|c h IH]; intros H; [reflexivity|].
  rewrite remove_dots_dashes_cons. cbn [forallb existsb] in *.
  apply andb_prop in H. destruct H as [Hc H].
  destruct (is_char "." c || is_char "-" c) eqn:E.
  - rewrite (dot_dash_not_digit _ E). cbn [orb]. now apply IH.
  - rewrite <- orb_assoc, E, orb_false_r in Hc. now rewrite Hc.
Qed.

(** The test of the formatter, [isdigit] after the dots and dashes are taken
    out, is the test for a heading of digits, dots and dashes. *)
Lemma isdigit_numeric h :
  XML.isdigit (XML.remove_char "-" (XML.remove_char "." h))
  = numeric_heading h.
Proof.
  unfold XML.isdigit, numeric_heading. rewrite digits_left.
  destruct (forallb _ h) eqn:F.
  - rewrite (digit_left _ F). now rewrite andb_true_r.
  - now rewrite andb_false_r.
Qed.

Lemma numeric_without_sign h :
  numeric_heading h = true ->
  starts_with [XML.section_sign] h = false
  /\ count_char XML.section_sign h = 0.
Proof.
  unfold numeric_heading. intros H. apply andb_prop in H.
  destruct H as [H _]. split.
  - destruct h as [|c h]; [reflexivity|]. cbn [forallb] in H.
    apply andb_prop in H. destruct H as [Hc _]. cbn [starts_with].
    destruct (Ascii.eqb XML.section_sign c) eqn:E; [|reflexivity].
    apply Ascii.eqb_eq in E. subst c. discriminate Hc.
  - apply digits_without_sign. now rewrite digits_left.
Qed.

Lemma format_section_number_cases h :
  XML.format_section_number h
  = if numeric_heading h then XML.section_sign :: space :: h else h.
Proof.
  unfold XML.format_section_number. rewrite isdigit_numeric.
  destruct (numeric_heading h) eqn:N.
  - destruct (numeric_without_sign _ N) as [S _]. now rewrite S.
  - now destruct (starts_with [XML.section_sign] h).
Qed.

(** What [process_division] writes, block by block. *)
Lemma process_division_blocks ctx e level :
  exists child_blocks,
    fst (XML.process_division ctx e level)
    = join [nl] (heading_block e ++ auxiliary_blocks e
                 ++ paragraph_blocks e ++ child_blocks).
Proof.
  destruct e as [div_tag attrs text kids tail].
  cbn [XML.process_division].
  match goal with
  | |- context [XML.each_child ?f ?t ?l ?cs ?content ?c] =>
      destruct (each_child_blocks f t l cs content c) as (blocks & E & _);
      destruct (XML.each_child f t l cs content c) as [content' ctx'] eqn:R
  end.
  cbn [fst] in E. subst content'. exists blocks.
  cbn [fst]. unfold heading_block, auxiliary_blocks, paragraph_blocks.
  now rewrite <- !app_assoc.
Qed.

Lemma section_heading_first ctx e level head :
  XML.upper (XML.get e (T"TYPE") []) = T"SECTION" ->
  XML.find (T"HEAD") e = Some head ->
  exists more,
    fst (XML.process_division ctx e level)
    = [nl] ++ T"###### "
      ++ XML.format_section_number (XML.extract_text_content head)
      ++ [nl] ++ more.
Proof.
  intros Ht Hh. destruct (process_division_blocks ctx e level) as [blocks E].
  rewrite E. unfold heading_block. rewrite Ht, Hh. cbn [XML.optional app].
  match goal with
  | |- context [join [nl] (?x :: ?l)] =>
      destruct (join_head [nl] x l) as [more M]
  end.
  exists more.
  match goal with
  | |- ?lhs = _ => transitivity (XML.heading_line (T"SECTION")
                       (XML.extract_text_content head) ++ more)
  end.
  - symmetry in M. now rewrite M.
  - unfold XML.heading_line. cbn [str_eqb]. 
    change (XML.heading_line (T"SECTION") (XML.extract_text_content head))
      with ([nl] ++ T"###### "
            ++ XML.format_section_number (XML.extract_text_content head)
            ++ [nl]).
    now rewrite <- !app_assoc.
Qed.

(** C6, as the code has it: the formatter puts the section sign and a space
    in front of a heading made only of digits, dots and dashes, with one
    digit at least, and returns every other heading as it is; a heading it
    marks holds the sign once.  What [process_division] writes for an element
    of type SECTION with a heading starts with the heading line at level 6,
    the heading text passed through the formatter.  The heading "101.10" is
    rendered as [###### § 101.10]. *)
Theorem C6_section_number_format :
  (forall h,
     XML.format_section_number h
     = if numeric_heading h then XML.section_sign :: space :: h else h)
  /\ (forall h,
        numeric_heading h = true ->
        count_char XML.section_sign (XML.format_section_number h) = 1)
  /\ (forall ctx e level head,
        XML.upper (XML.get e (T"TYPE") []) = T"SECTION" ->
        XML.find (T"HEAD") e = Some head ->
        exists more,
          fst (XML.process_division ctx e level)
          = [nl] ++ T"###### "
            ++ XML.format_section_number (XML.extract_text_content head)
            ++ [nl] ++ more)
  /\ (forall ctx level,
        fst (XML.process_division ctx
               (section_with_heading (T"Section") (T"101.10")) level)
        = [nl] ++ T"###### " ++ [XML.section_sign] ++ T" 101.10" ++ [nl]).
Proof.
  split; [exact format_section_number_cases|]. split; [|split].
  - intros h N. rewrite format_section_number_cases, N.
    destruct (numeric_without_sign _ N) as [_ C].
    change (XML.section_sign :: space :: h)
      with ([XML.section_sign] ++ [space] ++ h).
    rewrite !count_char_app, C. reflexivity.
  - intros ctx e level head. apply section_heading_first.
  - intros ctx level. vm_compute. reflexivity.
Qed.

Lemma C6_section_number_format_witness :
  let head := text_element (T"HEAD") (T" 101.10-2  ") in
  let e :=
    XML.mkElement (T"DIV8") [(T"N", T"101.10-2"); (T"TYPE", T"Section")] None
      [ head; text_element (T"P") (T"(a) Vessels shall comply.") ] None in
  numeric_heading (T"101.10-2") = true
  /\ count_char XML.section_sign (XML.format_section_number (T"101.10-2")) = 1
  /\ XML.upper (XML.get e (T"TYPE") []) = T"SECTION"
  /\ XML.find (T"HEAD") e = Some head
  /\ exists more,
       fst (XML.process_division XML.empty_context e 1)
       = [nl] ++ T"###### "
         ++ XML.format_section_number (XML.extract_text_content head)
         ++ [nl] ++ more.
Proof.
  intros head e.
  destruct C6_section_number_format as (_ & Hcount & Hline & _).
  split; [reflexivity|]. split; [apply Hcount; reflexivity|].
  split; [reflexivity|]. split; [reflexivity|].
  apply Hline; reflexivity.
Defined.

(** ** The asterisks of the tree converter *)




















(** ** One match in a text *)

(** Where the pattern matches once, at [tok], and nowhere in front of it or
    behind it, [re.sub] replaces that match. *)
Lemma scan_one r repl tok post c b' :
  tok <> [] ->
  (forall b w s', post = w ++ s' -> match_at r (mkpos b s') = None) ->
  forall pre b out,
    (forall b0 w1 w2, pre = w1 ++ w2 -> w2 <> [] ->
       match_at r (mkpos b0 (w2 ++ tok ++ post)) = None) ->
    match_at r (mkpos (after b pre) (tok ++ post)) = Some (c, mkpos b' post) ->
    Scan r repl (mkpos b (pre ++ tok ++ post)) out ->
    out = pre ++ repl c ++ post.
Proof.
  intros Ht Hpost. induction pre as [|a pre IH]; intros b out Hpre Hm Sc.
  - cbn [app after fold_left] in *.
    destruct tok as [|t tok]; [congruence|]. cbn [app] in *.
    inversion Sc; subst.
    + congruence.
    + match goal with
      | H : match_at r ?p = Some (?c1, ?p1), L : Scan r repl ?p1 ?o |- _ =>
          rewrite Hm in H; inversion H; subst;
          apply scan_no_match in L; [cbn [rest] in L; now subst|]
      end.
      intros b1 w s' E. cbn [rest] in E. now apply Hpost with w.
    + match goal with
      | H : match_at r ?p = Some (?c1, ?p1), L : ~ _ < _ |- _ =>
          rewrite Hm in H; inversion H; subst; exfalso; apply L;
          cbn [rest length]; rewrite length_app; lia
      end.
  - cbn [app] in *. inversion Sc; subst.
    + cbn [app]. f_equal. apply IH with (Some a).
      * intros b0 w1 w2 E N. apply Hpre with (a :: w1); [now rewrite E|exact N].
      * exact Hm.
      * assumption.
    + pose proof (Hpre b [] (a :: pre) eq_refl ltac:(discriminate)) as N.
      cbn [app] in N. congruence.
    + pose proof (Hpre b [] (a :: pre) eq_refl ltac:(discriminate)) as N.
      cbn [app] in N. congruence.
Qed.

Lemma re_sub_one r repl pre tok post c b' :
  tok <> [] ->
  (forall b0 w1 w2, pre = w1 ++ w2 -> w2 <> [] ->
     match_at r (mkpos b0 (w2 ++ tok ++ post)) = None) ->
  match_at r (mkpos (after None pre) (tok ++ post)) = Some (c, mkpos b' post) ->
  (forall b w s', post = w ++ s' -> match_at r (mkpos b s') = None) ->
  re_sub r repl (pre ++ tok ++ post) = pre ++ repl c ++ post.
Proof.
  intros Ht Hpre Hm Hpost.
  exact (@scan_one r repl tok post c b' Ht Hpost pre None _ Hpre Hm
           (re_sub_scan r repl (pre ++ tok ++ post))).
Qed.

(** ** Runs of a class, read forwards *)

Lemma after_app b w1 w2 : after b (w1 ++ w2) = after (after b w1) w2.
Proof. apply fold_left_app. Qed.

Lemma after_snoc b w x : after b (w ++ [x]) = Some x.
Proof. unfold after. now rewrite fold_left_app. Qed.

(** A greedy repetition of a class reads the whole run when what follows
    accepts there. *)
Lemma star_class_longest f k v c s :
  (forall a s', s = a :: s' -> f a = false) ->
  forall d b n,
    forallb f d = true -> length (d ++ s) < n ->
    k (mkpos (after b d) s) c = Some v ->
    star_loop (run (Chr f)) true k n (mkpos b (d ++ s)) c = Some v.
Proof.
  intros Hs. induction d as [|a d IH]; intros b n Fd Hn Hk.
  - cbn [app after fold_left] in *. destruct n as [|n]; [lia|].
    cbn [star_loop]. destruct s as [|a s'].
    + rewrite run_chr_nil. exact Hk.
    + rewrite run_chr_cons, (Hs a s' eq_refl). exact Hk.
  - destruct n as [|n]; [cbn in Hn; lia|].
    cbn [forallb] in Fd. apply andb_prop in Fd. destruct Fd as [Fa Fd].
    cbn [app star_loop]. rewrite run_chr_cons, Fa. cbn [advance rest length].
    rewrite ltb_tail. unfold advance.
    rewrite (IH (Some a) n Fd); [reflexivity| cbn in Hn; lia |exact Hk].
Qed.

Lemma plus_class_longest f k v c s d b :
  (forall a s', s = a :: s' -> f a = false) ->
  d <> [] -> forallb f d = true ->
  k (mkpos (after b d) s) c = Some v ->
  run (plus (Chr f)) (mkpos b (d ++ s)) c k = Some v.
Proof.
  intros Hs Hd Fd Hk. destruct d as [|a d]; [congruence|].
  cbn [forallb] in Fd. apply andb_prop in Fd. destruct Fd as [Fa Fd].
  unfold plus. rewrite run_seq. cbn [app]. rewrite run_chr_cons, Fa.
  rewrite run_star. apply star_class_longest; try assumption.
  cbn [advance rest]. lia.
Qed.

(** A greedy repetition gives back the one character it read when what
    follows does not accept after it. *)
Lemma star_back_one f k a y s b c n :
  f a = true -> f y = false -> S (length (y :: s)) < n ->
  k (advance a (y :: s)) c = None ->
  star_loop (run (Chr f)) true k n (mkpos b (a :: y :: s)) c
  = k (mkpos b (a :: y :: s)) c.
Proof.
  intros Fa Fy Hn Hk. destruct n as [|[|n]]; [lia|cbn in Hn; lia|].
  assert (L : (length (y :: s) <? length (a :: y :: s)) = true)
    by (apply Nat.ltb_lt; cbn; lia).
  cbn [star_loop]. rewrite run_chr_cons, Fa. cbn [advance rest].
  rewrite L. unfold advance. cbn [star_loop]. rewrite run_chr_cons, Fy.
  cbn [orelse]. unfold advance in Hk. now rewrite Hk.
Qed.

(** ** Classes of characters *)

Lemma word_not_space a : is_word a = true -> is_space a = false.
Proof.
  intros H. destruct (is_space a) eqn:S; [|reflexivity].
  apply space_not_word in S. congruence.
Qed.

Lemma word_not_newline a : is_word a = true -> dot a = true.
Proof.
  intros H. unfold dot. destruct (Ascii.eqb a nl) eqn:E; [|reflexivity].
  apply Ascii.eqb_eq in E. subst a. discriminate H.
Qed.

Lemma word_not_hyphen a : is_word a = true -> is_char "-" a = false.
Proof.
  intros H. unfold is_char. destruct (Ascii.eqb "-" a) eqn:E; [|reflexivity].
  apply Ascii.eqb_eq in E. subst a. discriminate H.
Qed.

Lemma blank_is_space a : blank a = true -> is_space a = true.
Proof.
  unfold blank, is_char. intros H. apply orb_prop in H.
  destruct H as [H|H]; apply Ascii.eqb_eq in H; now subst a.
Qed.

Lemma word_not_blank a : is_word a = true -> blank a = false.
Proof.
  intros H. destruct (blank a) eqn:B; [|reflexivity].
  apply blank_is_space, space_not_word in B. congruence.
Qed.

Lemma is_a_word_cons w :
  is_a_word w = true ->
  exists y w', w = y :: w' /\ is_word y = true /\ forallb is_word w = true.
Proof.
  unfold is_a_word. intros H. apply andb_prop in H. destruct H as [N F].
  destruct w as [|y w']; [discriminate|]. exists y, w'.
  cbn [forallb] in F. pose proof F as F'. apply andb_prop in F'.
  now destruct F'.
Qed.

Lemma starts_off_word_head post :
  starts_off_word post = true ->
  forall a s', post = a :: s' -> is_word a = false.
Proof.
  unfold starts_off_word, word_after. cbn [rest]. intros H a s' ->.
  now apply negb_true_iff in H.
Qed.

(** ** The broken word *)

Lemma hyphen_break_at b w1 w2 post :
  is_a_word w1 = true -> is_a_word w2 = true ->
  starts_off_word post = true ->
  match_at PDF.hyphen_break (mkpos b (w1 ++ T"-" ++ [nl] ++ w2 ++ post))
  = Some ([(2, w2); (1, w1)], mkpos (after (Some nl) w2) post).
Proof.
  intros H1 H2 Hp.
  destruct (is_a_word_cons _ H1) as (y1 & w1' & E1 & Y1 & F1).
  destruct (is_a_word_cons _ H2) as (y2 & w2' & E2 & Y2 & F2).
  change (T"-" ++ [nl] ++ w2 ++ post) with ("-"%char :: nl :: w2 ++ post).
  unfold match_at, PDF.hyphen_break, wordc. rewrite run_seq, run_group.
  apply plus_class_longest.
  - intros a s' E. inversion E; subst. reflexivity.
  - rewrite E1. discriminate.
  - exact F1.
  - rewrite consumed_app. unfold chr, star, ws.
    rewrite run_seq, run_chr_cons.
    change (is_char "-" "-") with true. cbv iota.
    rewrite run_seq, run_star. clear E1. subst w2. unfold advance.
    cbn [app rest].
    rewrite star_back_one.
    + rewrite run_seq, run_chr_cons. change (is_char nl nl) with true.
      cbv iota. rewrite run_seq, run_star.
      change (advance nl (y2 :: w2' ++ post))
        with (mkpos (Some nl) ([] ++ (y2 :: w2') ++ post)).
      apply star_class_longest.
      * intros a s' E. inversion E; subst. now apply word_not_space.
      * reflexivity.
      * cbn [app rest length]. lia.
      * cbn [after fold_left]. rewrite run_group.
        apply plus_class_longest.
        -- now apply starts_off_word_head.
        -- discriminate.
        -- exact F2.
        -- rewrite consumed_app. reflexivity.
    + reflexivity.
    + now apply word_not_space.
    + cbn [length]. lia.
    + rewrite run_seq. unfold advance. rewrite run_chr_cons.
      replace (is_char nl y2) with false; [reflexivity|].
      symmetry. unfold is_char. rewrite Ascii.eqb_sym.
      apply word_not_newline in Y2. unfold dot in Y2.
      now apply negb_true_iff in Y2.
Qed.

(** ** Runs of blanks *)

Lemma class_match_nil f b : match_at (plus (Chr f)) (mkpos b []) = None.
Proof. reflexivity. Qed.

Lemma class_match f b a s :
  match_at (plus (Chr f)) (mkpos b (a :: s))
  = if f a then Some ([], skip f (Some a) s) else None.
Proof.
  unfold match_at, plus. run_step.
  destruct (f a); [|reflexivity]. run_step.
  now rewrite star_class_accept by (simpl; lia).
Qed.

Lemma squeeze_skip f r : forall s b,
  squeeze f r true s = squeeze f r false (rest (skip f b s)).
Proof.
  induction s as [|a s IH]; intros b; [reflexivity|].
  cbn [squeeze skip]. destruct (f a) eqn:Fa.
  - apply IH.
  - cbn [rest squeeze]. now rewrite Fa.
Qed.

Lemma scan_squeeze f r p out :
  Scan (plus (Chr f)) (fun _ => r) p out -> out = squeeze f r false (rest p).
Proof.
  induction 1 as [b M | b a s out M Sc IH | p c p' out M L Sc IH
                 | b c p' M | b a s c p' out M L Sc IH].
  - reflexivity.
  - rewrite class_match in M. cbn [rest squeeze] in *.
    destruct (f a); [discriminate|]. now rewrite IH.
  - destruct p as [b [|a s]]; [now rewrite class_match_nil in M|].
    rewrite class_match in M. cbn [rest squeeze] in *.
    destruct (f a); [|discriminate]. inversion M; subst.
    now rewrite (squeeze_skip f r s (Some a)).
  - now rewrite class_match_nil in M.
  - rewrite class_match in M. destruct (f a); [|discriminate].
    inversion M; subst. exfalso. apply L.
    pose proof (skip_length f s (Some a)). cbn [length]. lia.
Qed.

Lemma collapse_blanks_squeeze s :
  PDF.collapse_blanks s = squeeze blank [space] false s.
Proof.
  exact (scan_squeeze (re_sub_scan (plus (Chr blank)) (fun _ => [space]) s)).
Qed.

Lemma squeeze_prefix f r b : forall w,
  forallb (fun a => negb (f a)) w = true ->
  squeeze f r false (w ++ b) = w ++ squeeze f r false b.
Proof.
  induction w as [|x w IH]; intros H; [reflexivity|].
  cbn [forallb] in H. apply andb_prop in H. destruct H as [Hx H].
  apply negb_true_iff in Hx. cbn [app squeeze]. rewrite Hx.
  now rewrite IH.
Qed.

Lemma squeeze_app f r x b : forall a st,
  f x = false ->
  squeeze f r st (a ++ x :: b) = squeeze f r st a ++ x :: squeeze f r false b.
Proof.
  induction a as [|y a IH]; intros st Fx.
  - cbn [app squeeze]. now rewrite Fx.
  - cbn [app squeeze]. destruct (f y).
    + destruct st; rewrite IH by assumption; [reflexivity|].
      now rewrite <- app_assoc.
    + now rewrite IH.
Qed.

(** A block without a blank stays where it is; what is in front of it and
    behind it is collapsed on its own. *)
Lemma squeeze_block f r a w b :
  w <> [] -> forallb (fun c => negb (f c)) w = true ->
  squeeze f r false (a ++ w ++ b)
  = squeeze f r false a ++ w ++ squeeze f r false b.
Proof.
  intros N H. destruct w as [|x w]; [congruence|].
  cbn [forallb] in H. apply andb_prop in H. destruct H as [Hx H].
  apply negb_true_iff in Hx. cbn [app].
  rewrite squeeze_app by assumption. now rewrite squeeze_prefix.
Qed.

Lemma squeeze_snoc_run f r x :
  f x = true ->
  forall a,
    (exists t, squeeze f r false (a ++ [x]) = t ++ r)
    /\ (squeeze f r true (a ++ [x]) = []
        \/ exists t, squeeze f r true (a ++ [x]) = t ++ r).
Proof.
  intros Fx. induction a as [|y a [IHf IHt]].
  - cbn [app squeeze]. rewrite Fx. split; [|now left].
    exists []. now rewrite app_nil_r.
  - cbn [app squeeze]. destruct (f y).
    + split; [|exact IHt]. destruct IHt as [E|[t E]]; rewrite E.
      * exists []. now rewrite app_nil_r.
      * exists (r ++ t). now rewrite app_assoc.
    + destruct IHf as [t E]. rewrite E.
      split; [|right]; now exists (y :: t).
Qed.

Lemma ends_off_word_snoc a x : ends_off_word (a ++ [x]) = negb (is_word x).
Proof. unfold ends_off_word, word_before. cbn [before]. now rewrite after_snoc. Qed.

Lemma ends_off_word_blanks pre :
  ends_off_word pre = true ->
  ends_off_word (PDF.collapse_blanks pre) = true.
Proof.
  rewrite collapse_blanks_squeeze.
  destruct pre as [|a0 pre0] using rev_ind; [reflexivity|]. clear IHpre0.
  rewrite ends_off_word_snoc. intros H. destruct (blank a0) eqn:B.
  - destruct (squeeze_snoc_run blank [space] a0 B pre0) as [[t E] _].
    rewrite E. now rewrite ends_off_word_snoc.
  - rewrite squeeze_app by assumption. cbn [squeeze].
    now rewrite ends_off_word_snoc.
Qed.

Lemma starts_off_word_blanks post :
  starts_off_word post = true ->
  starts_off_word (PDF.collapse_blanks post) = true.
Proof.
  rewrite collapse_blanks_squeeze. destruct post as [|y s]; [reflexivity|].
  unfold starts_off_word, word_after. cbn [rest squeeze].
  destruct (blank y); [reflexivity|]. now cbn [app].
Qed.

Lemma one_line_blanks s :
  forallb dot s = true -> forallb dot (PDF.collapse_blanks s) = true.
Proof.
  intros H. unfold PDF.collapse_blanks. apply re_sub_all; [reflexivity|exact H].
Qed.

(** ** A word broken at the line break of a page *)

Lemma one_line_cleaned text :
  forallb dot text = true ->
  PDF.clean_text text = strip (PDF.collapse_blanks text).
Proof.
  intros H. unfold PDF.clean_text, PDF.collapse_newlines.
  unfold PDF.blank_lines at 1.
  rewrite (@re_sub_needs_newline _ _ _ (@newline_first _) H).
  unfold PDF.rejoin_hyphens.
  rewrite (@re_sub_needs_newline _ _ _ hyphen_break_newline
             (one_line_blanks _ H)).
  now rewrite drop_boilerplate_one_line by now apply one_line_blanks.
Qed.

Lemma count_one_line s : forallb dot s = true -> count_char nl s = 0.
Proof.
  unfold count_char. induction s as [|a s IH]; intros H; [reflexivity|].
  cbn [forallb] in H. apply andb_prop in H. destruct H as [Ha H].
  unfold dot in Ha. apply negb_true_iff in Ha. cbn [filter].
  rewrite Ascii.eqb_sym, Ha. now apply IH.
Qed.

Lemma word_one_line w : forallb is_word w = true -> forallb dot w = true.
Proof.
  induction w as [|a w IH]; intros H; [reflexivity|].
  cbn [forallb] in *. apply andb_prop in H. destruct H as [Ha H].
  now rewrite (word_not_newline _ Ha), IH.
Qed.

Lemma word_no_blank w :
  forallb is_word w = true -> forallb (fun c => negb (blank c)) w = true.
Proof.
  induction w as [|a w IH]; intros H; [reflexivity|].
  cbn [forallb] in *. apply andb_prop in H. destruct H as [Ha H].
  now rewrite (word_not_blank _ Ha), IH.
Qed.

(** The pattern of the blank lines needs two newlines. *)
Lemma blank_lines_two p x :
  match_at PDF.blank_lines p = Some x -> 2 <= count_char nl (rest p).
Proof.
  unfold match_at, PDF.blank_lines, chr. rewrite run_seq. intros H.
  apply inv_chr in H. destruct H as (a & s & E & Fa & H).
  apply Ascii.eqb_eq in Fa. subst a.
  apply peel_part in H; [|reflexivity]. destruct H as (p1 & [w R] & H).
  rewrite run_seq in H. apply inv_chr in H.
  destruct H as (a & s1 & E1 & Fa & _). apply Ascii.eqb_eq in Fa. subst a.
  cbn [rest advance] in R. rewrite E, R, E1.
  rewrite (count_char_cons nl nl), count_char_app, (count_char_cons nl nl s1).
  change (count_char nl [nl]) with 1. lia.
Qed.

Lemma count_suffix c w s : count_char c s <= count_char c (w ++ s).
Proof. rewrite count_char_app. lia. Qed.

Lemma one_newline_kept text :
  count_char nl text <= 1 -> PDF.collapse_newlines text = text.
Proof.
  intros H. unfold PDF.collapse_newlines. apply re_sub_no_match.
  intros b w s' E.
  destruct (match_at PDF.blank_lines (mkpos b s')) as [x|] eqn:M;
    [|reflexivity].
  exfalso. apply blank_lines_two in M. cbn [rest] in M.
  pose proof (count_suffix nl w s') as L. rewrite <- E in L. lia.
Qed.

(** What a match of the pattern of the broken words reads: a word, the
    hyphen, white space, a newline. *)
Lemma hyphen_break_inv p x :
  match_at PDF.hyphen_break p = Some x ->
  exists u v s',
    rest p = u ++ "-"%char :: v ++ nl :: s'
    /\ u <> [] /\ forallb is_word u = true /\ forallb is_space v = true.
Proof.
  unfold match_at, PDF.hyphen_break, wordc, chr, star, ws.
  rewrite run_seq, run_group. intros H. apply inv_plus in H.
  destruct H as (a & w & s1 & E & Fa & Fw & H).
  rewrite run_seq in H. apply inv_chr in H.
  destruct H as (a2 & s2 & E2 & Fa2 & H). apply Ascii.eqb_eq in Fa2. subst a2.
  rewrite run_seq, run_star in H. apply star_class_inv in H.
  destruct H as (v & s3 & E3 & Fv & H).
  rewrite run_seq in H. apply inv_chr in H.
  destruct H as (a4 & s4 & E4 & Fa4 & _). apply Ascii.eqb_eq in Fa4. subst a4.
  cbn [rest advance] in *. subst.
  exists (a :: w), v, s4. split; [exact E|]. split; [discriminate|].
  split; [|exact Fv]. cbn [forallb]. now rewrite Fa, Fw.
Qed.

Lemma breaks_line_run : forall v s',
  forallb is_space v = true -> breaks_line (v ++ nl :: s') = true.
Proof.
  induction v as [|a v IH]; intros s' H; [reflexivity|].
  cbn [forallb] in H. apply andb_prop in H. destruct H as [Ha H].
  cbn [app breaks_line]. rewrite Ha, IH by assumption.
  now rewrite orb_true_r.
Qed.

Lemma no_break_one_line : forall w y s,
  forallb dot w = true -> is_space y = false ->
  breaks_line (w ++ y :: s) = false.
Proof.
  induction w as [|a w IH]; intros y s H Y.
  - cbn [app breaks_line]. now rewrite Y.
  - cbn [forallb] in H. apply andb_prop in H. destruct H as [Ha H].
    unfold dot in Ha. apply negb_true_iff in Ha.
    cbn [app breaks_line]. rewrite Ha, IH by assumption.
    now rewrite andb_false_r.
Qed.

(** A run of a class and the character that ends it are unique. *)
Lemma run_unique (f : ascii -> bool) : forall u u' y y' t t',
  forallb f u = true -> f y = false ->
  forallb f u' = true -> f y' = false ->
  u ++ y :: t = u' ++ y' :: t' -> u = u' /\ y = y' /\ t = t'.
Proof.
  induction u as [|a u IH]; intros [|a' u'] y y' t t' Fu Fy Fu' Fy' E;
    cbn [app forallb] in *.
  - inversion E. now subst.
  - inversion E; subst. apply andb_prop in Fu'. destruct Fu'. congruence.
  - inversion E; subst. apply andb_prop in Fu. destruct Fu. congruence.
  - inversion E; subst. apply andb_prop in Fu. apply andb_prop in Fu'.
    destruct Fu as [_ Fu], Fu' as [_ Fu'].
    destruct (IH u' y y' t t' Fu Fy Fu' Fy' H1) as (-> & -> & ->).
    now repeat split.
Qed.

Lemma all_word_ends_word : forall w b,
  w <> [] -> forallb is_word w = true ->
  word_before (mkpos (after b w) []) = true.
Proof.
  induction w as [|a w IH]; intros b N H; [congruence|].
  cbn [forallb] in H. apply andb_prop in H. destruct H as [Ha H].
  rewrite after_cons. destruct w as [|a' w]; [exact Ha|].
  apply IH; [discriminate|exact H].
Qed.

(** In front of the broken word no match begins. *)
Lemma hyphen_break_not_before b pre0 w w1 tail :
  forallb dot (pre0 ++ w) = true -> ends_off_word (pre0 ++ w) = true ->
  w <> [] -> is_a_word w1 = true ->
  match_at PDF.hyphen_break (mkpos b (w ++ w1 ++ tail)) = None.
Proof.
  intros Hd He Nw H1.
  destruct (match_at PDF.hyphen_break (mkpos b (w ++ w1 ++ tail)))
    as [x|] eqn:M; [|reflexivity].
  exfalso. apply hyphen_break_inv in M.
  destruct M as (u & v & s' & E & Nu & Fu & Fv). cbn [rest] in E.
  destruct (skip_suffix is_word w None) as (wa & Ew & Fa).
  destruct (rest (skip is_word None w)) as [|x0 wb] eqn:R.
  - rewrite app_nil_r in Ew. subst wa.
    unfold ends_off_word in He. rewrite after_app in He.
    rewrite all_word_ends_word in He by assumption. discriminate He.
  - pose proof (skip_head is_word w None R) as Fx.
    rewrite Ew, <- app_assoc in E. cbn [app] in E.
    destruct (@run_unique is_word wa u x0 "-"%char _ _ Fa Fx Fu eq_refl E)
      as (_ & _ & Et).
    destruct (is_a_word_cons _ H1) as (y1 & w1' & E1 & Y1 & _).
    assert (Hb : breaks_line (wb ++ w1 ++ tail) = false).
    { rewrite E1. cbn [app]. apply no_break_one_line.
      - rewrite Ew in Hd. apply forallb_suffix in Hd.
        apply forallb_suffix in Hd. cbn [forallb] in Hd.
        apply andb_prop in Hd. now destruct Hd.
      - now apply word_not_space. }
    rewrite Et, breaks_line_run in Hb by assumption. discriminate Hb.
Qed.

Lemma rejoined pre w1 w2 post :
  forallb dot pre = true -> forallb dot post = true ->
  is_a_word w1 = true -> is_a_word w2 = true ->
  ends_off_word pre = true -> starts_off_word post = true ->
  PDF.rejoin_hyphens (pre ++ (w1 ++ T"-" ++ [nl] ++ w2) ++ post)
  = pre ++ (w1 ++ w2) ++ post.
Proof.
  intros Hpre Hpost H1 H2 He Hs. unfold PDF.rejoin_hyphens.
  rewrite (@re_sub_one PDF.hyphen_break (fun c => grp 1 c ++ grp 2 c)
             pre (w1 ++ T"-" ++ [nl] ++ w2) post [(2, w2); (1, w1)]
             (after (Some nl) w2)).
  - reflexivity.
  - destruct (is_a_word_cons _ H1) as (y1 & w1' & E1 & _). rewrite E1.
    discriminate.
  - intros b0 wa w E N. subst pre. rewrite <- !app_assoc.
    now apply hyphen_break_not_before with wa.
  - rewrite <- !app_assoc. now apply hyphen_break_at.
  - intros b w s' E.
    destruct (match_at PDF.hyphen_break (mkpos b s')) as [[c p']|] eqn:M;
      [|reflexivity].
    exfalso. apply hyphen_break_newline in M. cbn [rest] in M.
    rewrite E in Hpost. apply forallb_suffix in Hpost.
    exact (no_newline _ Hpost M).
Qed.

Lemma broken_word_cleaned pre w1 w2 post :
  forallb dot pre = true -> forallb dot post = true ->
  is_a_word w1 = true -> is_a_word w2 = true ->
  ends_off_word pre = true -> starts_off_word post = true ->
  PDF.clean_text (pre ++ w1 ++ T"-" ++ [nl] ++ w2 ++ post)
  = PDF.clean_text (pre ++ w1 ++ w2 ++ post).
Proof.
  intros Hpre Hpost H1 H2 He Hs.
  destruct (is_a_word_cons _ H1) as (y1 & w1' & E1 & _ & F1).
  destruct (is_a_word_cons _ H2) as (y2 & w2' & E2 & _ & F2).
  assert (N1 : w1 <> []) by (rewrite E1; discriminate).
  assert (Hx : forallb (fun c => negb (blank c)) (w1 ++ T"-" ++ [nl] ++ w2)
               = true).
  { rewrite !forallb_app, (word_no_blank _ F1), (word_no_blank _ F2).
    reflexivity. }
  assert (Hy : forallb (fun c => negb (blank c)) (w1 ++ w2) = true).
  { now rewrite !forallb_app, (word_no_blank _ F1), (word_no_blank _ F2). }
  assert (Hw : forallb dot (w1 ++ w2) = true).
  { now rewrite !forallb_app, (word_one_line _ F1), (word_one_line _ F2). }
  (* the page with the word unbroken *)
  rewrite (@one_line_cleaned (pre ++ w1 ++ w2 ++ post)).
  2:{ now rewrite !forallb_app, Hpre, Hpost, (word_one_line _ F1),
        (word_one_line _ F2). }
  replace (pre ++ w1 ++ w2 ++ post) with (pre ++ (w1 ++ w2) ++ post)
    by now rewrite <- !app_assoc.
  rewrite (collapse_blanks_squeeze (pre ++ (w1 ++ w2) ++ post)).
  rewrite squeeze_block; [|destruct w1; [congruence|discriminate]|exact Hy].
  rewrite <- !collapse_blanks_squeeze.
  (* the page with the broken word *)
  replace (pre ++ w1 ++ T"-" ++ [nl] ++ w2 ++ post)
    with (pre ++ (w1 ++ T"-" ++ [nl] ++ w2) ++ post)
    by now rewrite <- !app_assoc.
  unfold PDF.clean_text. rewrite one_newline_kept.
  2:{ rewrite !count_char_app.
      rewrite (count_one_line _ Hpre), (count_one_line _ Hpost).
      rewrite !(count_one_line _ (word_one_line _ F1)).
      rewrite !(count_one_line _ (word_one_line _ F2)). reflexivity. }
  rewrite (collapse_blanks_squeeze (pre ++ _ ++ post)).
  rewrite squeeze_block; [|destruct w1; [congruence|discriminate]|exact Hx].
  rewrite <- !collapse_blanks_squeeze.
  rewrite rejoined;
    auto using one_line_blanks, ends_off_word_blanks, starts_off_word_blanks.
  rewrite drop_boilerplate_one_line; [reflexivity|].
  now rewrite !forallb_app, (one_line_blanks _ Hpre),
    (one_line_blanks _ Hpost), (word_one_line _ F1), (word_one_line _ F2).
Qed.

Lemma contributions_of_texts : forall texts,
  flat_map page_contribution (map PDF.PageText texts)
  = filter (fun t => negb (is_empty t)) (map PDF.clean_text texts).
Proof.
  induction texts as [|t texts IH]; [reflexivity|].
  cbn [map flat_map filter page_contribution]. rewrite IH.
  destruct t as [|a t]; [reflexivity|]. cbn [is_empty].
  now destruct (is_empty (PDF.clean_text (a :: t))).
Qed.

(** C4, as the code has it: the four rules and the strip are applied in the
    stated order, but to the text of each page on its own; a page that is
    empty before or after the cleanup is left out and the cleaned pages are
    joined by a blank line.  In a page of two lines a word broken by a hyphen
    at the end of the first line and continued at the start of the second is
    joined again: the page is cleaned to what it gives with the word
    unbroken.  The matches are replaced from left to right and do not
    overlap: of two breaks in a row of one word only the first is joined. *)
Theorem C4_cleanup_is_per_page :
  (forall texts bookmarks,
     PDF.full_text (PDF.mkpdf (map PDF.PageText texts) bookmarks)
     = join [nl; nl]
         (filter (fun t => negb (is_empty t))
            (map (fun t =>
                    strip (PDF.drop_boilerplate
                             (PDF.rejoin_hyphens
                                (PDF.collapse_blanks
                                   (PDF.collapse_newlines t)))))
                 texts)))
  /\ (forall doc,
        PDF.full_text doc
        = join [nl; nl] (flat_map page_contribution (PDF.pages doc)))
  /\ (forall pre w1 w2 post,
        forallb dot pre = true -> forallb dot post = true ->
        is_a_word w1 = true -> is_a_word w2 = true ->
        ends_off_word pre = true -> starts_off_word post = true ->
        PDF.clean_text (pre ++ w1 ++ T"-" ++ [nl] ++ w2 ++ post)
        = PDF.clean_text (pre ++ w1 ++ w2 ++ post))
  /\ PDF.clean_text (T"inter-" ++ [nl] ++ T"nation-" ++ [nl] ++ T"al law")
     = T"internation-" ++ [nl] ++ T"al law"
  /\ PDF.full_text
       (PDF.mkpdf [PDF.PageText (T"an exam-" ++ [nl] ++ T"ple text" ++ [nl])]
                  None)
     = T"an example text".
Proof.
  split; [|split; [exact full_text_pages|split; [exact broken_word_cleaned|]]].
  - intros texts bookmarks. rewrite full_text_pages. cbn [PDF.pages].
    now rewrite contributions_of_texts.
  - split; vm_compute; reflexivity.
Qed.

Lemma C4_cleanup_is_per_page_witness :
  forallb dot (T"see the ") = true
  /\ forallb dot (T", part 2") = true
  /\ is_a_word (T"exam") = true
  /\ is_a_word (T"ple") = true
  /\ ends_off_word (T"see the ") = true
  /\ starts_off_word (T", part 2") = true
  /\ PDF.clean_text
       (T"see the " ++ T"exam" ++ T"-" ++ [nl] ++ T"ple" ++ T", part 2")
     = PDF.clean_text (T"see the " ++ T"exam" ++ T"ple" ++ T", part 2").
Proof.
  repeat (split; [reflexivity|]).
  apply (proj1 (proj2 (proj2 C4_cleanup_is_per_page))); reflexivity.
Defined.

(** ** What the patterns of [format_content] need *)













(** ** Letters and key words *)






(** ** Where a key word can occur *)














(** ** The key words *)













(** ** A pattern between word boundaries, read forwards *)

















(** ** Plain prose around a token *)









(** ** References in plain prose *)









Lemma no_digit_head (s : str) a s' :
  existsb is_digit s = false -> s = a :: s' -> is_digit a = false.
Proof.
  intros H ->. cbn [existsb] in H. apply orb_false_iff in H. now destruct H.
Qed.


(** *** Neighbours *)

Lemma chain_left (R : ascii -> ascii -> bool) (L : ascii -> bool) :
  (forall x y, L x = true -> R x y = true) ->
  forall s, forallb L s = true -> chain R s = true.
Proof.
  intros H. induction s as [|a s IH]; intros F; [reflexivity|].
  cbn [forallb] in F. apply andb_prop in F. destruct F as [Fa F].
  rewrite chain_cons. destruct s as [|b s]; [reflexivity|].
  now rewrite (H a b Fa), IH.
Qed.



























(** ** "Section N" and "Chapter N" in plain prose *)


















(** ** The pass over references and key words *)


